(** * LiquidMem: baths, pools, creeks and rivers

    A shallow embedding of [liquidmem.c] and of the bit-array macros of
    [bitarray.h], with the properties of the allocators stated and proved
    over it.

    Conventions of the embedding.
    - [size_t] is a 64-bit unsigned integer and [unsigned int] a 32-bit one;
      both are values of [Z] and every arithmetic operation of the source
      that can overflow is followed by its reduction ([wrap], [UINT_MOD]).
    - A pointer is an address, a value of [Z]; [NULL] is address [0].
      Pointer arithmetic is arithmetic on addresses.
    - The functions of the source mutate the structure they are handed; the
      embedding passes the structure in and hands the new one back next to
      the returned value.  A function that returns either its argument or
      [NULL] returns a [bool] here ([true] for the argument).
    - A computation is an [option]: [None] stands for an execution that the
      C standard leaves undefined (an access outside an array, a null
      dereference, a division by zero).
    - The slots of a bath and the bytes of a creek are never read or
      written by the library itself, only addressed; the contents of the
      [data] buffers are therefore not part of the state.
    - [malloc], [calloc] and [realloc] belong to the C library.  They are
      modelled by an oracle, [heap], that fixes the answers to the
      requests in advance.
    - The embedding covers the [init], [alloc], [release], [reset] and
      [clear] functions of the four structures and the macros of
      [bitarray.h].  [membath_release] is the variant that is compiled
      without [USE_INTPTR]. *)

From stdpp Require Import base numbers list option.

Local Open Scope Z_scope.

(** ** Machine integers and pointers *)

Definition SIZE_MOD : Z := 2 ^ 64.
Definition UINT_MOD : Z := 2 ^ 32.

(** Reduction of a [size_t] result. *)
Definition wrap (z : Z) : Z := z `mod` SIZE_MOD.

Definition ptr : Type := Z.
Definition NULL : ptr := 0.

(** ** Arrays

    [index l i] reads [l[i]] and [store l i x] writes it; outside of the
    array the behaviour is undefined. *)

Definition index {A : Type} (l : list A) (i : Z) : option A :=
  if decide (0 ≤ i) then l !! Z.to_nat i else None.

Definition store {A : Type} (l : list A) (i : Z) (x : A) : option (list A) :=
  if decide (0 ≤ i < Z.of_nat (length l)) then Some (<[Z.to_nat i := x]> l)
  else None.

(** ** The structures of liquidmem.h that hold storage *)

Record membath_s : Type := Membath {
  bath_size : Z;               (* size: the number of items *)
  bath_itemSize : Z;           (* itemSize *)
  bath_length : Z;             (* length: the number of slots in use *)
  bath_firstFree : Z;          (* firstFree *)
  bath_useMap : option (list Z); (* useMap: the words, None for NULL *)
  bath_data : ptr              (* data: the address of the slots *)
}.

Record memcreek_s : Type := Memcreek {
  creek_size : Z;              (* size, in bytes *)
  creek_length : Z;            (* length: the occupied size *)
  creek_data : ptr             (* data: the address of the memory *)
}.

(** ** The C library allocator

    The oracle holds the answers to the requests to come: the address
    handed out, [0] for a refusal.  Once the answers are exhausted every
    request is refused.  The requested size plays no role: the oracle
    already ranges over every possible behaviour of the allocator.  The
    oracle also holds what is found in storage that was handed out and not
    written yet, a bath or a creek. *)

Record heap : Type := Heap {
  answers : list N;
  junk_bath : membath_s;
  junk_creek : memcreek_s
}.

Definition request (h : heap) : ptr * heap :=
  match answers h with
  | [] => (NULL, h)
  | a :: rest => (Z.of_N a, Heap rest (junk_bath h) (junk_creek h))
  end.

Definition malloc (h : heap) (bytes : Z) : ptr * heap := request h.
Definition calloc (h : heap) (count bytes : Z) : ptr * heap := request h.
Definition realloc (h : heap) (bytes : Z) : ptr * heap := request h.

(** An oracle with the given answers, whose fresh storage holds zeros. *)
Definition zeroed (l : list Z) : heap :=
  Heap (Z.to_N <$> l) (Membath 0 0 0 0 None NULL) (Memcreek 0 0 NULL).

(** ** bitarray.h *)

Definition BITARRAY_INTBITS : Z := 32.

Definition bitArray_mask (bit : Z) : Z :=
  Z.shiftl 1 (bit `mod` BITARRAY_INTBITS).

Definition bitArray_slot (bit : Z) : Z := bit `div` BITARRAY_INTBITS.

Definition bitArray_size (sz : Z) : Z :=
  wrap (sz + BITARRAY_INTBITS - 1) `div` BITARRAY_INTBITS.

Definition bitArray_test (ar : list Z) (bit : Z) : option Z :=
  w ← index ar (bitArray_slot bit);
  Some (Z.land w (bitArray_mask bit)).

Definition bitArray_set (ar : list Z) (bit : Z) : option (list Z) :=
  w ← index ar (bitArray_slot bit);
  store ar (bitArray_slot bit) (Z.lor w (bitArray_mask bit) `mod` UINT_MOD).

Definition bitArray_clear (ar : list Z) (bit : Z) : option (list Z) :=
  w ← index ar (bitArray_slot bit);
  store ar (bitArray_slot bit)
        (Z.land w (Z.lnot (bitArray_mask bit) `mod` UINT_MOD)).

(** Reading of a bit-array, for the statements: is bit [bit] set?  A bit
    outside of the array is not. *)
Definition bit_set (ar : list Z) (bit : Z) : bool :=
  match index ar (bitArray_slot bit) with
  | Some w => Z.testbit w (bit `mod` BITARRAY_INTBITS)
  | None => false
  end.

(** The number of bits set in a bit-array. *)
Definition word_popcount (w : Z) : Z :=
  Z.of_nat (length (filter (λ i, Z.testbit w i = true) (seqZ 0 BITARRAY_INTBITS))).

Definition bitArray_popcount (ar : list Z) : Z :=
  foldr (λ w acc, word_popcount w + acc) 0 ar.

(** ** Baths *)

Definition membath_init (h : heap) (bath : membath_s) (size itemSize : Z)
  : bool * membath_s * heap :=
  let bitSize := bitArray_size size in
  let '(um, h1) := calloc h bitSize 4 in
  if decide (um = NULL) then
    (false, Membath size itemSize 0 0 None (bath_data bath), h1)
  else
    let '(d, h2) := malloc h1 (wrap (size * itemSize)) in
    (bool_decide (d ≠ NULL),
     Membath size itemSize 0 0 (Some (replicate (Z.to_nat bitSize) 0)) d,
     h2).

(** The loop of [membath_alloc]: the first [i' ≥ i] below [size] whose bit
    is clear, if there is one; [fuel] is [size - i]. *)
Fixpoint scan_free (fuel : nat) (useMap : list Z) (i : Z) : option (option Z) :=
  match fuel with
  | O => Some None
  | S fuel' =>
      t ← bitArray_test useMap i;
      if decide (t = 0) then Some (Some i) else scan_free fuel' useMap (i + 1)
  end.

Definition membath_alloc (bath : membath_s) : option (ptr * membath_s) :=
  if decide (bath_size bath ≤ bath_length bath) then Some (NULL, bath)
  else
    let item := bath_firstFree bath in
    useMap ← bath_useMap bath;
    useMap' ← bitArray_set useMap item;
    found ← scan_free (Z.to_nat (bath_size bath - item)) useMap' item;
    Some (bath_data bath + wrap (item * bath_itemSize bath),
          Membath (bath_size bath) (bath_itemSize bath)
                  (wrap (bath_length bath + 1))
                  (default item found)
                  (Some useMap') (bath_data bath)).

Definition membath_release (bath : membath_s) (vptr : ptr)
  : option (bool * membath_s) :=
  let end_ := bath_data bath + wrap (bath_size bath * bath_itemSize bath) in
  if decide (vptr < bath_data bath ∨ end_ < vptr) then Some (false, bath)
  else
    let itemOffset := vptr - bath_data bath in
    if decide (itemOffset < 0
               ∨ wrap (bath_size bath * bath_itemSize bath) < wrap itemOffset)
    then Some (false, bath)
    else if decide (bath_itemSize bath = 0) then None
    else
      let item := wrap itemOffset `div` bath_itemSize bath in
      let firstFree :=
        if decide (item < bath_firstFree bath) then item
        else bath_firstFree bath in
      useMap ← bath_useMap bath;
      useMap' ← bitArray_clear useMap item;
      Some (true,
            Membath (bath_size bath) (bath_itemSize bath)
                    (wrap (bath_length bath - 1))
                    firstFree (Some useMap') (bath_data bath)).

(** ** Pools *)

Record mempool_s : Type := Mempool {
  pool_length : Z;             (* length: the number of baths *)
  pool_bathSize : Z;           (* bathSize *)
  pool_itemSize : Z;           (* itemSize *)
  pool_baths : list membath_s  (* baths: the array, as it is allocated *)
}.

Definition sizeof_membath : Z := 48.

Definition mempool_init (h : heap) (bathSize itemSize : Z)
  : bool * mempool_s * heap :=
  let '(bths, h1) := malloc h (wrap (1 * sizeof_membath)) in
  if decide (bths = NULL) then (false, Mempool 1 bathSize itemSize [], h1)
  else
    let '(ok, bath, h2) := membath_init h1 (junk_bath h1) bathSize itemSize in
    (ok, Mempool 1 bathSize itemSize [bath], h2).

Definition mempool_alloc (h : heap) (pool : mempool_s)
  : option (ptr * mempool_s * heap) :=
  let last := pool_length pool - 1 in
  bath ← index (pool_baths pool) last;
  '(ret, bath') ← membath_alloc bath;
  baths1 ← store (pool_baths pool) last bath';
  if decide (ret ≠ NULL) then
    Some (ret,
          Mempool (pool_length pool) (pool_bathSize pool) (pool_itemSize pool)
                  baths1,
          h)
  else
    let len := wrap (pool_length pool + 1) in
    let '(bths, h1) := realloc h (wrap (len * sizeof_membath)) in
    if decide (bths = NULL) then
      Some (NULL,
            Mempool len (pool_bathSize pool) (pool_itemSize pool) baths1,
            h1)
    else
      let baths2 := resize (Z.to_nat len) (junk_bath h1) baths1 in
      fresh ← index baths2 (len - 1);
      let '(_, fresh1, h2) :=
        membath_init h1 fresh (pool_bathSize pool) (pool_itemSize pool) in
      '(ret2, fresh2) ← membath_alloc fresh1;
      baths3 ← store baths2 (len - 1) fresh2;
      Some (ret2,
            Mempool len (pool_bathSize pool) (pool_itemSize pool) baths3,
            h2).

(** The loop of [mempool_release], from bath [i] on; [fuel] is
    [length - i]. *)
Fixpoint release_scan (fuel : nat) (i : Z) (baths : list membath_s) (p : ptr)
  : option (bool * list membath_s) :=
  match fuel with
  | O => Some (false, baths)
  | S fuel' =>
      bath ← index baths i;
      '(r, bath') ← membath_release bath p;
      baths' ← store baths i bath';
      if (r : bool) then Some (true, baths') else release_scan fuel' (i + 1) baths' p
  end.

Definition mempool_release (pool : mempool_s) (p : ptr)
  : option (bool * mempool_s) :=
  if decide (p = NULL) then Some (false, pool)
  else
    '(r, baths) ← release_scan (Z.to_nat (pool_length pool)) 0
                               (pool_baths pool) p;
    Some (r,
          Mempool (pool_length pool) (pool_bathSize pool) (pool_itemSize pool)
                  baths).

(** ** Creeks *)

Definition memcreek_init (h : heap) (size : Z) : bool * memcreek_s * heap :=
  let '(d, h1) := malloc h size in
  (bool_decide (d ≠ NULL), Memcreek size 0 d, h1).

Definition memcreek_alloc (creek : memcreek_s) (sz : Z) : ptr * memcreek_s :=
  if decide (wrap (creek_size creek - creek_length creek) < sz) then
    (NULL, creek)
  else
    (creek_data creek + creek_length creek,
     Memcreek (creek_size creek) (wrap (creek_length creek + sz))
              (creek_data creek)).

(** ** Rivers *)

Record memriver_s : Type := Memriver {
  riv_length : Z;              (* length: the number of creeks *)
  riv_creekSize : Z;           (* creekSize *)
  riv_creeks : list memcreek_s (* creeks: the array, as it is allocated *)
}.

Definition sizeof_memcreek : Z := 24.

Definition memriver_init (h : heap) (creekSize : Z)
  : bool * memriver_s * heap :=
  let '(crks, h1) := malloc h (wrap (1 * sizeof_memcreek)) in
  if decide (crks = NULL) then (false, Memriver 1 creekSize [], h1)
  else
    let '(_, creek, h2) := memcreek_init h1 creekSize in
    (true, Memriver 1 creekSize [creek], h2).

(** [addCreek] returns the place of the new creek in the array, [None]
    for [NULL]. *)
Definition addCreek (h : heap) (riv : memriver_s) (size : Z)
  : option (option Z * memriver_s * heap) :=
  let len := wrap (riv_length riv + 1) in
  let '(crks, h1) := realloc h (wrap (len * sizeof_memcreek)) in
  if decide (crks = NULL) then
    Some (None, Memriver len (riv_creekSize riv) (riv_creeks riv), h1)
  else
    let creeks1 := resize (Z.to_nat len) (junk_creek h1) (riv_creeks riv) in
    let '(_, creek, h2) := memcreek_init h1 size in
    creeks2 ← store creeks1 (len - 1) creek;
    Some (Some (len - 1), Memriver len (riv_creekSize riv) creeks2, h2).

(** [memcreek_alloc] on the creek at place [i] of the array. *)
Definition alloc_at (creeks : list memcreek_s) (i : Z) (size : Z)
  : option (ptr * list memcreek_s) :=
  creek ← index creeks i;
  let '(ret, creek') := memcreek_alloc creek size in
  creeks' ← store creeks i creek';
  Some (ret, creeks').

(** The loop of [memriver_alloc], over the creeks [i - 1] down to [0]. *)
Fixpoint scan_creeks (i : nat) (creeks : list memcreek_s) (size : Z)
  : option (ptr * list memcreek_s) :=
  match i with
  | O => Some (NULL, creeks)
  | S j =>
      '(ret, creeks') ← alloc_at creeks (Z.of_nat j) size;
      if decide (ret ≠ NULL) then Some (ret, creeks')
      else scan_creeks j creeks' size
  end.

(** The two places where [memriver_alloc] allocates from the creek that
    [addCreek] returned. *)
Definition alloc_added (h : heap) (riv : memriver_s) (creekSize size : Z)
  : option (ptr * memriver_s * heap) :=
  '(crk, riv1, h1) ← addCreek h riv creekSize;
  match crk with
  | Some i =>
      '(ret, creeks') ← alloc_at (riv_creeks riv1) i size;
      Some (ret, Memriver (riv_length riv1) (riv_creekSize riv1) creeks', h1)
  | None => Some (NULL, riv1, h1)
  end.

Definition memriver_alloc (h : heap) (riv : memriver_s) (size : Z)
  : option (ptr * memriver_s * heap) :=
  if decide (riv_creekSize riv < size) then alloc_added h riv size size
  else
    '(ret, creeks1) ← scan_creeks (Z.to_nat (riv_length riv))
                                  (riv_creeks riv) size;
    let riv1 := Memriver (riv_length riv) (riv_creekSize riv) creeks1 in
    if decide (ret = NULL) then alloc_added h riv1 (riv_creekSize riv) size
    else Some (ret, riv1, h).

(** ** Runs

    The states of a bath that a client can reach, with the list of the
    addresses that are live: handed out by [membath_alloc] and not released
    since.  A release is only made of a live address. *)

Inductive reachable : membath_s → list ptr → Prop :=
| reach_init h bath0 size itemSize bath h' :
    0 ≤ size < SIZE_MOD →
    0 ≤ itemSize < SIZE_MOD →
    membath_init h bath0 size itemSize = (true, bath, h') →
    reachable bath []
| reach_alloc bath live p bath' :
    reachable bath live →
    membath_alloc bath = Some (p, bath') →
    p ≠ NULL →
    reachable bath' (p :: live)
| reach_release bath live1 p live2 bath' :
    reachable bath (live1 ++ p :: live2) →
    membath_release bath p = Some (true, bath') →
    reachable bath' (live1 ++ live2)
| reach_release_refused bath live1 p live2 bath' :
    reachable bath (live1 ++ p :: live2) →
    membath_release bath p = Some (false, bath') →
    reachable bath' (live1 ++ p :: live2).

(** [n] calls of [mempool_alloc] in a row, with the addresses they
    returned. *)
Fixpoint mempool_alloc_n (n : nat) (h : heap) (pool : mempool_s)
  : option (list ptr * mempool_s * heap) :=
  match n with
  | O => Some ([], pool, h)
  | S n' =>
      '(p, pool1, h1) ← mempool_alloc h pool;
      '(ps, pool2, h2) ← mempool_alloc_n n' h1 pool1;
      Some (p :: ps, pool2, h2)
  end.

(** The calls a client makes on a pool, and a run of them. *)
Inductive pool_op : Type :=
| PoolAlloc
| PoolRelease (p : ptr).

Definition pool_step (s : mempool_s * heap) (op : pool_op)
  : option (mempool_s * heap) :=
  match op with
  | PoolAlloc => '(_, pool', h') ← mempool_alloc s.2 s.1; Some (pool', h')
  | PoolRelease p => '(_, pool') ← mempool_release s.1 p; Some (pool', s.2)
  end.

Fixpoint pool_run (ops : list pool_op) (s : mempool_s * heap)
  : option (mempool_s * heap) :=
  match ops with
  | [] => Some s
  | op :: ops' => s' ← pool_step s op; pool_run ops' s'
  end.

(** Requests on a river, one after the other, with the addresses they
    returned. *)
Fixpoint memriver_alloc_all (sizes : list Z) (h : heap) (riv : memriver_s)
  : option (list ptr * memriver_s * heap) :=
  match sizes with
  | [] => Some ([], riv, h)
  | size :: sizes' =>
      '(p, riv1, h1) ← memriver_alloc h riv size;
      '(ps, riv2, h2) ← memriver_alloc_all sizes' h1 riv1;
      Some (p :: ps, riv2, h2)
  end.

(** ** Well-formed structures *)

(** A bath as [membath_init] leaves it and as the operations keep it, as
    far as the sizes and the bit-array go. *)
Definition bath_wf (bath : membath_s) : Prop :=
  0 ≤ bath_size bath ∧ bath_size bath + 31 < SIZE_MOD ∧
  0 < bath_itemSize bath ∧
  bath_size bath * bath_itemSize bath < SIZE_MOD ∧
  ∃ useMap, bath_useMap bath = Some useMap ∧
            Z.of_nat (length useMap) = bitArray_size (bath_size bath).

(** The invariant of a creek. *)
Definition creek_wf (creek : memcreek_s) : Prop :=
  0 ≤ creek_length creek ≤ creek_size creek ∧ creek_size creek < SIZE_MOD ∧
  0 < creek_data creek.

(** A creek that has no byte left. *)
Definition creek_full (creek : memcreek_s) : Prop :=
  creek_length creek = creek_size creek.

(** ** Invariants and relations of the statements *)

(** What every reachable state satisfies. *)
Definition bath_inv (bath : membath_s) (live : list ptr) : Prop :=
  0 ≤ bath_size bath < SIZE_MOD ∧
  0 ≤ bath_itemSize bath ∧
  bath_length bath = Z.of_nat (length live) ∧
  bath_length bath ≤ bath_size bath ∧
  0 < bath_data bath ∧
  0 ≤ bath_firstFree bath ∧
  (bath_size bath = 0 ∨ bath_firstFree bath < bath_size bath) ∧
  ∃ useMap, bath_useMap bath = Some useMap ∧
            Z.of_nat (length useMap) = bitArray_size (bath_size bath).

(** A bath of [k] items that was only allocated from: the slots in use
    are the first [length] ones. *)
Definition bath_filled (k : Z) (bath : membath_s) : Prop :=
  bath_size bath = k ∧
  0 ≤ bath_length bath ≤ k ∧
  0 ≤ bath_data bath ∧
  (bath_length bath < k → bath_firstFree bath = bath_length bath) ∧
  ∃ useMap, bath_useMap bath = Some useMap ∧
            ∀ j, bath_length bath ≤ j → bit_set useMap j = false.

(** A pool of baths of [k] items that was only allocated from, [total]
    times: every bath but the last is full. *)
Definition pool_filled (k : Z) (pool : mempool_s) (total : Z) : Prop :=
  pool_bathSize pool = k ∧
  1 ≤ pool_length pool < SIZE_MOD ∧
  pool_length pool = Z.of_nat (length (pool_baths pool)) ∧
  ∃ last,
    index (pool_baths pool) (pool_length pool - 1) = Some last ∧
    bath_filled k last ∧ 0 < bath_data last ∧
    total = k * (pool_length pool - 1) + bath_length last ∧
    (bath_length last = 0 → pool_length pool = 1).

(** The last bath of the pool has a bit-array of the size that
    [membath_init] gives it. *)
Definition pool_sized (k : Z) (pool : mempool_s) : Prop :=
  ∃ last useMap,
    index (pool_baths pool) (pool_length pool - 1) = Some last ∧
    bath_useMap last = Some useMap ∧
    Z.of_nat (length useMap) = bitArray_size k.

(** Is slot [j] of the bath marked as in use? *)
Definition in_use (bath : membath_s) (j : Z) : bool :=
  match bath_useMap bath with
  | Some useMap => bit_set useMap j
  | None => false
  end.

(** No slot is in use in [bath'] that was not in [bath]. *)
Definition no_new_use (bath bath' : membath_s) : Prop :=
  ∀ j, in_use bath' j = true → in_use bath j = true.

(** What a run keeps, for a bath at place [i] that is not the last one.
    When [realloc] refuses in a pool of [SIZE_MOD - 1] baths, [length]
    overflows to 0; no allocation is defined after that. *)
Definition before_last (i : Z) (bath : membath_s) (pool : mempool_s) : Prop :=
  0 ≤ pool_length pool < SIZE_MOD ∧
  (pool_length pool = 0 ∨ i < pool_length pool - 1) ∧
  ∃ bath', index (pool_baths pool) i = Some bath' ∧ no_new_use bath bath'.

(** A river that holds, at place [i], the full creek [big]. *)
Definition holds_full (i : Z) (big : memcreek_s) (riv : memriver_s) : Prop :=
  riv_length riv = Z.of_nat (length (riv_creeks riv)) ∧
  riv_length riv < SIZE_MOD ∧
  index (riv_creeks riv) i = Some big.

(** The address [p] was returned by [memcreek_alloc] on a creek of [riv]
    at another place than [i]. *)
Definition served_elsewhere (i : Z) (creeks : list memcreek_s) (size : Z)
           (p : ptr) : Prop :=
  ∃ j creek creek', j ≠ i ∧ memcreek_alloc creek size = (p, creek') ∧
                    index creeks j = Some creek'.

(** The address [p] is outside of the storage of [bath], its end
    included: what the first test of [membath_release] refuses. *)
Definition outside_bath (bath : membath_s) (p : ptr) : Prop :=
  p < bath_data bath ∨
  bath_data bath + wrap (bath_size bath * bath_itemSize bath) < p.

(** The invariant of a river whose storage was all obtained: [length]
    counts the creeks of the array, and every creek satisfies its own
    invariant. *)
Definition river_wf (riv : memriver_s) : Prop :=
  riv_length riv = Z.of_nat (length (riv_creeks riv)) ∧
  riv_length riv + 1 < SIZE_MOD ∧
  Forall creek_wf (riv_creeks riv).

(** A bath after [k] allocations that followed a [membath_reset] which
    left the slots from [K] on marked: [length] counts the [k] slots
    handed out since, and the marks of the slots from [K] on are still
    there. *)
Definition bath_stale (K k : Z) (bath : membath_s) : Prop :=
  bath_length bath = k ∧
  bath_firstFree bath = (if decide (k < K) then k else K - 1) ∧
  ∃ useMap, bath_useMap bath = Some useMap ∧
            Z.of_nat (length useMap) = bitArray_size (bath_size bath) ∧
            ∀ j, 0 ≤ j < bath_size bath →
                 bit_set useMap j = bool_decide (j < k ∨ K ≤ j).

(** ** States of the examples *)

(** A bath of four items of four bytes with its first slot in use. *)
Definition bath_4x4 : membath_s := Membath 4 4 1 1 (Some [1]) 1100.

(** A bath of two items of four bytes after two allocations. *)
Definition bath_2x4_full : membath_s := Membath 2 4 2 1 (Some [3]) 1100.

(** The same bath after the release of slot 0, an allocation and the
    release of slot 1. *)
Definition bath_2x4_stale : membath_s := Membath 2 4 1 0 (Some [1]) 1100.

(** A pool of two baths of two items, both slots of the first bath in
    use. *)
Definition pool_2_baths : mempool_s :=
  Mempool 2 2 4 [bath_2x4_full; Membath 2 4 1 1 (Some [1]) 1400].

(** The same pool after the release of slot 0 of the first bath and two
    allocations. *)
Definition pool_3_baths : mempool_s :=
  Mempool 3 2 4 [Membath 2 4 1 0 (Some [2]) 1100;
                 Membath 2 4 2 1 (Some [3]) 1400;
                 Membath 2 4 1 1 (Some [1]) 1700].

(** ** The other macros of bitarray.h *)

Definition bitArray_flip (ar : list Z) (bit : Z) : option (list Z) :=
  w ← index ar (bitArray_slot bit);
  store ar (bitArray_slot bit) (Z.lxor w (bitArray_mask bit) `mod` UINT_MOD).

(** The loop that [bitArray_union] and [bitArray_intersect] share, from
    word [i] on, with [op] for [|] or [&]; [fuel] is [bitArray_size sz - i].
    The two arrays are taken to be apart, or the same one. *)
Fixpoint combine_words (op : Z → Z → Z) (fuel : nat) (i : Z)
         (ar1 ar2 : list Z) : option (list Z) :=
  match fuel with
  | O => Some ar1
  | S fuel' =>
      w1 ← index ar1 i;
      w2 ← index ar2 i;
      ar1' ← store ar1 i (op w1 w2);
      combine_words op fuel' (i + 1) ar1' ar2
  end.

Definition bitArray_union (sz : Z) (ar1 ar2 : list Z) : option (list Z) :=
  combine_words Z.lor (Z.to_nat (bitArray_size sz)) 0 ar1 ar2.

Definition bitArray_intersect (sz : Z) (ar1 ar2 : list Z) : option (list Z) :=
  combine_words Z.land (Z.to_nat (bitArray_size sz)) 0 ar1 ar2.

(** [bitArray_zeroe] is a [memset] of [bitArray_size sz] bytes.  Which bits
    of a word its first bytes hold depends on the byte order of the
    machine. *)
Inductive byte_order : Type :=
| LittleEndian
| BigEndian.

(** The word [w] after the first [k] of its four bytes were set to 0. *)
Definition zero_bytes (order : byte_order) (w k : Z) : Z :=
  if decide (4 ≤ k) then 0
  else if decide (k ≤ 0) then w
  else match order with
       | LittleEndian => Z.shiftl (Z.shiftr w (8 * k)) (8 * k)
       | BigEndian => w `mod` 2 ^ (32 - 8 * k)
       end.

(** [memset (ar, 0, n)] on an array of words. *)
Definition memset_zero (order : byte_order) (ar : list Z) (n : Z)
  : option (list Z) :=
  if decide (n ≤ 4 * Z.of_nat (length ar)) then
    Some (imap (λ i w, zero_bytes order w (n - 4 * Z.of_nat i)) ar)
  else None.

Definition bitArray_zeroe (order : byte_order) (ar : list Z) (sz : Z)
  : option (list Z) :=
  memset_zero order ar (bitArray_size sz).

(** ** Reset and clear

    [free] has no result, and the oracle does not record which storage is
    live: the calls of [free] leave no trace in the embedding, which is
    faithful as long as [free] is handed what the allocator returned, or
    [NULL].  The functions of this section return their argument in every
    case; the embedding returns the new structure. *)

Definition membath_reset (order : byte_order) (bath : membath_s)
  : option membath_s :=
  useMap ← bath_useMap bath;
  useMap' ← bitArray_zeroe order useMap (bath_size bath);
  Some (Membath (bath_size bath) (bath_itemSize bath) 0 0 (Some useMap')
                (bath_data bath)).

(** After [membath_clear] the bath holds no storage: [data] is [NULL], and
    [useMap], which the source leaves as it is, points to storage that was
    handed back. *)
Definition membath_clear (bath : membath_s) : membath_s :=
  Membath (bath_size bath) (bath_itemSize bath) (bath_length bath)
          (bath_firstFree bath) None NULL.

(** The loops of [mempool_reset] and [mempool_clear]: [membath_clear] on
    the baths [lo + n - 1] down to [lo]. *)
Fixpoint clear_baths (n : nat) (lo : Z) (baths : list membath_s)
  : option (list membath_s) :=
  match n with
  | O => Some baths
  | S n' =>
      bath ← index baths (lo + Z.of_nat n');
      baths' ← store baths (lo + Z.of_nat n') (membath_clear bath);
      clear_baths n' lo baths'
  end.

Definition mempool_reset (order : byte_order) (h : heap) (pool : mempool_s)
  : option (bool * mempool_s * heap) :=
  baths1 ← clear_baths (Z.to_nat (pool_length pool - 1)) 1 (pool_baths pool);
  let '(bths, h1) := realloc h (wrap (1 * sizeof_membath)) in
  if decide (bths = NULL) then
    Some (false,
          Mempool 1 (pool_bathSize pool) (pool_itemSize pool) baths1,
          h1)
  else
    let baths2 := resize 1 (junk_bath h1) baths1 in
    first ← index baths2 0;
    first' ← membath_reset order first;
    baths3 ← store baths2 0 first';
    Some (true,
          Mempool 1 (pool_bathSize pool) (pool_itemSize pool) baths3,
          h1).

Definition mempool_clear (pool : mempool_s) : option mempool_s :=
  _ ← clear_baths (Z.to_nat (pool_length pool)) 0 (pool_baths pool);
  Some (Mempool 0 (pool_bathSize pool) (pool_itemSize pool) []).

Definition memcreek_clear (creek : memcreek_s) : memcreek_s :=
  Memcreek (creek_size creek) 0 NULL.

Definition memcreek_reset (creek : memcreek_s) : memcreek_s :=
  Memcreek (creek_size creek) 0 (creek_data creek).

(** The loops of [memriver_reset] and [memriver_clear]: [memcreek_clear]
    on the creeks [lo + n - 1] down to [lo]. *)
Fixpoint clear_creeks (n : nat) (lo : Z) (creeks : list memcreek_s)
  : option (list memcreek_s) :=
  match n with
  | O => Some creeks
  | S n' =>
      creek ← index creeks (lo + Z.of_nat n');
      creeks' ← store creeks (lo + Z.of_nat n') (memcreek_clear creek);
      clear_creeks n' lo creeks'
  end.

Definition memriver_clear (riv : memriver_s) : option memriver_s :=
  _ ← clear_creeks (Z.to_nat (riv_length riv)) 0 (riv_creeks riv);
  Some (Memriver 0 (riv_creekSize riv) []).

Definition memriver_reset (h : heap) (riv : memriver_s)
  : option (bool * memriver_s * heap) :=
  creeks1 ← clear_creeks (Z.to_nat (riv_length riv - 1)) 1 (riv_creeks riv);
  let '(crks, h1) := realloc h (wrap (1 * sizeof_memcreek)) in
  if decide (crks = NULL) then
    Some (false, Memriver 1 (riv_creekSize riv) creeks1, h1)
  else
    let creeks2 := resize 1 (junk_creek h1) creeks1 in
    first ← index creeks2 0;
    creeks3 ← store creeks2 0 (memcreek_reset first);
    Some (true, Memriver 1 (riv_creekSize riv) creeks3, h1).

(** ** Further runs *)

(** [n] calls of [membath_alloc] in a row, with the addresses they
    returned. *)
Fixpoint membath_alloc_n (n : nat) (bath : membath_s)
  : option (list ptr * membath_s) :=
  match n with
  | O => Some ([], bath)
  | S n' =>
      '(p, bath1) ← membath_alloc bath;
      '(ps, bath2) ← membath_alloc_n n' bath1;
      Some (p :: ps, bath2)
  end.

(** Requests on a creek, one after the other, with the addresses they
    returned. *)
Fixpoint memcreek_alloc_all (sizes : list Z) (creek : memcreek_s)
  : list ptr * memcreek_s :=
  match sizes with
  | [] => ([], creek)
  | sz :: sizes' =>
      let '(p, creek1) := memcreek_alloc creek sz in
      let '(ps, creek2) := memcreek_alloc_all sizes' creek1 in
      (p :: ps, creek2)
  end.

(** * Properties *)

(** ** Reading and writing arrays *)

Section arrays.
Context {A : Type}.
Implicit Types (l : list A) (i j : Z) (x : A).

Lemma index_Some l i x :
  index l i = Some x ↔ 0 ≤ i ∧ l !! Z.to_nat i = Some x.
Proof.
  unfold index. destruct (decide (0 ≤ i)); [tauto|].
  split; [done | tauto].
Qed.

Lemma index_lt l i x : index l i = Some x → 0 ≤ i < Z.of_nat (length l).
Proof.
  rewrite index_Some. intros [Hi Hl]. apply lookup_lt_Some in Hl. lia.
Qed.

Lemma index_is_Some l i : 0 ≤ i < Z.of_nat (length l) → is_Some (index l i).
Proof.
  intros Hi. unfold index. rewrite decide_True by lia.
  apply lookup_lt_is_Some. lia.
Qed.

Lemma store_Some l i x l' :
  store l i x = Some l' ↔
  0 ≤ i < Z.of_nat (length l) ∧ l' = <[Z.to_nat i := x]> l.
Proof.
  unfold store. destruct (decide (0 ≤ i < Z.of_nat (length l))).
  - split; [intros [= <-]; done | intros [_ ->]; done].
  - split; [done | tauto].
Qed.

Lemma store_is_Some l i x :
  0 ≤ i < Z.of_nat (length l) → is_Some (store l i x).
Proof. intros Hi. unfold store. rewrite decide_True by lia. eauto. Qed.

Lemma store_length l i x l' : store l i x = Some l' → length l' = length l.
Proof. rewrite store_Some. intros [_ ->]. apply length_insert. Qed.

Lemma index_store_eq l i x l' : store l i x = Some l' → index l' i = Some x.
Proof.
  rewrite store_Some. intros [Hi ->]. apply index_Some. split; [lia|].
  apply list_lookup_insert_eq. lia.
Qed.

Lemma index_store_ne l i j x l' :
  store l i x = Some l' → i ≠ j → index l' j = index l j.
Proof.
  rewrite store_Some. intros [Hi ->] Hne. unfold index.
  case_decide; [|done]. apply list_lookup_insert_ne. lia.
Qed.

Lemma store_same l i x : index l i = Some x → store l i x = Some l.
Proof.
  intros Hx. pose proof (index_lt _ _ _ Hx) as Hi.
  apply index_Some in Hx as [_ Hx]. apply store_Some. split; [done|].
  symmetry. by apply list_insert_id.
Qed.
End arrays.

(** ** The bit-array macros *)

Lemma slot_mod_eq (i j : Z) :
  bitArray_slot i = bitArray_slot j →
  i `mod` BITARRAY_INTBITS = j `mod` BITARRAY_INTBITS → i = j.
Proof.
  unfold bitArray_slot, BITARRAY_INTBITS. intros Hs Hm.
  rewrite (Z.div_mod i 32), (Z.div_mod j 32) by lia. congruence.
Qed.

Lemma mod_intbits_range (i : Z) : 0 ≤ i `mod` BITARRAY_INTBITS < 32.
Proof. unfold BITARRAY_INTBITS. apply Z.mod_pos_bound. lia. Qed.

Lemma testbit_mask (i n : Z) :
  0 ≤ n →
  Z.testbit (bitArray_mask i) n = bool_decide (n = i `mod` BITARRAY_INTBITS).
Proof.
  intros Hn. unfold bitArray_mask. pose proof (mod_intbits_range i).
  rewrite Z.shiftl_1_l, Z.pow2_bits_eqb by lia.
  case_bool_decide; [apply Z.eqb_eq | apply Z.eqb_neq]; lia.
Qed.

Lemma land_mask (w i : Z) :
  Z.land w (bitArray_mask i)
  = if Z.testbit w (i `mod` BITARRAY_INTBITS) then bitArray_mask i else 0.
Proof.
  apply Z.bits_inj'. intros n Hn. rewrite Z.land_spec, testbit_mask by done.
  case_bool_decide as Heq.
  - subst n. destruct (Z.testbit w _) eqn:Hw.
    + rewrite testbit_mask by done. by rewrite bool_decide_eq_true_2.
    + by rewrite Z.bits_0.
  - rewrite andb_false_r. destruct (Z.testbit w _).
    + rewrite testbit_mask by done. by rewrite bool_decide_eq_false_2.
    + by rewrite Z.bits_0.
Qed.

Lemma mask_nonzero (i : Z) : bitArray_mask i ≠ 0.
Proof.
  unfold bitArray_mask. pose proof (mod_intbits_range i).
  rewrite Z.shiftl_1_l. apply Z.pow_nonzero; lia.
Qed.

Lemma bitArray_test_spec (ar : list Z) (i t : Z) :
  bitArray_test ar i = Some t → (t = 0 ↔ bit_set ar i = false).
Proof.
  unfold bitArray_test, bit_set. destruct (index ar _) as [w|]; [|done].
  simpl. intros [= <-]. rewrite land_mask.
  pose proof (mask_nonzero i). destruct (Z.testbit w _); naive_solver.
Qed.

Lemma bitArray_test_is_Some (ar : list Z) (i : Z) :
  0 ≤ bitArray_slot i < Z.of_nat (length ar) → is_Some (bitArray_test ar i).
Proof.
  intros Hi. unfold bitArray_test.
  destruct (index_is_Some ar _ Hi) as [w ->]. simpl. eauto.
Qed.

Lemma bitArray_set_length (ar ar' : list Z) (i : Z) :
  bitArray_set ar i = Some ar' → length ar' = length ar.
Proof.
  unfold bitArray_set. destruct (index ar _); [|done]. simpl.
  apply store_length.
Qed.

Lemma bitArray_clear_length (ar ar' : list Z) (i : Z) :
  bitArray_clear ar i = Some ar' → length ar' = length ar.
Proof.
  unfold bitArray_clear. destruct (index ar _); [|done]. simpl.
  apply store_length.
Qed.

Lemma bitArray_set_is_Some (ar : list Z) (i : Z) :
  0 ≤ bitArray_slot i < Z.of_nat (length ar) → is_Some (bitArray_set ar i).
Proof.
  intros Hi. unfold bitArray_set.
  destruct (index_is_Some ar _ Hi) as [w ->]. simpl. by apply store_is_Some.
Qed.

Lemma bitArray_clear_is_Some (ar : list Z) (i : Z) :
  0 ≤ bitArray_slot i < Z.of_nat (length ar) → is_Some (bitArray_clear ar i).
Proof.
  intros Hi. unfold bitArray_clear.
  destruct (index_is_Some ar _ Hi) as [w ->]. simpl. by apply store_is_Some.
Qed.

Lemma bit_set_set (ar ar' : list Z) (i j : Z) :
  bitArray_set ar i = Some ar' →
  bit_set ar' j = bool_decide (i = j) || bit_set ar j.
Proof.
  unfold bitArray_set, bit_set. destruct (index ar (bitArray_slot i)) as [w|] eqn:Hw; [|done].
  simpl. intros Hst. pose proof (mod_intbits_range j) as Hj.
  destruct (decide (bitArray_slot i = bitArray_slot j)) as [Hs|Hs].
  - rewrite <- Hs, (index_store_eq _ _ _ _ Hst), Hw.
    unfold UINT_MOD. rewrite Z.mod_pow2_bits_low, Z.lor_spec, testbit_mask by lia.
    rewrite orb_comm. f_equal. apply bool_decide_ext. split.
    + intros Hm. by apply slot_mod_eq.
    + by intros ->.
  - rewrite (index_store_ne _ _ _ _ _ Hst Hs).
    rewrite bool_decide_eq_false_2; [done|]. by intros ->.
Qed.

Lemma bit_set_clear (ar ar' : list Z) (i j : Z) :
  bitArray_clear ar i = Some ar' →
  bit_set ar' j = negb (bool_decide (i = j)) && bit_set ar j.
Proof.
  unfold bitArray_clear, bit_set. destruct (index ar (bitArray_slot i)) as [w|] eqn:Hw; [|done].
  simpl. intros Hst. pose proof (mod_intbits_range j) as Hj.
  destruct (decide (bitArray_slot i = bitArray_slot j)) as [Hs|Hs].
  - rewrite <- Hs, (index_store_eq _ _ _ _ Hst), Hw.
    unfold UINT_MOD.
    rewrite Z.land_spec, Z.mod_pow2_bits_low, Z.lnot_spec, testbit_mask by lia.
    rewrite andb_comm. f_equal. f_equal. apply bool_decide_ext. split.
    + intros Hm. by apply slot_mod_eq.
    + by intros ->.
  - rewrite (index_store_ne _ _ _ _ _ Hst Hs).
    rewrite bool_decide_eq_false_2; [done|]. by intros ->.
Qed.

(** ** Creeks *)

(** C8. On a creek that satisfies its invariant, [memcreek_alloc] returns
    [NULL] exactly when [size - length < sz], and then changes nothing;
    otherwise it returns the address of byte [length] of the buffer and
    advances [length] by [sz], which keeps [0 ≤ length ≤ size]. *)
Theorem memcreek_alloc_spec (creek : memcreek_s) (sz : Z) :
  creek_wf creek → 0 ≤ sz < SIZE_MOD →
  ∃ ret creek',
    memcreek_alloc creek sz = (ret, creek') ∧
    (ret = NULL ↔ creek_size creek - creek_length creek < sz) ∧
    (ret = NULL → creek' = creek) ∧
    (ret ≠ NULL →
     ret = creek_data creek + creek_length creek ∧
     creek' = Memcreek (creek_size creek) (creek_length creek + sz)
                       (creek_data creek)) ∧
    creek_wf creek'.
Proof.
  intros (Hlen & Hsize & Hdata) Hsz. unfold memcreek_alloc, wrap, NULL.
  rewrite (Z.mod_small (creek_size creek - creek_length creek)) by lia.
  destruct (decide (creek_size creek - creek_length creek < sz)) as [Hlt|Hge].
  - eexists _, _. split; [done|]. repeat split; try done; lia.
  - rewrite Z.mod_small by lia. eexists _, _. split; [done|].
    split; [split; lia|]. split; [lia|]. split; [done|].
    repeat split; simpl; lia.
Qed.

Lemma memcreek_alloc_spec_witness :
  ∃ ret creek',
    memcreek_alloc (Memcreek 16 4 1100) 8 = (ret, creek') ∧
    (ret = NULL ↔ 16 - 4 < 8) ∧
    (ret = NULL → creek' = Memcreek 16 4 1100) ∧
    (ret ≠ NULL → ret = 1100 + 4 ∧ creek' = Memcreek 16 (4 + 8) 1100) ∧
    creek_wf creek'.
Proof.
  apply (memcreek_alloc_spec (Memcreek 16 4 1100) 8).
  - unfold creek_wf, SIZE_MOD. simpl. lia.
  - unfold SIZE_MOD. lia.
Defined.

(** ** Pools: release of the null pointer *)

(** C10. [mempool_release] of the null pointer returns [NULL] and leaves
    the pool as it is.  No bath is looked at: the result is the same for
    every pool, also for one whose array is shorter than its [length],
    where a look at the baths would be undefined. *)
Theorem mempool_release_null (pool : mempool_s) :
  mempool_release pool NULL = Some (false, pool).
Proof. reflexivity. Qed.

(** ** Baths: release *)

(** A refused release changes nothing. *)
Lemma membath_release_refused (bath bath' : membath_s) (p : ptr) :
  membath_release bath p = Some (false, bath') → bath' = bath.
Proof.
  unfold membath_release. repeat case_decide; try congruence;
    (destruct (bath_useMap bath) as [useMap|]; [|done]); simpl;
    (destruct (bitArray_clear useMap _); [|done]); simpl; congruence.
Qed.

Lemma bitArray_size_small (size : Z) :
  0 ≤ size → size + 31 < SIZE_MOD → bitArray_size size = (size + 31) `div` 32.
Proof.
  intros Hsize Hmax. unfold bitArray_size, wrap, BITARRAY_INTBITS.
  rewrite Z.mod_small by lia. f_equal. lia.
Qed.

(** The bits of the slots of a bath lie in its bit-array, unless the
    computation of the size of the bit-array overflowed. *)
Lemma slot_in_range (size item : Z) (useMap : list Z) :
  0 ≤ size → size + 31 < SIZE_MOD →
  Z.of_nat (length useMap) = bitArray_size size →
  0 ≤ item < size →
  0 ≤ bitArray_slot item < Z.of_nat (length useMap).
Proof.
  intros Hsize Hmax Hlen Hitem.
  rewrite Hlen, bitArray_size_small by lia.
  unfold bitArray_slot, BITARRAY_INTBITS.
  split; [apply Z.div_pos; lia|].
  apply Z.div_lt_upper_bound; [lia|].
  pose proof (Z.mod_pos_bound (size + 31) 32).
  pose proof (Z.div_mod (size + 31) 32). lia.
Qed.

Lemma bath_wf_slot (bath : membath_s) (useMap : list Z) (item : Z) :
  bath_wf bath → bath_useMap bath = Some useMap →
  0 ≤ item < bath_size bath →
  0 ≤ bitArray_slot item < Z.of_nat (length useMap).
Proof.
  intros (Hsize & Hmax & _ & _ & um & Hum & Hlen) Heq Hitem.
  rewrite Hum in Heq. injection Heq as ->. by eapply slot_in_range.
Qed.

(** C3, as the code has it.  [membath_release] refuses an address below
    the buffer or above [data + size * itemSize], and a refused release
    changes no field of the bath.  An address inside the buffer is accepted
    whether it is the address of a slot or not: the release goes to the
    slot that contains it, slot [(p - data) / itemSize]. *)
Theorem membath_release_range (bath : membath_s) (p : ptr) :
  bath_wf bath →
  let limit := bath_data bath + bath_size bath * bath_itemSize bath in
  (p < bath_data bath ∨ limit < p →
   membath_release bath p = Some (false, bath)) ∧
  (∀ bath', membath_release bath p = Some (false, bath') → bath' = bath) ∧
  (bath_data bath ≤ p < limit →
   let item := (p - bath_data bath) `div` bath_itemSize bath in
   ∃ useMap useMap',
     bath_useMap bath = Some useMap ∧
     bitArray_clear useMap item = Some useMap' ∧
     membath_release bath p
     = Some (true,
             Membath (bath_size bath) (bath_itemSize bath)
                     (wrap (bath_length bath - 1))
                     (Z.min item (bath_firstFree bath))
                     (Some useMap') (bath_data bath))).
Proof.
  intros Hwf limit. pose proof Hwf as (Hsize & Hmax & Hitem & Hbytes & um & Hum & Hlen).
  assert (wrap (bath_size bath * bath_itemSize bath)
          = bath_size bath * bath_itemSize bath) as Hwrap.
  { unfold wrap. apply Z.mod_small. lia. }
  split; [|split].
  - intros Hout. unfold membath_release. rewrite Hwrap.
    by rewrite decide_True.
  - intros bath'. apply membath_release_refused.
  - intros Hin item. subst limit.
    assert (wrap (p - bath_data bath) = p - bath_data bath) as Hoff.
    { unfold wrap. apply Z.mod_small. lia. }
    assert (0 ≤ item < bath_size bath) as Hrange.
    { subst item. split; [apply Z.div_pos; lia|].
      apply Z.div_lt_upper_bound; lia. }
    destruct (bitArray_clear_is_Some um item) as [um' Hclear].
    { by eapply bath_wf_slot. }
    exists um, um'. split; [done|]. split; [done|].
    unfold membath_release. rewrite Hwrap, Hoff.
    rewrite decide_False by lia. rewrite decide_False by lia.
    rewrite decide_False by lia. rewrite Hum. simpl.
    fold item. rewrite Hclear. simpl. do 3 f_equal.
    case_decide; lia.
Qed.

Lemma bath_4x4_wf : bath_wf bath_4x4.
Proof.
  unfold bath_wf, bath_4x4, SIZE_MOD. simpl.
  repeat split; try lia. by exists [1].
Qed.

Lemma membath_release_range_witness :
  (1100 < 1100 ∨ 1100 + 4 * 4 < 1100 →
   membath_release bath_4x4 1100 = Some (false, bath_4x4)) ∧
  (∀ bath', membath_release bath_4x4 1100 = Some (false, bath') →
            bath' = bath_4x4) ∧
  (1100 ≤ 1100 < 1100 + 4 * 4 →
   ∃ useMap useMap',
     Some [1] = Some useMap ∧
     bitArray_clear useMap ((1100 - 1100) `div` 4) = Some useMap' ∧
     membath_release bath_4x4 1100
     = Some (true,
             Membath 4 4 (wrap (1 - 1)) (Z.min ((1100 - 1100) `div` 4) 1)
                     (Some useMap') 1100)).
Proof. exact (membath_release_range bath_4x4 1100 bath_4x4_wf). Defined.

Lemma bath_4x4_reachable : reachable bath_4x4 [1100].
Proof.
  apply (reach_alloc (Membath 4 4 0 0 (Some [0]) 1100) [] 1100); [|done..].
  by apply (reach_init (zeroed [1000; 1100]) (Membath 0 0 0 0 None NULL) 4 4
                      _ (zeroed [])).
Qed.

(** C3, as it is stated, fails: the address one byte into slot 0 is inside
    the buffer and is not the address of a slot, and its release is
    accepted, frees slot 0 and counts one item less.  So it is not the case
    that the release is refused exactly when the address is outside of the
    buffer or not aligned on a slot. *)
Lemma membath_release_unaligned :
  reachable bath_4x4 [1100] ∧
  membath_release bath_4x4 1101
  = Some (true, Membath 4 4 0 0 (Some [0]) 1100) ∧
  ¬ ((∃ bath', membath_release bath_4x4 1101 = Some (false, bath')) ↔
     (¬ (1100 ≤ 1101 < 1100 + 4 * 4) ∨ (1101 - 1100) `mod` 4 ≠ 0)).
Proof.
  split; [apply bath_4x4_reachable|]. split; [reflexivity|].
  intros [_ Hrefuse]. destruct Hrefuse as [bath' Hrel]; [by right|].
  discriminate Hrel.
Qed.

(** [membath_release] also accepts the address of the end of the buffer,
    where no slot is: on a bath of four items the release goes to bit 4,
    clears nothing and counts one item less. *)
Remark membath_release_at_end :
  membath_release bath_4x4 (1100 + 4 * 4)
  = Some (true, Membath 4 4 0 1 (Some [1]) 1100).
Proof. reflexivity. Qed.

(** ** Baths: a slot handed out twice

    A bath of two items of four bytes at address 1100.  The client
    allocates twice, releases slot 0, allocates, releases slot 1: slot 0 is
    in use, slot 1 is free, and [firstFree] is still 0. *)

Lemma bath_2x4_full_reachable : reachable bath_2x4_full [1104; 1100].
Proof.
  apply (reach_alloc (Membath 2 4 1 1 (Some [1]) 1100) [1100] 1104); [|done..].
  apply (reach_alloc (Membath 2 4 0 0 (Some [0]) 1100) [] 1100); [|done..].
  by apply (reach_init (zeroed [1000; 1100]) (Membath 0 0 0 0 None NULL) 2 4
                      _ (zeroed [])).
Qed.

Lemma bath_2x4_stale_reachable : reachable bath_2x4_stale [1100].
Proof.
  apply (reach_release (Membath 2 4 2 0 (Some [3]) 1100) [1100] 1104 []);
    [|done].
  apply (reach_alloc (Membath 2 4 1 0 (Some [2]) 1100) [1104] 1100); [|done..].
  apply (reach_release bath_2x4_full [1104] 1100 []); [|done].
  apply bath_2x4_full_reachable.
Qed.

(** C1, on the code.  In a state that a client reaches with releases of
    live addresses only, with the address of slot 0 live, [membath_alloc]
    returns the address of slot 0 once more: the same four bytes are live
    twice.  The bath then counts two items in use and has one bit set. *)
Theorem membath_alloc_live_slot :
  let bath' := Membath 2 4 2 1 (Some [1]) 1100 in
  reachable bath_2x4_stale [1100] ∧
  membath_alloc bath_2x4_stale = Some (1100, bath') ∧
  reachable bath' [1100; 1100] ∧
  ¬ NoDup [1100; 1100] ∧
  bath_length bath' ≠ bitArray_popcount [1].
Proof.
  split; [apply bath_2x4_stale_reachable|]. split; [done|]. split.
  - apply (reach_alloc bath_2x4_stale [1100] 1100); [|done..].
    apply bath_2x4_stale_reachable.
  - split; [|done]. inversion 1 as [|? ? Hfresh _].
    apply Hfresh. constructor.
Qed.

(** C2, on the code.  When [membath_alloc] takes the last free slot, its
    loop finds no clear bit and [firstFree] stays at the slot just taken,
    below [size].  After further calls [firstFree] is the index of a slot
    in use, while a slot of higher index is free. *)
Theorem membath_firstFree_stale :
  reachable bath_2x4_full [1104; 1100] ∧
  bath_length bath_2x4_full = bath_size bath_2x4_full ∧
  bath_firstFree bath_2x4_full = 1 ∧
  ¬ (bath_size bath_2x4_full ≤ bath_firstFree bath_2x4_full) ∧
  reachable bath_2x4_stale [1100] ∧
  bath_length bath_2x4_stale = 1 ∧
  bath_firstFree bath_2x4_stale = 0 ∧
  in_use bath_2x4_stale 0 = true ∧ in_use bath_2x4_stale 1 = false.
Proof.
  split; [apply bath_2x4_full_reachable|]. do 2 (split; [done|]).
  split; [simpl; lia|]. split; [apply bath_2x4_stale_reachable|]. done.
Qed.

(** ** Pools and rivers: a refusal of the C library *)

(** C4, on the code.  A pool of baths of two items, after two allocations;
    the next allocation needs a new bath.
    - When [realloc] refuses, [mempool_alloc] returns [NULL] and [length]
      is 2, for an array of one bath.
    - When [realloc] answers and the [malloc] of [membath_init] refuses,
      [mempool_alloc] returns [NULL], [length] is 2 and the array holds a
      second bath that counts one item in use.
    - When [realloc] refuses in [addCreek], [memriver_alloc] returns [NULL]
      and the [length] of the river is 2, for an array of one creek. *)
Theorem alloc_refused_mutates :
  let pool := Mempool 1 2 4 [bath_2x4_full] in
  let riv := Memriver 1 16 [Memcreek 16 0 1100] in
  mempool_init (zeroed [1000; 1050; 1100]) 2 4
  = (true, Mempool 1 2 4 [Membath 2 4 0 0 (Some [0]) 1100], zeroed []) ∧
  mempool_alloc_n 2 (zeroed [])
                  (Mempool 1 2 4 [Membath 2 4 0 0 (Some [0]) 1100])
  = Some ([1100; 1104], pool, zeroed []) ∧
  mempool_alloc (zeroed [0]) pool
  = Some (NULL, Mempool 2 2 4 [bath_2x4_full], zeroed []) ∧
  mempool_alloc (zeroed [1200; 1300; 0]) pool
  = Some (NULL,
          Mempool 2 2 4 [bath_2x4_full; Membath 2 4 1 1 (Some [1]) NULL],
          zeroed []) ∧
  memriver_init (zeroed [1000; 1100]) 16 = (true, riv, zeroed []) ∧
  memriver_alloc (zeroed [0]) riv 20
  = Some (NULL, Memriver 2 16 [Memcreek 16 0 1100], zeroed []).
Proof. repeat split. Qed.

(** ** Pools: the number of baths *)

(** C5, as it is stated, fails for [n = 0]: a pool has one bath from
    [mempool_init] on, and [ceil (0 / 2)] is 0. *)
Lemma mempool_init_one_bath :
  ∃ pool h,
    mempool_init (zeroed [1000; 1050; 1100]) 2 4 = (true, pool, h) ∧
    mempool_alloc_n 0 h pool = Some ([], pool, h) ∧
    pool_length pool = 1 ∧
    pool_length pool ≠ (Z.of_nat 0 + 2 - 1) `div` 2.
Proof. eexists _, _. repeat split. done. Qed.

(** ** Rivers: a request of no bytes *)

(** C7, as it is stated, fails for a later request of size 0: the creek
    made for a request of 20 bytes is the last one of the river and is
    full, and [memcreek_alloc] accepts a request of no bytes on a full
    creek.  The request is served from it, with the address of its end,
    and from no other creek. *)
Lemma memriver_alloc_zero_from_oversized :
  let riv := Memriver 1 16 [Memcreek 16 0 1100] in
  let big := Memcreek 20 20 1300 in
  let riv' := Memriver 2 16 [Memcreek 16 0 1100; big] in
  memriver_init (zeroed [1000; 1100]) 16 = (true, riv, zeroed []) ∧
  memriver_alloc (zeroed [1200; 1300]) riv 20 = Some (1300, riv', zeroed []) ∧
  0 ≤ 16 ∧
  memriver_alloc (zeroed []) riv' 0 = Some (1320, riv', zeroed []) ∧
  1320 ≠ NULL ∧
  memcreek_alloc big 0 = (1320, big) ∧
  ¬ served_elsewhere 1 (riv_creeks riv') 0 1320.
Proof.
  do 6 (split; [done|]).
  intros (j & creek & creek' & Hj & Halloc & Hplace).
  apply index_Some in Hplace as [Hj0 Hplace].
  destruct (Z.to_nat j) as [|[|n]] eqn:Hnat; [|lia|done].
  injection Hplace as <-. unfold memcreek_alloc in Halloc.
  case_decide; [discriminate Halloc|].
  injection Halloc as Hp Hsize Hlen Hdata.
  rewrite Z.add_0_r in Hlen. unfold wrap in Hlen.
  pose proof (Z.mod_pos_bound (creek_length creek) SIZE_MOD ltac:(done)).
  assert (creek_length creek = 220) as Hl by lia.
  rewrite Hl in Hlen. discriminate Hlen.
Qed.

(** ** Baths: allocation in the reachable states *)

Lemma wrap_small (z : Z) : 0 ≤ z < SIZE_MOD → wrap z = z.
Proof. apply Z.mod_small. Qed.

Lemma wrap_range (z : Z) : 0 ≤ wrap z < SIZE_MOD.
Proof. apply Z.mod_pos_bound. done. Qed.

Lemma bitArray_size_nonneg (size : Z) : 0 ≤ bitArray_size size.
Proof.
  unfold bitArray_size, BITARRAY_INTBITS.
  pose proof (wrap_range (size + 32 - 1)). apply Z.div_pos; lia.
Qed.

Lemma request_positive (h h' : heap) (p : ptr) :
  request h = (p, h') → p ≠ NULL → 0 < p.
Proof.
  unfold request. destruct (answers h) as [|a rest]; intros [= <- <-];
    unfold NULL; lia.
Qed.

Lemma membath_init_inv (h h' : heap) (bath0 bath : membath_s) (size itemSize : Z) :
  0 ≤ size < SIZE_MOD → 0 ≤ itemSize < SIZE_MOD →
  membath_init h bath0 size itemSize = (true, bath, h') →
  bath_inv bath [].
Proof.
  intros Hsize Hitem. unfold membath_init, calloc, malloc.
  destruct (request h) as [um h1] eqn:Hum. case_decide; [done|].
  destruct (request h1) as [d h2] eqn:Hd. intros [= Hok <- <-].
  apply bool_decide_eq_true in Hok.
  unfold bath_inv. simpl. repeat split; try lia.
  - by eapply request_positive.
  - eexists. split; [done|].
    rewrite length_replicate, Z2Nat.id; [done|]. apply bitArray_size_nonneg.
Qed.

(** The loop finds a slot at or after its start, below [size]. *)
Lemma scan_free_found (fuel : nat) (useMap : list Z) (i j : Z) :
  scan_free fuel useMap i = Some (Some j) → i ≤ j < i + Z.of_nat fuel.
Proof.
  revert i. induction fuel as [|fuel IH]; intros i; simpl; [done|].
  destruct (bitArray_test useMap i) as [t|]; [|done]. simpl.
  case_decide.
  - intros [= <-]. lia.
  - intros Hrec. apply IH in Hrec. lia.
Qed.

(** The loop stays inside the bit-array when the slots it looks at do. *)
Lemma scan_free_is_Some (fuel : nat) (useMap : list Z) (i : Z) :
  (∀ j, i ≤ j < i + Z.of_nat fuel →
        0 ≤ bitArray_slot j < Z.of_nat (length useMap)) →
  is_Some (scan_free fuel useMap i).
Proof.
  revert i. induction fuel as [|fuel IH]; intros i Hin; simpl; [eauto|].
  destruct (bitArray_test_is_Some useMap i) as [t ->]; [apply Hin; lia|].
  simpl. case_decide; [eauto|]. apply IH. intros j Hj. apply Hin. lia.
Qed.

Lemma membath_alloc_inv (bath bath' : membath_s) (live : list ptr) (p : ptr) :
  bath_inv bath live → membath_alloc bath = Some (p, bath') → p ≠ NULL →
  bath_inv bath' (p :: live).
Proof.
  intros (Hsize & Hitem & Hlen & Hle & Hdata & Hff0 & Hff & um & Hum & Hbits).
  unfold membath_alloc. case_decide as Hfull; [by intros [= <- <-]|].
  rewrite Hum. simpl.
  destruct (bitArray_set um _) as [um'|] eqn:Hset; [|done]. simpl.
  destruct (scan_free _ um' _) as [found|] eqn:Hscan; [|done]. simpl.
  intros [= <- <-] _. unfold bath_inv. simpl.
  rewrite wrap_small by lia.
  assert (0 ≤ default (bath_firstFree bath) found < bath_size bath).
  { destruct found as [j|]; simpl; [|lia].
    apply scan_free_found in Hscan. lia. }
  repeat split; try lia.
  exists um'. split; [done|]. by rewrite (bitArray_set_length _ _ _ Hset).
Qed.

Lemma membath_release_inv (bath bath' : membath_s) (live1 live2 : list ptr) (p : ptr) :
  bath_inv bath (live1 ++ p :: live2) →
  membath_release bath p = Some (true, bath') →
  bath_inv bath' (live1 ++ live2).
Proof.
  intros (Hsize & Hitem & Hlen & Hle & Hdata & Hff0 & Hff & um & Hum & Hbits).
  rewrite length_app in Hlen. simpl in Hlen.
  unfold membath_release. do 3 (case_decide; [done|]).
  rewrite Hum. simpl.
  destruct (bitArray_clear um _) as [um'|] eqn:Hclear; [|done]. simpl.
  intros [= <-]. unfold bath_inv. simpl.
  rewrite wrap_small, length_app by lia.
  pose proof (wrap_range (p - bath_data bath)).
  assert (0 ≤ wrap (p - bath_data bath) `div` bath_itemSize bath)
    by (apply Z.div_pos; lia).
  repeat split; try lia.
  - case_decide; lia.
  - case_decide; lia.
  - exists um'. split; [done|]. by rewrite (bitArray_clear_length _ _ _ Hclear).
Qed.

Lemma reachable_inv (bath : membath_s) (live : list ptr) :
  reachable bath live → bath_inv bath live.
Proof.
  induction 1 as [h bath0 size itemSize bath h' Hsize Hitem Hinit
                 |bath live p bath' _ IH Halloc Hp
                 |bath live1 p live2 bath' _ IH Hrel
                 |bath live1 p live2 bath' _ IH Hrel].
  - exact (membath_init_inv _ _ _ _ _ _ Hsize Hitem Hinit).
  - by eapply membath_alloc_inv.
  - by eapply membath_release_inv.
  - by rewrite (membath_release_refused _ _ _ Hrel).
Qed.

(** [membath_alloc] is defined when the bit-array has its size and
    [firstFree] is a slot of the bath. *)
Lemma membath_alloc_defined (bath : membath_s) (useMap : list Z) :
  0 ≤ bath_size bath → bath_size bath + 31 < SIZE_MOD →
  bath_useMap bath = Some useMap →
  Z.of_nat (length useMap) = bitArray_size (bath_size bath) →
  bath_size bath ≤ bath_length bath ∨ 0 ≤ bath_firstFree bath < bath_size bath →
  is_Some (membath_alloc bath).
Proof.
  intros Hsize Hmax Hum Hbits Hff. unfold membath_alloc.
  case_decide as Hfull; [eauto|]. destruct Hff as [?|Hff]; [lia|].
  rewrite Hum. simpl.
  destruct (bitArray_set_is_Some useMap (bath_firstFree bath)) as [um' Hset].
  { by eapply slot_in_range. }
  rewrite Hset. simpl.
  destruct (scan_free_is_Some
              (Z.to_nat (bath_size bath - bath_firstFree bath)) um'
              (bath_firstFree bath)) as [found ->]; [|simpl; eauto].
  intros j Hj. rewrite (bitArray_set_length _ _ _ Hset).
  eapply slot_in_range; [| |done|]; lia.
Qed.

(** C6. In every state of a bath that is reached from [membath_init] by
    allocations and releases of live addresses, [membath_alloc] returns,
    and it returns [NULL] exactly when [length] equals [size].  (It returns
    whenever the size of the bit-array was computed without overflow.) *)
Theorem membath_alloc_null_iff_full (bath : membath_s) (live : list ptr) :
  reachable bath live →
  (bath_size bath + 31 < SIZE_MOD → is_Some (membath_alloc bath)) ∧
  (∀ p bath', membath_alloc bath = Some (p, bath') →
              (p = NULL ↔ bath_length bath = bath_size bath)).
Proof.
  intros Hreach.
  destruct (reachable_inv _ _ Hreach)
    as (Hsize & Hitem & Hlen & Hle & Hdata & Hff0 & Hff & um & Hum & Hbits).
  split.
  - intros Hmax. apply (membath_alloc_defined bath um); [lia|done..|lia].
  - intros p bath'. unfold membath_alloc, NULL.
    case_decide as Hfull; [intros [= <- <-]; split; [lia|done]|].
    rewrite Hum. simpl.
    destruct (bitArray_set um _) as [um'|]; [|done]. simpl.
    destruct (scan_free _ um' _) as [found|]; [|done]. simpl.
    intros [= <- <-].
    pose proof (wrap_range (bath_firstFree bath * bath_itemSize bath)).
    split; lia.
Qed.

Lemma membath_alloc_null_iff_full_witness :
  (bath_size bath_2x4_full + 31 < SIZE_MOD →
   is_Some (membath_alloc bath_2x4_full)) ∧
  (∀ p bath', membath_alloc bath_2x4_full = Some (p, bath') →
              (p = NULL ↔ bath_length bath_2x4_full = bath_size bath_2x4_full)).
Proof.
  exact (membath_alloc_null_iff_full bath_2x4_full [1104; 1100]
                                     bath_2x4_full_reachable).
Defined.

(** ** Pools: the number of baths after [n] allocations *)

Lemma bit_set_replicate (n : nat) (j : Z) : bit_set (replicate n 0) j = false.
Proof.
  unfold bit_set, index. case_decide; [|done].
  destruct (replicate n 0 !! _) as [w|] eqn:Hw; [|done].
  apply lookup_replicate in Hw as [-> _]. apply Z.bits_0.
Qed.

(** A full bath refuses. *)
Lemma membath_alloc_full (bath bath' : membath_s) (p : ptr) :
  bath_size bath ≤ bath_length bath →
  membath_alloc bath = Some (p, bath') → p = NULL ∧ bath' = bath.
Proof.
  intros Hfull. unfold membath_alloc. rewrite decide_True by done.
  by intros [= <- <-].
Qed.

(** An allocation from a bath that was only allocated from takes the
    slot after the ones in use. *)
Lemma membath_alloc_filled (k : Z) (bath bath' : membath_s) (p : ptr) :
  k < SIZE_MOD → bath_filled k bath → bath_length bath < k →
  membath_alloc bath = Some (p, bath') →
  bath_filled k bath' ∧ bath_length bath' = bath_length bath + 1 ∧
  bath_data bath' = bath_data bath ∧
  p = bath_data bath + wrap (bath_length bath * bath_itemSize bath).
Proof.
  intros Hk (Hsize & Hlen & Hdata & Hff & um & Hum & Hclear) Hroom.
  specialize (Hff Hroom). unfold membath_alloc.
  rewrite decide_False by lia. rewrite Hum, Hff, Hsize. simpl.
  destruct (bitArray_set um _) as [um'|] eqn:Hset; [|done]. simpl.
  set (c := bath_length bath) in *.
  assert (∃ fuel, Z.to_nat (k - c) = S fuel ∧ Z.of_nat fuel = k - c - 1)
    as (fuel & -> & Hfuel).
  { exists (Z.to_nat (k - c - 1)). split; lia. }
  simpl. destruct (bitArray_test um' c) as [t|] eqn:Htest; [|done]. simpl.
  apply bitArray_test_spec in Htest.
  rewrite (bit_set_set _ _ _ c Hset), bool_decide_eq_true_2 in Htest by done.
  rewrite decide_False by (intros Ht; apply Htest in Ht; done).
  assert (∀ j, c + 1 ≤ j → bit_set um' j = false) as Hclear'.
  { intros j Hj. rewrite (bit_set_set _ _ _ j Hset).
    rewrite bool_decide_eq_false_2 by lia. apply Hclear. lia. }
  assert (∀ found, scan_free fuel um' (c + 1) = Some found →
                   c + 1 < k → found = Some (c + 1)) as Hnext.
  { intros found. destruct fuel as [|fuel']; [lia|]. simpl.
    destruct (bitArray_test um' (c + 1)) as [t'|] eqn:Ht'; [|done]. simpl.
    apply bitArray_test_spec in Ht'.
    rewrite decide_True by (apply Ht', Hclear'; lia). congruence. }
  destruct (scan_free fuel um' (c + 1)) as [found|] eqn:Hscan; [|done]. simpl.
  intros [= <- <-]. unfold bath_filled. simpl.
  rewrite wrap_small by lia. repeat split; try lia.
  - intros Hlt. by rewrite (Hnext found).
  - by exists um'.
Qed.

(** A bath as [membath_init] writes it, if an allocation from it is
    defined. *)
Lemma membath_init_filled (h h' : heap) (bath0 bath bath' : membath_s)
      (k itemSize : Z) (ok : bool) (p : ptr) :
  0 < k →
  membath_init h bath0 k itemSize = (ok, bath, h') →
  membath_alloc bath = Some (p, bath') →
  bath_filled k bath ∧ bath_length bath = 0.
Proof.
  intros Hk. unfold membath_init, calloc, malloc.
  destruct (request h) as [um h1]. case_decide.
  - intros [= <- <- <-]. unfold membath_alloc. simpl.
    by rewrite decide_False by lia.
  - destruct (request h1) as [d h2] eqn:Hd. intros [= <- <- <-] _.
    unfold bath_filled. simpl. repeat split; try lia.
    + unfold request in Hd.
      destruct (answers h1); injection Hd as <- <-; unfold NULL; lia.
    + eexists. split; [done|]. intros j _. apply bit_set_replicate.
Qed.

Lemma membath_init_true (h h' : heap) (bath0 bath : membath_s) (k itemSize : Z) :
  0 < k →
  membath_init h bath0 k itemSize = (true, bath, h') →
  0 < bath_data bath ∧ bath_filled k bath ∧ bath_length bath = 0.
Proof.
  intros Hk. unfold membath_init, calloc, malloc.
  destruct (request h) as [um h1]. case_decide; [done|].
  destruct (request h1) as [d h2] eqn:Hd. intros [= Hok <- <-].
  apply bool_decide_eq_true in Hok.
  pose proof (request_positive _ _ _ Hd Hok).
  unfold bath_filled. simpl. repeat split; try lia.
  eexists. split; [done|]. intros j _. apply bit_set_replicate.
Qed.

Lemma mempool_init_filled (h h' : heap) (k itemSize : Z) (pool : mempool_s) :
  0 < k < SIZE_MOD →
  mempool_init h k itemSize = (true, pool, h') → pool_filled k pool 0.
Proof.
  intros Hk. unfold mempool_init, malloc.
  destruct (request h) as [bths h1]. case_decide; [done|].
  destruct (membath_init h1 (junk_bath h1) k itemSize)
    as [[ok bath] h2] eqn:Hinit.
  intros [= -> <- <-].
  apply membath_init_true in Hinit as (Hdata & Hfilled & Hlen); [|lia].
  unfold pool_filled, SIZE_MOD. simpl. repeat split; try lia.
  exists bath. do 3 (split; [done|]). split; [lia|done].
Qed.

Lemma pool_filled_length (k : Z) (pool : mempool_s) (total : Z) :
  0 < k → pool_filled k pool total →
  pool_length pool = Z.max 1 ((total + k - 1) `div` k).
Proof.
  intros Hk (_ & Hlen & _ & last & _ & (_ & Hc & _) & _ & -> & Hone).
  destruct (decide (bath_length last = 0)) as [Hzero|Hpos].
  - rewrite Hzero, (Hone Hzero). rewrite Z.div_small by lia. lia.
  - replace (k * (pool_length pool - 1) + bath_length last + k - 1)
      with ((bath_length last - 1) + pool_length pool * k) by lia.
    rewrite Z.div_add, (Z.div_small (bath_length last - 1)) by lia. lia.
Qed.

(** One more allocation from a pool that was only allocated from. *)
Lemma mempool_alloc_filled (h h' : heap) (k : Z) (pool pool' : mempool_s)
      (total : Z) (p : ptr) :
  0 < k < SIZE_MOD → pool_filled k pool total →
  mempool_alloc h pool = Some (p, pool', h') → p ≠ NULL →
  pool_filled k pool' (total + 1).
Proof.
  intros Hk (Hbs & Hlen & Hlist & last & Hlast & Hfilled & Hdata & -> & Hone).
  unfold mempool_alloc. rewrite Hlast. simpl.
  destruct (membath_alloc last) as [[ret bath']|] eqn:Halloc; [|done]. simpl.
  destruct (store (pool_baths pool) _ bath') as [baths1|] eqn:Hst1; [|done].
  simpl. pose proof Hfilled as (Hsize & Hc & _).
  case_decide as Hret.
  - (* the last bath had a slot left *)
    intros [= <- <- <-] _.
    assert (bath_length last < k) as Hroom.
    { destruct (decide (bath_length last < k)); [done|].
      apply membath_alloc_full in Halloc as [? _]; [done|lia]. }
    destruct (membath_alloc_filled k _ _ _ (proj2 Hk) Hfilled Hroom Halloc)
      as (Hfilled' & Hlen' & Hdata' & _).
    unfold pool_filled. simpl. rewrite (store_length _ _ _ _ Hst1).
    do 3 (split; [done|]). exists bath'.
    split; [by eapply index_store_eq|]. split; [done|].
    split; [congruence|]. split; lia.
  - (* the last bath was full: one more bath *)
    assert (bath_length last = k ∧ bath' = last) as [Hfull ->].
    { destruct (decide (bath_length last < k)) as [Hroom|Hfull].
      - destruct (membath_alloc_filled k _ _ _ (proj2 Hk) Hfilled Hroom Halloc)
          as (_ & _ & _ & Hp).
        pose proof (wrap_range (bath_length last * bath_itemSize last)).
        unfold NULL in Hret. lia.
      - apply membath_alloc_full in Halloc as [_ ->]; [|lia]. split; [lia|done]. }
    rewrite (store_same _ _ _ Hlast) in Hst1. injection Hst1 as <-.
    unfold realloc. destruct (request h) as [bths h1].
    case_decide; [by intros [= <- _ _]|].
    set (len := wrap (pool_length pool + 1)).
    destruct (index (resize _ _ _) (len - 1)) as [fresh0|] eqn:Hfresh; [|done].
    simpl. pose proof (index_lt _ _ _ Hfresh) as Hlen1.
    rewrite length_resize in Hlen1.
    assert (pool_length pool + 1 < SIZE_MOD) as Hmax.
    { destruct (decide (pool_length pool + 1 < SIZE_MOD)); [done|].
      subst len. unfold wrap in Hlen1.
      replace (pool_length pool + 1) with SIZE_MOD in Hlen1 by lia.
      rewrite Z.mod_same in Hlen1 by done. lia. }
    assert (len = pool_length pool + 1) as Hlen2.
    { subst len. apply wrap_small. lia. }
    rewrite Hlen2 in *.
    assert (resize (Z.to_nat (pool_length pool + 1)) (junk_bath h1)
                   (pool_baths pool)
            = pool_baths pool ++ [junk_bath h1]) as Hresize.
    { rewrite resize_ge by lia.
      by replace (Z.to_nat (pool_length pool + 1) - length (pool_baths pool))%nat
        with 1%nat by lia. }
    rewrite Hresize in *.
    assert (fresh0 = junk_bath h1) as ->.
    { apply index_Some in Hfresh as [_ Hfresh].
      rewrite lookup_app_r in Hfresh by lia.
      replace (Z.to_nat (pool_length pool + 1 - 1) - length (pool_baths pool))%nat
        with 0%nat in Hfresh by lia.
      by injection Hfresh as <-. }
    destruct (membath_init h1 (junk_bath h1) _ _) as [[ok fresh1] h2] eqn:Hinit.
    destruct (membath_alloc fresh1) as [[ret2 fresh2]|] eqn:Halloc2; [|done].
    simpl.
    destruct (store _ _ fresh2) as [baths3|] eqn:Hst3; [|done]. simpl.
    intros [= <- <- <-] Hp. rewrite Hbs in Hinit.
    destruct (membath_init_filled h1 h2 (junk_bath h1) fresh1 fresh2 k _ ok ret2
                                 (proj1 Hk) Hinit Halloc2)
      as [Hfilled1 Hlen1'].
    assert (bath_length fresh1 < k) as Hroom1 by lia.
    destruct (membath_alloc_filled k _ _ _ (proj2 Hk) Hfilled1 Hroom1 Halloc2)
      as (Hfilled2 & Hlen2' & Hdata2 & Hp2).
    unfold pool_filled. simpl.
    rewrite (store_length _ _ _ _ Hst3), length_app. simpl.
    split; [done|]. split; [lia|]. split; [lia|]. exists fresh2.
    split; [by eapply index_store_eq|]. split; [done|].
    destruct Hfilled1 as (_ & _ & Hd1 & _).
    rewrite Hlen1', Z.mul_0_l, (wrap_small 0) in Hp2 by (unfold SIZE_MOD; lia).
    unfold NULL in Hp. split; [lia|]. split; lia.
Qed.

Lemma mempool_alloc_n_filled (n : nat) (h h' : heap) (k : Z)
      (pool pool' : mempool_s) (total : Z) (ps : list ptr) :
  0 < k < SIZE_MOD → pool_filled k pool total →
  mempool_alloc_n n h pool = Some (ps, pool', h') →
  Forall (λ p, p ≠ NULL) ps →
  pool_filled k pool' (total + Z.of_nat n).
Proof.
  intros Hk. revert h pool total ps.
  induction n as [|n IH]; intros h pool total ps Hfilled; simpl.
  - intros [= <- <- <-] _. by rewrite Z.add_0_r.
  - destruct (mempool_alloc h pool) as [[[p pool1] h1]|] eqn:Halloc; [|done].
    simpl.
    destruct (mempool_alloc_n n h1 pool1) as [[[ps' pool2] h2]|] eqn:Hrest;
      [|done].
    simpl. intros [= <- <- <-] Hps. inversion_clear Hps as [|? ? Hp Hps'].
    replace (total + Z.of_nat (S n)) with (total + 1 + Z.of_nat n) by lia.
    eapply IH; [|done..]. by eapply mempool_alloc_filled.
Qed.

(** C5, as the code has it.  A pool has one bath from [mempool_init] on.
    After [n] allocations that all returned an address, with no release in
    between, a pool of baths of [k] items has [ceil (n / k)] baths if
    [n ≥ 1], and one bath if [n = 0]. *)
Theorem mempool_alloc_n_length (h h0 h' : heap) (k itemSize : Z) (n : nat)
        (pool0 pool : mempool_s) (ps : list ptr) :
  0 < k < SIZE_MOD →
  mempool_init h k itemSize = (true, pool0, h0) →
  mempool_alloc_n n h0 pool0 = Some (ps, pool, h') →
  Forall (λ p, p ≠ NULL) ps →
  pool_length pool = Z.max 1 ((Z.of_nat n + k - 1) `div` k).
Proof.
  intros Hk Hinit Hrun Hps.
  apply (pool_filled_length k pool (0 + Z.of_nat n)); [lia|].
  eapply mempool_alloc_n_filled; [done| |done..].
  by eapply mempool_init_filled.
Qed.

Lemma mempool_alloc_n_length_witness :
  pool_length
    (Mempool 2 2 4 [bath_2x4_full; Membath 2 4 1 1 (Some [1]) 1400])
  = Z.max 1 ((Z.of_nat 3 + 2 - 1) `div` 2).
Proof.
  apply (mempool_alloc_n_length (zeroed [1000; 1050; 1100; 1200; 1300; 1400])
                                (zeroed [1200; 1300; 1400]) (zeroed []) 2 4 3
                                (Mempool 1 2 4 [Membath 2 4 0 0 (Some [0]) 1100])
                                _ [1100; 1104; 1400]).
  - unfold SIZE_MOD. lia.
  - reflexivity.
  - reflexivity.
  - repeat constructor; done.
Defined.

Lemma membath_alloc_useMap_length (bath bath' : membath_s) (p : ptr)
      (useMap : list Z) :
  membath_alloc bath = Some (p, bath') → bath_useMap bath = Some useMap →
  ∃ useMap', bath_useMap bath' = Some useMap' ∧ length useMap' = length useMap.
Proof.
  unfold membath_alloc. intros Halloc Hum. rewrite Hum in Halloc.
  case_decide; [injection Halloc as <- <-; eauto|]. simpl in Halloc.
  destruct (bitArray_set useMap _) as [um'|] eqn:Hset; [|done].
  simpl in Halloc. destruct (scan_free _ _ _); [|done].
  injection Halloc as <- <-. simpl. exists um'. split; [done|].
  by eapply bitArray_set_length.
Qed.

Lemma bitArray_size_pos (k : Z) : 0 < k → k + 31 < SIZE_MOD → 0 < bitArray_size k.
Proof.
  intros Hk Hmax. rewrite bitArray_size_small by lia.
  apply Z.div_str_pos. lia.
Qed.

(** With three answers of the C library at hand, an allocation from a pool
    that was only allocated from returns an address. *)
Lemma mempool_alloc_succeeds (h : heap) (k : Z) (pool : mempool_s) (total : Z)
      (a1 a2 a3 : N) (rest : list N) :
  0 < k → k + 31 < SIZE_MOD →
  pool_filled k pool total → pool_sized k pool →
  pool_length pool + 1 < SIZE_MOD →
  answers h = a1 :: a2 :: a3 :: rest → a1 ≠ 0%N → a2 ≠ 0%N → a3 ≠ 0%N →
  ∃ p pool' h',
    mempool_alloc h pool = Some (p, pool', h') ∧ p ≠ NULL ∧
    pool_sized k pool' ∧ (h' = h ∨ answers h' = rest).
Proof.
  intros Hk Hmax Hfilled (last & um & Hlast & Hum & Hbits) Hroom
         Hanswers Ha1 Ha2 Ha3.
  pose proof Hfilled
    as (Hbs & Hlen & Hlist & last0 & Hlast0 & Hbath & Hdata & _ & _).
  rewrite Hlast in Hlast0. injection Hlast0 as <-.
  pose proof Hbath as (Hsize & Hc & _ & Hff & _).
  destruct (membath_alloc_defined last um) as [[ret last'] Halloc];
    [lia|lia|done|by rewrite Hsize| |].
  { destruct (decide (bath_length last < k)) as [Hlt|Hge]; [|lia].
    right. rewrite (Hff Hlt). lia. }
  destruct (membath_alloc_useMap_length _ _ _ _ Halloc Hum)
    as (um' & Hum' & Hlen').
  destruct (store_is_Some (pool_baths pool) (pool_length pool - 1) last')
    as [baths1 Hst1]; [by eapply index_lt|].
  unfold mempool_alloc. rewrite Hlast. simpl. rewrite Halloc. simpl.
  rewrite Hst1. simpl.
  destruct (decide (bath_length last < k)) as [Hlt|Hge].
  - (* the last bath has a slot left *)
    destruct (membath_alloc_filled k _ _ _ ltac:(lia) Hbath Hlt Halloc)
      as (_ & _ & _ & Hp).
    pose proof (wrap_range (bath_length last * bath_itemSize last)).
    assert (ret ≠ NULL) as Hret by (unfold NULL; lia).
    rewrite decide_True by done. eexists _, _, _. split; [done|].
    split; [done|]. split; [|by left]. simpl.
    exists last', um'. split; [by eapply index_store_eq|].
    split; [done|]. by rewrite Hlen'.
  - (* the last bath is full: one more bath *)
    apply membath_alloc_full in Halloc as [-> ->]; [|lia].
    rewrite decide_False by (by intros ?).
    rewrite (store_same _ _ _ Hlast) in Hst1. injection Hst1 as <-.
    unfold realloc, request. rewrite Hanswers.
    rewrite decide_False by (unfold NULL; lia).
    rewrite wrap_small by lia. simpl junk_bath.
    set (h1 := Heap (a2 :: a3 :: rest) (junk_bath h) (junk_creek h)).
    rewrite resize_ge by lia.
    replace (Z.to_nat (pool_length pool + 1) - length (pool_baths pool))%nat
      with 1%nat by lia.
    simpl replicate.
    assert (Z.to_nat (pool_length pool + 1 - 1)
            = (length (pool_baths pool) + 0)%nat) as Hplace by lia.
    unfold index at 1. rewrite decide_True by lia.
    rewrite Hplace, lookup_app_r by lia.
    replace (length (pool_baths pool) + 0 - length (pool_baths pool))%nat
      with 0%nat by lia.
    simpl.
    rewrite Hbs.
    destruct (membath_init h1 (junk_bath h) k (pool_itemSize pool))
      as [[ok fresh1] h3] eqn:Hinit.
    assert (ok = true ∧ answers h3 = rest ∧
            bath_size fresh1 = k ∧ bath_firstFree fresh1 = 0 ∧
            bath_useMap fresh1
            = Some (replicate (Z.to_nat (bitArray_size k)) 0))
      as (-> & Hrest & Hsize1 & Hff1 & Hum1).
    { revert Hinit. unfold membath_init, calloc, malloc, request. simpl.
      rewrite decide_False by (unfold NULL; lia).
      intros [= <- <- <-]. split; [|done].
      apply bool_decide_eq_true. unfold NULL. lia. }
    destruct (membath_init_true _ _ _ _ _ _ Hk Hinit)
      as (Hdata1 & Hfilled1 & Hlen1).
    pose proof (bitArray_size_pos k Hk Hmax) as Hwords.
    destruct (membath_alloc_defined
                fresh1 (replicate (Z.to_nat (bitArray_size k)) 0))
      as [[ret2 fresh2] Halloc2];
      rewrite ?Hsize1, ?Hff1, ?length_replicate; [lia|lia|done|lia|lia|].
    rewrite Halloc2. simpl.
    destruct (membath_alloc_useMap_length _ _ _ _ Halloc2 Hum1)
      as (um2 & Hum2 & Hlen2).
    destruct (store_is_Some (pool_baths pool ++ [junk_bath h])
                            (pool_length pool + 1 - 1) fresh2)
      as [baths3 Hst3]; [rewrite length_app; simpl; lia|].
    rewrite Hst3. simpl. eexists _, _, _. split; [done|].
    destruct (membath_alloc_filled k _ _ _ ltac:(lia) Hfilled1 ltac:(lia)
                                   Halloc2) as (_ & _ & _ & Hp2).
    pose proof (wrap_range (bath_length fresh1 * bath_itemSize fresh1)).
    split; [unfold NULL; lia|]. split; [|by right]. simpl.
    exists fresh2, um2. split; [by eapply index_store_eq|].
    split; [done|]. rewrite Hlen2, length_replicate. lia.
Qed.

(** With an allocator that does not refuse, [n] allocations in a row
    return [n] addresses. *)
Lemma mempool_alloc_n_succeeds (n : nat) (h : heap) (k : Z) (pool : mempool_s)
      (total : Z) :
  0 < k → k + 31 < SIZE_MOD →
  pool_filled k pool total → pool_sized k pool →
  pool_length pool + Z.of_nat n < SIZE_MOD →
  Forall (λ a, a ≠ 0%N) (answers h) → (3 * n ≤ length (answers h))%nat →
  ∃ ps pool' h',
    mempool_alloc_n n h pool = Some (ps, pool', h') ∧
    Forall (λ p, p ≠ NULL) ps.
Proof.
  intros Hk Hmax. revert h pool total.
  induction n as [|n IH]; intros h pool total Hfilled Hsized Hroom Hall Hlen.
  { simpl. eexists _, _, _. split; [done|]. constructor. }
  destruct (answers h) as [|a1 [|a2 [|a3 rest]]] eqn:Hanswers;
    simpl in Hlen; try lia.
  inversion_clear Hall as [|? ? Ha1 Hall1].
  inversion_clear Hall1 as [|? ? Ha2 Hall2].
  inversion_clear Hall2 as [|? ? Ha3 Hall3].
  destruct (mempool_alloc_succeeds h k pool total a1 a2 a3 rest)
    as (p & pool1 & h1 & Halloc & Hp & Hsized1 & Hh1); [done|done|done|done|lia|done|done|done|done|].
  assert (0 < k < SIZE_MOD) as Hk2 by lia.
  pose proof (mempool_alloc_filled _ _ _ _ _ _ _ Hk2 Hfilled Halloc Hp)
    as Hfilled1.
  assert (pool_length pool1 ≤ pool_length pool + 1) as Hgrow.
  { destruct Hfilled as (_ & Hl & _ & last & _ & (_ & Hc & _) & _ & -> & _).
    destruct Hfilled1
      as (_ & Hl1 & _ & last1 & _ & (_ & Hc1 & _) & _ & Heq & Hone).
    destruct (decide (bath_length last1 = 0)) as [Hzero|Hpos];
      [rewrite (Hone Hzero); lia|].
    assert (k * (pool_length pool1 - pool_length pool) ≤ k * 1) as Hmul by lia.
    apply Z.mul_le_mono_pos_l in Hmul; lia. }
  destruct (IH h1 pool1 (total + 1)) as (ps & pool' & h' & Hrun & Hps);
    [done|done|lia| | |].
  { destruct Hh1 as [->| ->]; [rewrite Hanswers|]; by repeat constructor. }
  { destruct Hh1 as [->| ->]; [rewrite Hanswers|]; simpl; lia. }
  simpl. rewrite Halloc. simpl. rewrite Hrun. simpl.
  eexists _, _, _. split; [done|]. by constructor.
Qed.

(** With an allocator that does not refuse, [mempool_init] and [n]
    allocations succeed, and the pool then has [ceil (n / k)] baths, or
    one if [n = 0]. *)
Lemma mempool_alloc_n_returns (n : nat) (h : heap) (k itemSize : Z) :
  0 < k → k + 31 < SIZE_MOD → Z.of_nat n + 1 < SIZE_MOD →
  Forall (λ a, a ≠ 0%N) (answers h) → (3 * n + 3 ≤ length (answers h))%nat →
  ∃ pool0 h0 ps pool h',
    mempool_init h k itemSize = (true, pool0, h0) ∧
    mempool_alloc_n n h0 pool0 = Some (ps, pool, h') ∧
    Forall (λ p, p ≠ NULL) ps ∧
    pool_length pool = Z.max 1 ((Z.of_nat n + k - 1) `div` k).
Proof.
  intros Hk Hmax Hn Hall Hlen.
  destruct (answers h) as [|a1 [|a2 [|a3 rest]]] eqn:Hanswers;
    simpl in Hlen; try lia.
  inversion_clear Hall as [|? ? Ha1 Hall1].
  inversion_clear Hall1 as [|? ? Ha2 Hall2].
  inversion_clear Hall2 as [|? ? Ha3 Hall3].
  set (h0 := Heap rest (junk_bath h) (junk_creek h)).
  set (bath := Membath k itemSize 0 0
                       (Some (replicate (Z.to_nat (bitArray_size k)) 0))
                       (Z.of_N a3)).
  assert (mempool_init h k itemSize = (true, Mempool 1 k itemSize [bath], h0))
    as Hinit.
  { unfold mempool_init, membath_init, malloc, calloc, request.
    rewrite Hanswers. simpl.
    rewrite !decide_False by (unfold NULL; lia).
    by rewrite bool_decide_eq_true_2 by (unfold NULL; lia). }
  assert (0 < k < SIZE_MOD) as Hk2 by lia.
  pose proof (mempool_init_filled _ _ _ _ _ Hk2 Hinit) as Hfilled.
  pose proof (bitArray_size_pos k Hk Hmax) as Hwords.
  destruct (mempool_alloc_n_succeeds n h0 k (Mempool 1 k itemSize [bath]) 0)
    as (ps & pool & h' & Hrun & Hps); [done|done|done| |simpl; lia|done|simpl; lia|].
  { exists bath, (replicate (Z.to_nat (bitArray_size k)) 0).
    split; [done|]. split; [done|]. rewrite length_replicate. lia. }
  eexists _, _, ps, pool, h'. split; [done|]. split; [done|]. split; [done|].
  apply (pool_filled_length k pool (0 + Z.of_nat n)); [done|].
  by eapply mempool_alloc_n_filled.
Qed.

(** ** Pools: allocation looks at the last bath only *)

Lemma no_new_use_refl (bath : membath_s) : no_new_use bath bath.
Proof. by intros j. Qed.

Lemma no_new_use_trans (bath1 bath2 bath3 : membath_s) :
  no_new_use bath1 bath2 → no_new_use bath2 bath3 → no_new_use bath1 bath3.
Proof. intros H12 H23 j Hj. by apply H12, H23. Qed.

Lemma membath_release_no_new_use (bath bath' : membath_s) (p : ptr) (r : bool) :
  membath_release bath p = Some (r, bath') → no_new_use bath bath'.
Proof.
  unfold membath_release.
  do 2 (case_decide; [intros [= <- <-]; apply no_new_use_refl|]).
  case_decide; [done|].
  destruct (bath_useMap bath) as [um|] eqn:Hum; [|done]. simpl.
  destruct (bitArray_clear um _) as [um'|] eqn:Hclear; [|done]. simpl.
  intros [= <- <-] j. unfold in_use. rewrite Hum. simpl.
  rewrite (bit_set_clear _ _ _ j Hclear). by intros [_ ?]%andb_prop.
Qed.

(** The loop of [mempool_release] keeps the array as long as it is and
    marks no slot as in use. *)
Lemma release_scan_no_new_use (fuel : nat) (i0 : Z) (baths baths' : list membath_s)
      (p : ptr) (r : bool) :
  release_scan fuel i0 baths p = Some (r, baths') →
  ∀ i bath, index baths i = Some bath →
            ∃ bath', index baths' i = Some bath' ∧ no_new_use bath bath'.
Proof.
  revert i0 baths. induction fuel as [|fuel IH]; intros i0 baths; simpl.
  { intros [= <- <-] i bath Hi. exists bath. split; [done|].
    apply no_new_use_refl. }
  destruct (index baths i0) as [b0|] eqn:Hb0; [|done]. simpl.
  destruct (membath_release b0 p) as [[r0 b0']|] eqn:Hrel; [|done]. simpl.
  destruct (store baths i0 b0') as [baths1|] eqn:Hst; [|done]. simpl.
  intros Hrest i bath Hi.
  assert (∃ bath1, index baths1 i = Some bath1 ∧ no_new_use bath bath1)
    as (bath1 & Hi1 & Hmono1).
  { destruct (decide (i0 = i)) as [<-|Hne].
    - exists b0'. split; [by eapply index_store_eq|].
      rewrite Hb0 in Hi. injection Hi as <-.
      by eapply membath_release_no_new_use.
    - exists bath. rewrite (index_store_ne _ _ _ _ _ Hst Hne).
      split; [done|]. apply no_new_use_refl. }
  destruct r0.
  - injection Hrest as <- <-. by exists bath1.
  - destruct (IH _ _ Hrest i bath1 Hi1) as (bath' & Hi' & Hmono').
    exists bath'. split; [done|]. by eapply no_new_use_trans.
Qed.

Lemma mempool_release_no_new_use (pool pool' : mempool_s) (p : ptr) (r : bool) :
  mempool_release pool p = Some (r, pool') →
  pool_length pool' = pool_length pool ∧
  ∀ i bath, index (pool_baths pool) i = Some bath →
            ∃ bath', index (pool_baths pool') i = Some bath' ∧
                     no_new_use bath bath'.
Proof.
  unfold mempool_release. case_decide.
  { intros [= <- <-]. split; [done|]. intros i bath Hi. exists bath.
    split; [done|]. apply no_new_use_refl. }
  destruct (release_scan _ _ _ _) as [[r0 baths']|] eqn:Hscan; [|done].
  simpl. intros [= <- <-]. split; [done|]. simpl.
  by eapply release_scan_no_new_use.
Qed.

(** [mempool_alloc] leaves every bath before the last as it is, and an
    address that it returns was returned by [membath_alloc] on the last
    bath or on the one that it added. *)
Lemma mempool_alloc_last (h h' : heap) (pool pool' : mempool_s) (p : ptr) :
  pool_length pool < SIZE_MOD →
  mempool_alloc h pool = Some (p, pool', h') →
  (∀ i, 0 ≤ i < pool_length pool - 1 →
        index (pool_baths pool') i = index (pool_baths pool) i) ∧
  0 ≤ pool_length pool' < SIZE_MOD ∧
  (pool_length pool' = 0 ∨ pool_length pool ≤ pool_length pool') ∧
  (p ≠ NULL →
   ∃ j bath bath', pool_length pool - 1 ≤ j ∧
                   membath_alloc bath = Some (p, bath') ∧
                   index (pool_baths pool') j = Some bath').
Proof.
  intros Hmax. unfold mempool_alloc.
  destruct (index (pool_baths pool) _) as [last|] eqn:Hlast; [|done]. simpl.
  pose proof (index_lt _ _ _ Hlast) as Hlen.
  destruct (membath_alloc last) as [[ret last']|] eqn:Halloc; [|done]. simpl.
  destruct (store (pool_baths pool) _ last') as [baths1|] eqn:Hst1; [|done].
  simpl.
  assert (∀ i, 0 ≤ i < pool_length pool - 1 →
               index baths1 i = index (pool_baths pool) i) as Hsame1.
  { intros i Hi. apply (index_store_ne _ _ _ _ _ Hst1). lia. }
  pose proof (wrap_range (pool_length pool + 1)) as Hwrap.
  assert (wrap (pool_length pool + 1) = 0
          ∨ wrap (pool_length pool + 1) = pool_length pool + 1) as Hlen'.
  { destruct (decide (pool_length pool + 1 < SIZE_MOD)).
    - right. apply wrap_small. lia.
    - left. replace (pool_length pool + 1) with SIZE_MOD by lia.
      apply Z.mod_same. done. }
  case_decide as Hret.
  { intros [= <- <- <-]. simpl. split; [done|]. split; [lia|].
    split; [lia|]. intros _. exists (pool_length pool - 1), last, last'.
    split; [lia|]. split; [done|]. by eapply index_store_eq. }
  unfold realloc. destruct (request h) as [bths h1]. case_decide.
  { intros [= <- <- <-]. simpl. split; [done|]. split; [lia|].
    split; [lia|]. done. }
  set (len := wrap (pool_length pool + 1)) in *.
  destruct (index (resize _ _ _) (len - 1)) as [fresh0|] eqn:Hfresh; [|done].
  simpl. pose proof (index_lt _ _ _ Hfresh) as Hlen1.
  destruct Hlen' as [Hzero| ->]; [lia|].
  destruct (membath_init h1 fresh0 _ _) as [[ok fresh1] h2].
  destruct (membath_alloc fresh1) as [[ret2 fresh2]|] eqn:Halloc2; [|done].
  simpl.
  destruct (store _ _ fresh2) as [baths3|] eqn:Hst3; [|done]. simpl.
  intros [= <- <- <-]. simpl. split; [|split; [lia|split; [lia|]]].
  - intros i Hi. rewrite (index_store_ne _ _ _ _ _ Hst3) by lia.
    rewrite <- Hsame1 by done. unfold index. rewrite !decide_True by lia.
    apply lookup_resize; [lia|].
    rewrite (store_length _ _ _ _ Hst1). lia.
  - intros _. exists (pool_length pool + 1 - 1), fresh1, fresh2.
    split; [lia|]. split; [done|]. by eapply index_store_eq.
Qed.

Lemma pool_step_before_last (op : pool_op) (s s' : mempool_s * heap)
      (i : Z) (bath : membath_s) :
  0 ≤ i → before_last i bath s.1 → pool_step s op = Some s' →
  before_last i bath s'.1.
Proof.
  intros Hi (Hmax & Hlast & bath1 & Hb1 & Hm1). destruct op as [|p]; simpl.
  - destruct (mempool_alloc s.2 s.1) as [[[p pool1] h1]|] eqn:Halloc; [|done].
    intros [= <-]. simpl.
    destruct Hlast as [Hzero|Hlast].
    { unfold mempool_alloc in Halloc. by rewrite Hzero in Halloc. }
    destruct (mempool_alloc_last _ _ _ _ _ (proj2 Hmax) Halloc)
      as (Hsame & Hmax1 & Hlen1 & _).
    split; [done|]. split; [lia|]. exists bath1.
    rewrite Hsame by lia. done.
  - destruct (mempool_release s.1 p) as [[r pool1]|] eqn:Hrel; [|done].
    intros [= <-]. simpl.
    destruct (mempool_release_no_new_use _ _ _ _ Hrel) as [Hlen Hmono].
    unfold before_last. rewrite Hlen. do 2 (split; [done|]).
    destruct (Hmono _ _ Hb1) as (bath' & Hb' & Hm'). exists bath'.
    split; [done|]. by eapply no_new_use_trans.
Qed.

Lemma pool_run_before_last (ops : list pool_op) (s s' : mempool_s * heap)
      (i : Z) (bath : membath_s) :
  0 ≤ i → before_last i bath s.1 → pool_run ops s = Some s' →
  before_last i bath s'.1.
Proof.
  intros Hi. revert s. induction ops as [|op ops IH]; intros s Hinv; simpl.
  - by intros [= <-].
  - destruct (pool_step s op) as [s1|] eqn:Hstep; [|done]. simpl.
    apply IH. by eapply pool_step_before_last.
Qed.

(** C9.  Take a bath of a pool that is not the last one, and any run of
    allocations and releases on the pool.  After the run the bath has no
    slot in use that was not in use before: what was released in it is not
    handed out again.  And one more [mempool_alloc] leaves the bath as it
    is and returns, if it returns an address, what [membath_alloc]
    returned on a later bath: the last one or the one it added. *)
Theorem mempool_alloc_only_last (ops : list pool_op) (s s' : mempool_s * heap)
        (i : Z) (bath : membath_s) :
  pool_length s.1 < SIZE_MOD →
  0 ≤ i < pool_length s.1 - 1 →
  index (pool_baths s.1) i = Some bath →
  pool_run ops s = Some s' →
  (∃ bath', index (pool_baths s'.1) i = Some bath' ∧ no_new_use bath bath') ∧
  (∀ p pool'' h'',
     mempool_alloc s'.2 s'.1 = Some (p, pool'', h'') →
     index (pool_baths pool'') i = index (pool_baths s'.1) i ∧
     (p ≠ NULL →
      ∃ j last last', i < j ∧ membath_alloc last = Some (p, last') ∧
                      index (pool_baths pool'') j = Some last')).
Proof.
  intros Hmax Hi Hbath Hrun.
  assert (before_last i bath s.1) as Hinv.
  { split; [lia|]. split; [lia|]. exists bath. split; [done|].
    apply no_new_use_refl. }
  apply (pool_run_before_last ops s s') in Hinv as (Hmax' & Hi' & Hbath');
    [|lia|done].
  split; [done|]. intros p pool'' h'' Halloc.
  destruct Hi' as [Hzero|Hi'].
  { unfold mempool_alloc in Halloc. by rewrite Hzero in Halloc. }
  destruct (mempool_alloc_last _ _ _ _ _ (proj2 Hmax') Halloc)
    as (Hsame & _ & _ & Hfrom).
  split; [apply Hsame; lia|]. intros Hp.
  destruct (Hfrom Hp) as (j & last & last' & Hj & Hlast & Hlast').
  exists j, last, last'. split; [lia|]. done.
Qed.

Lemma mempool_alloc_only_last_witness :
  (∃ bath', index (pool_baths pool_3_baths) 0 = Some bath' ∧
            no_new_use bath_2x4_full bath') ∧
  (∀ p pool'' h'',
     mempool_alloc (zeroed []) pool_3_baths = Some (p, pool'', h'') →
     index (pool_baths pool'') 0 = index (pool_baths pool_3_baths) 0 ∧
     (p ≠ NULL →
      ∃ j last last', 0 < j ∧ membath_alloc last = Some (p, last') ∧
                      index (pool_baths pool'') j = Some last')).
Proof.
  apply (mempool_alloc_only_last
           [PoolRelease 1100; PoolAlloc; PoolAlloc]
           (pool_2_baths, zeroed [1500; 1600; 1700]) (pool_3_baths, zeroed [])
           0 bath_2x4_full).
  - unfold SIZE_MOD. simpl. lia.
  - simpl. lia.
  - reflexivity.
  - reflexivity.
Defined.

(** ** Rivers: a request larger than the creeks *)

Lemma memcreek_alloc_full (big : memcreek_s) (size : Z) :
  creek_full big → 0 < size → memcreek_alloc big size = (NULL, big).
Proof.
  intros Hfull Hsize. unfold memcreek_alloc. rewrite Hfull, Z.sub_diag.
  by rewrite decide_True.
Qed.

Lemma alloc_at_Some (creeks creeks' : list memcreek_s) (j size : Z) (ret : ptr) :
  alloc_at creeks j size = Some (ret, creeks') →
  ∃ creek creek', index creeks j = Some creek ∧
                  memcreek_alloc creek size = (ret, creek') ∧
                  store creeks j creek' = Some creeks'.
Proof.
  unfold alloc_at. destruct (index creeks j) as [creek|] eqn:Hcreek; [|done].
  simpl. destruct (memcreek_alloc creek size) as [ret0 creek'] eqn:Halloc.
  destruct (store creeks j creek') as [creeks1|] eqn:Hst; [|done]. simpl.
  intros [= <- <-]. by exists creek, creek'.
Qed.

(** The loop of [memriver_alloc] passes over a full creek. *)
Lemma scan_creeks_full (n : nat) (creeks creeks' : list memcreek_s)
      (i size : Z) (big : memcreek_s) (ret : ptr) :
  creek_full big → 0 < size → index creeks i = Some big →
  scan_creeks n creeks size = Some (ret, creeks') →
  length creeks' = length creeks ∧ index creeks' i = Some big ∧
  (ret ≠ NULL → served_elsewhere i creeks' size ret).
Proof.
  intros Hfull Hsize. revert creeks.
  induction n as [|n IH]; intros creeks Hbig; simpl.
  { by intros [= <- <-]. }
  destruct (alloc_at creeks (Z.of_nat n) size) as [[ret1 creeks1]|] eqn:Hat;
    [|done].
  simpl. apply alloc_at_Some in Hat as (creek & creek' & Hcreek & Halloc & Hst).
  assert (index creeks1 i = Some big ∧ (ret1 ≠ NULL → Z.of_nat n ≠ i))
    as [Hbig1 Hne].
  { destruct (decide (Z.of_nat n = i)) as [Heq|Hne].
    - rewrite Heq, Hbig in Hcreek. injection Hcreek as <-.
      rewrite memcreek_alloc_full in Halloc by done.
      injection Halloc as <- <-. rewrite Heq in Hst.
      split; [by eapply index_store_eq|done].
    - by rewrite (index_store_ne _ _ _ _ _ Hst Hne). }
  case_decide as Hret.
  - intros [= <- <-]. split; [by eapply store_length|]. split; [done|].
    intros _. exists (Z.of_nat n), creek, creek'.
    split; [by apply Hne|]. split; [done|]. by eapply index_store_eq.
  - intros Hrest. destruct (IH _ Hbig1 Hrest) as (Hlen & Hbig' & Hserved).
    rewrite (store_length _ _ _ _ Hst) in Hlen. done.
Qed.

(** [addCreek] and the allocation from the creek it added. *)
Lemma alloc_added_Some (h h' : heap) (riv riv' : memriver_s)
      (creekSize size : Z) (p : ptr) :
  riv_length riv = Z.of_nat (length (riv_creeks riv)) →
  riv_length riv < SIZE_MOD →
  alloc_added h riv creekSize size = Some (p, riv', h') →
  (p = NULL ∧ riv_creeks riv' = riv_creeks riv) ∨
  (∃ creek creek',
     memcreek_alloc creek size = (p, creek') ∧
     riv_creeks riv' = riv_creeks riv ++ [creek'] ∧
     riv_length riv' = riv_length riv + 1 ∧ riv_length riv' < SIZE_MOD).
Proof.
  intros Hlen Hmax. unfold alloc_added, addCreek, realloc.
  destruct (request h) as [crks h1]. case_decide.
  { simpl. intros [= <- <- <-]. by left. }
  unfold memcreek_init, malloc. destruct (request h1) as [d h2].
  set (len := wrap (riv_length riv + 1)).
  destruct (store _ (len - 1) _) as [creeks2|] eqn:Hst; [|done]. simpl.
  destruct (alloc_at creeks2 (len - 1) size) as [[ret creeks3]|] eqn:Hat;
    [|done].
  simpl. intros [= <- <- <-]. right.
  apply alloc_at_Some in Hat as (creek & creek' & Hcreek & Halloc & Hst3).
  pose proof (proj1 (store_Some _ _ _ _) Hst) as [Hrange ->].
  rewrite length_resize in Hrange.
  assert (riv_length riv + 1 < SIZE_MOD) as Hmax1.
  { destruct (decide (riv_length riv + 1 < SIZE_MOD)); [done|].
    subst len. unfold wrap in Hrange.
    replace (riv_length riv + 1) with SIZE_MOD in Hrange by lia.
    rewrite Z.mod_same in Hrange by done. lia. }
  assert (len = riv_length riv + 1) as Hlen1.
  { subst len. apply wrap_small. lia. }
  rewrite Hlen1 in *.
  assert (resize (Z.to_nat (riv_length riv + 1)) (junk_creek h1) (riv_creeks riv)
          = riv_creeks riv ++ [junk_creek h1]) as Hresize.
  { rewrite resize_ge by lia.
    by replace (Z.to_nat (riv_length riv + 1) - length (riv_creeks riv))%nat
      with 1%nat by lia. }
  rewrite Hresize in *.
  assert (Z.to_nat (riv_length riv + 1 - 1) = (length (riv_creeks riv) + 0)%nat)
    as Hplace by lia.
  apply store_Some in Hst3 as [_ ->]. rewrite Hplace.
  rewrite !insert_app_r. simpl.
  apply index_Some in Hcreek as [_ Hcreek]. rewrite Hplace in Hcreek.
  rewrite insert_app_r, lookup_app_r in Hcreek by lia.
  replace (length (riv_creeks riv) + 0 - length (riv_creeks riv))%nat
    with 0%nat in Hcreek by lia.
  simpl in Hcreek. injection Hcreek as <-.
  eexists _, creek'. split; [done|]. split; [done|]. simpl. lia.
Qed.

Lemma alloc_added_full (h h' : heap) (riv riv' : memriver_s)
      (i creekSize size : Z) (big : memcreek_s) (p : ptr) :
  holds_full i big riv →
  alloc_added h riv creekSize size = Some (p, riv', h') →
  index (riv_creeks riv') i = Some big ∧
  (p ≠ NULL →
   holds_full i big riv' ∧ served_elsewhere i (riv_creeks riv') size p).
Proof.
  intros (Hlen & Hmax & Hbig) Hadd.
  pose proof (index_lt _ _ _ Hbig) as Hi.
  apply alloc_added_Some in Hadd
      as [[-> Hsame]|(creek & creek' & Halloc & Happ & Hlen1 & Hmax1)];
    [by rewrite Hsame| |done..].
  assert (index (riv_creeks riv') i = Some big) as Hbig1.
  { rewrite Happ. apply index_Some in Hbig as [? Hbig]. apply index_Some.
    split; [done|]. rewrite lookup_app_l by lia. done. }
  split; [done|]. intros _. split.
  - split; [|done]. rewrite Happ, length_app. simpl. lia.
  - exists (riv_length riv), creek, creek'. split; [lia|]. split; [done|].
    rewrite Happ. apply index_Some. split; [lia|].
    rewrite lookup_app_r by lia.
    by replace (Z.to_nat (riv_length riv) - length (riv_creeks riv))%nat
      with 0%nat by lia.
Qed.

(** A request of at least one byte leaves a full creek as it is, and is
    served from another creek. *)
Lemma memriver_alloc_full (h h' : heap) (riv riv' : memriver_s)
      (i size : Z) (big : memcreek_s) (p : ptr) :
  creek_full big → 0 < size → holds_full i big riv →
  memriver_alloc h riv size = Some (p, riv', h') →
  index (riv_creeks riv') i = Some big ∧
  (p ≠ NULL →
   holds_full i big riv' ∧ served_elsewhere i (riv_creeks riv') size p).
Proof.
  intros Hfull Hsize Hholds. pose proof Hholds as (Hlen & Hmax & Hbig).
  unfold memriver_alloc. case_decide; [by apply alloc_added_full|].
  destruct (scan_creeks _ _ _) as [[ret creeks1]|] eqn:Hscan; [|done]. simpl.
  destruct (scan_creeks_full _ _ _ _ _ _ _ Hfull Hsize Hbig Hscan)
    as (Hlen1 & Hbig1 & Hserved).
  case_decide as Hret.
  - apply alloc_added_full. split; [simpl; lia|done].
  - intros [= <- <- <-]. simpl. split; [done|]. intros _. split; [|auto].
    split; [simpl; lia|done].
Qed.

Lemma memriver_alloc_all_full (sizes : list Z) (h h' : heap)
      (riv riv' : memriver_s) (i : Z) (big : memcreek_s) (ps : list ptr) :
  creek_full big → Forall (λ size, 0 < size) sizes → holds_full i big riv →
  memriver_alloc_all sizes h riv = Some (ps, riv', h') →
  Forall (λ p, p ≠ NULL) ps →
  holds_full i big riv'.
Proof.
  intros Hfull Hsizes. revert h riv ps.
  induction Hsizes as [|size sizes Hsize _ IH]; intros h riv ps Hholds; simpl.
  { by intros [= <- <- <-]. }
  destruct (memriver_alloc h riv size) as [[[p riv1] h1]|] eqn:Halloc; [|done].
  simpl.
  destruct (memriver_alloc_all sizes h1 riv1) as [[[ps' riv2] h2]|] eqn:Hrest;
    [|done].
  simpl. intros [= <- <- <-] Hps. inversion_clear Hps as [|? ? Hp Hps'].
  destruct (memriver_alloc_full _ _ _ _ _ _ _ _ Hfull Hsize Hholds Halloc)
    as [_ Hnext].
  destruct (Hnext Hp) as [Hholds1 _]. by eapply IH.
Qed.

(** C7, as the code has it.  When [realloc] and [malloc] answer, a request
    of more bytes than the creeks of the river have adds one creek of the
    size of the request at the end of the array, returns the address of its
    memory, and leaves it full.  After any further requests of at least one
    byte that returned an address, the creek is where and as it was, and
    one more request of at least one byte leaves it so and is served, if
    it is served, from another creek. *)
Theorem memriver_alloc_oversized (h : heap) (riv : memriver_s) (size : Z)
        (a1 a2 : N) (rest : list N) :
  answers h = a1 :: a2 :: rest → a1 ≠ 0%N → a2 ≠ 0%N →
  riv_length riv = Z.of_nat (length (riv_creeks riv)) →
  riv_length riv + 1 < SIZE_MOD →
  0 ≤ riv_creekSize riv < size → size < SIZE_MOD →
  let big := Memcreek size size (Z.of_N a2) in
  let riv' := Memriver (riv_length riv + 1) (riv_creekSize riv)
                       (riv_creeks riv ++ [big]) in
  memriver_alloc h riv size
  = Some (Z.of_N a2, riv', Heap rest (junk_bath h) (junk_creek h)) ∧
  creek_full big ∧
  ∀ sizes h1 ps riv2 h2,
    Forall (λ size', 0 < size') sizes →
    memriver_alloc_all sizes h1 riv' = Some (ps, riv2, h2) →
    Forall (λ p, p ≠ NULL) ps →
    index (riv_creeks riv2) (riv_length riv) = Some big ∧
    ∀ size' h3 p riv4 h4,
      0 < size' →
      memriver_alloc h3 riv2 size' = Some (p, riv4, h4) →
      index (riv_creeks riv4) (riv_length riv) = Some big ∧
      (p ≠ NULL → served_elsewhere (riv_length riv) (riv_creeks riv4) size' p).
Proof.
  intros Hanswers Ha1 Ha2 Hlen Hmax Hsize Hsmax big riv'.
  assert (creek_full big) as Hfull by done.
  assert (holds_full (riv_length riv) big riv') as Hholds.
  { unfold holds_full, riv'. simpl. rewrite length_app. simpl.
    split; [lia|]. split; [lia|]. apply index_Some. split; [lia|].
    rewrite lookup_app_r by lia.
    by replace (Z.to_nat (riv_length riv) - length (riv_creeks riv))%nat
      with 0%nat by lia. }
  split; [|split; [done|]].
  - unfold memriver_alloc. rewrite decide_True by lia.
    unfold alloc_added, addCreek, realloc, memcreek_init, malloc, request.
    rewrite Hanswers. simpl.
    rewrite decide_False by (unfold NULL; lia).
    rewrite wrap_small by lia.
    rewrite resize_ge by lia.
    replace (Z.to_nat (riv_length riv + 1) - length (riv_creeks riv))%nat
      with 1%nat by lia.
    simpl. unfold store at 1. rewrite decide_True
      by (rewrite length_app; simpl; lia).
    simpl.
    replace (Z.to_nat (riv_length riv + 1 - 1))
      with (length (riv_creeks riv) + 0)%nat by lia.
    rewrite insert_app_r. simpl. unfold alloc_at, index.
    rewrite decide_True by lia.
    replace (Z.to_nat (riv_length riv + 1 - 1))
      with (length (riv_creeks riv) + 0)%nat by lia.
    rewrite lookup_app_r by lia.
    replace (length (riv_creeks riv) + 0 - length (riv_creeks riv))%nat
      with 0%nat by lia.
    simpl. unfold memcreek_alloc. simpl.
    rewrite Z.sub_0_r, Z.add_0_l, Z.add_0_r, wrap_small by lia.
    rewrite decide_False by lia. unfold store.
    rewrite decide_True by (rewrite length_app; simpl; lia).
    simpl.
    replace (Z.to_nat (riv_length riv + 1 - 1))
      with (length (riv_creeks riv) + 0)%nat by lia.
    by rewrite insert_app_r.
  - intros sizes h1 ps riv2 h2 Hsizes Hrun Hps.
    pose proof (memriver_alloc_all_full _ _ _ _ _ _ _ _ Hfull Hsizes Hholds
                                        Hrun Hps) as Hholds'.
    split; [apply Hholds'|]. intros size' h3 p riv4 h4 Hsize' Halloc.
    destruct (memriver_alloc_full _ _ _ _ _ _ _ _ Hfull Hsize' Hholds' Halloc)
      as [Hbig3 Hserved].
    split; [done|]. intros Hp. by apply Hserved.
Qed.

Lemma memriver_alloc_oversized_witness :
  let big := Memcreek 20 20 1300 in
  let riv' := Memriver 2 16 [Memcreek 16 0 1100; big] in
  memriver_alloc (zeroed [1200; 1300]) (Memriver 1 16 [Memcreek 16 0 1100]) 20
  = Some (1300, riv', zeroed []) ∧
  creek_full big ∧
  ∀ sizes h1 ps riv2 h2,
    Forall (λ size', 0 < size') sizes →
    memriver_alloc_all sizes h1 riv' = Some (ps, riv2, h2) →
    Forall (λ p, p ≠ NULL) ps →
    index (riv_creeks riv2) 1 = Some big ∧
    ∀ size' h3 p riv4 h4,
      0 < size' →
      memriver_alloc h3 riv2 size' = Some (p, riv4, h4) →
      index (riv_creeks riv4) 1 = Some big ∧
      (p ≠ NULL → served_elsewhere 1 (riv_creeks riv4) size' p).
Proof.
  apply (memriver_alloc_oversized
           (zeroed [1200; 1300]) (Memriver 1 16 [Memcreek 16 0 1100]) 20
           1200%N 1300%N []).
  - reflexivity.
  - done.
  - done.
  - reflexivity.
  - unfold SIZE_MOD. simpl. lia.
  - simpl. lia.
  - unfold SIZE_MOD. lia.
Defined.

(** * Further properties *)

(** ** The macros of bitarray.h *)

Lemma bitArray_test_bit_set (ar : list Z) (i : Z) :
  bitArray_test ar i
  = (λ w, if Z.testbit w (i `mod` BITARRAY_INTBITS) then bitArray_mask i else 0)
      <$> index ar (bitArray_slot i).
Proof.
  unfold bitArray_test. destruct (index ar _) as [w|]; [|done]. simpl.
  by rewrite land_mask.
Qed.

Lemma bit_set_index (ar : list Z) (j : Z) :
  bit_set ar j
  = from_option (λ w, Z.testbit w (j `mod` BITARRAY_INTBITS)) false
                (index ar (bitArray_slot j)).
Proof. unfold bit_set. by destruct (index ar _). Qed.

(** Two arrays with the same length and the same bits at a place give the
    same [bitArray_test] there. *)
Lemma bitArray_test_ext (ar ar' : list Z) (j : Z) :
  length ar' = length ar → bit_set ar' j = bit_set ar j →
  bitArray_test ar' j = bitArray_test ar j.
Proof.
  intros Hlen Hbit. rewrite !bitArray_test_bit_set. unfold bit_set in Hbit.
  destruct (index ar' _) as [w'|] eqn:Hw', (index ar _) as [w|] eqn:Hw; simpl.
  - by rewrite Hbit.
  - apply index_lt in Hw'. rewrite Hlen in Hw'.
    destruct (index_is_Some ar _ Hw') as [? ?]. congruence.
  - apply index_lt in Hw. rewrite <- Hlen in Hw.
    destruct (index_is_Some ar' _ Hw) as [? ?]. congruence.
  - done.
Qed.

(** X1.  [bitArray_set] makes [bitArray_test] of the bit non-zero and
    leaves [bitArray_test] of every other bit as it was. *)
Theorem bitArray_set_test (ar ar' : list Z) (i : Z) :
  bitArray_set ar i = Some ar' →
  (∃ t, bitArray_test ar' i = Some t ∧ t ≠ 0) ∧
  ∀ j, j ≠ i → bitArray_test ar' j = bitArray_test ar j.
Proof.
  intros Hset. pose proof (bitArray_set_length _ _ _ Hset) as Hlen. split.
  - destruct (bitArray_test ar' i) as [t|] eqn:Ht.
    + exists t. split; [done|]. intros ->.
      apply bitArray_test_spec in Ht. destruct Ht as [Ht _].
      specialize (Ht eq_refl).
      rewrite (bit_set_set _ _ _ i Hset), bool_decide_eq_true_2 in Ht by done.
      done.
    + unfold bitArray_set in Hset. unfold bitArray_test in Ht.
      destruct (index ar _) as [w|]; [|done]. simpl in Hset.
      by rewrite (index_store_eq _ _ _ _ Hset) in Ht.
  - intros j Hj. apply bitArray_test_ext; [done|].
    rewrite (bit_set_set _ _ _ j Hset).
    by rewrite bool_decide_eq_false_2 by done.
Qed.

Lemma bitArray_set_test_witness :
  (∃ t, bitArray_test [5; 2147483648] 63 = Some t ∧ t ≠ 0) ∧
  ∀ j, j ≠ 63 → bitArray_test [5; 2147483648] j = bitArray_test [5; 0] j.
Proof. apply (bitArray_set_test [5; 0] [5; 2147483648] 63). reflexivity. Defined.

(** X2.  [bitArray_clear] makes [bitArray_test] of the bit zero and leaves
    [bitArray_test] of every other bit as it was. *)
Theorem bitArray_clear_test (ar ar' : list Z) (i : Z) :
  bitArray_clear ar i = Some ar' →
  bitArray_test ar' i = Some 0 ∧
  ∀ j, j ≠ i → bitArray_test ar' j = bitArray_test ar j.
Proof.
  intros Hclear. pose proof (bitArray_clear_length _ _ _ Hclear) as Hlen.
  split.
  - destruct (bitArray_test ar' i) as [t|] eqn:Ht.
    + f_equal. apply (bitArray_test_spec _ _ _ Ht).
      rewrite (bit_set_clear _ _ _ i Hclear).
      by rewrite bool_decide_eq_true_2 by done.
    + unfold bitArray_clear in Hclear. unfold bitArray_test in Ht.
      destruct (index ar _) as [w|]; [|done]. simpl in Hclear.
      by rewrite (index_store_eq _ _ _ _ Hclear) in Ht.
  - intros j Hj. apply bitArray_test_ext; [done|].
    rewrite (bit_set_clear _ _ _ j Hclear).
    by rewrite bool_decide_eq_false_2 by done.
Qed.

Lemma bitArray_clear_test_witness :
  bitArray_test [5; 0] 63 = Some 0 ∧
  ∀ j, j ≠ 63 → bitArray_test [5; 0] j = bitArray_test [5; 2147483648] j.
Proof.
  apply (bitArray_clear_test [5; 2147483648] [5; 0] 63). reflexivity.
Defined.

Lemma bit_set_flip (ar ar' : list Z) (i j : Z) :
  bitArray_flip ar i = Some ar' →
  bit_set ar' j = xorb (bool_decide (i = j)) (bit_set ar j).
Proof.
  unfold bitArray_flip, bit_set.
  destruct (index ar (bitArray_slot i)) as [w|] eqn:Hw; [|done].
  simpl. intros Hst. pose proof (mod_intbits_range j) as Hj.
  destruct (decide (bitArray_slot i = bitArray_slot j)) as [Hs|Hs].
  - rewrite <- Hs, (index_store_eq _ _ _ _ Hst), Hw.
    unfold UINT_MOD.
    rewrite Z.mod_pow2_bits_low, Z.lxor_spec, testbit_mask by lia.
    rewrite xorb_comm. f_equal. apply bool_decide_ext. split.
    + intros Hm. by apply slot_mod_eq.
    + by intros ->.
  - rewrite (index_store_ne _ _ _ _ _ Hst Hs).
    rewrite bool_decide_eq_false_2; [done|]. by intros ->.
Qed.

Lemma bitArray_flip_length (ar ar' : list Z) (i : Z) :
  bitArray_flip ar i = Some ar' → length ar' = length ar.
Proof.
  unfold bitArray_flip. destruct (index ar _); [|done]. simpl.
  apply store_length.
Qed.

Lemma testbit_word_high (w n : Z) :
  0 ≤ w < UINT_MOD → 32 ≤ n → Z.testbit w n = false.
Proof.
  intros Hw Hn. rewrite <- (Z.mod_small w UINT_MOD) by done.
  unfold UINT_MOD. apply Z.mod_pow2_bits_high. lia.
Qed.

Lemma lxor_mask_twice (w i : Z) :
  0 ≤ w < UINT_MOD →
  Z.lxor (Z.lxor w (bitArray_mask i) `mod` UINT_MOD) (bitArray_mask i)
    `mod` UINT_MOD = w.
Proof.
  intros Hw. apply Z.bits_inj'. intros n Hn.
  destruct (decide (n < 32)) as [Hlt|Hge].
  - unfold UINT_MOD.
    rewrite Z.mod_pow2_bits_low, Z.lxor_spec by lia.
    rewrite Z.mod_pow2_bits_low, Z.lxor_spec by lia.
    by rewrite xorb_assoc, xorb_nilpotent, xorb_false_r.
  - rewrite (testbit_word_high w) by (done || lia).
    unfold UINT_MOD. apply Z.mod_pow2_bits_high. lia.
Qed.

(** X3.  [bitArray_flip] turns [bitArray_test] of the bit from zero to
    non-zero and back, leaves [bitArray_test] of every other bit as it
    was, and a second flip of the bit gives back the array of 32-bit
    words. *)
Theorem bitArray_flip_test (ar ar' : list Z) (i : Z) :
  bitArray_flip ar i = Some ar' →
  (∃ t t', bitArray_test ar i = Some t ∧ bitArray_test ar' i = Some t' ∧
           (t' = 0 ↔ t ≠ 0)) ∧
  (∀ j, j ≠ i → bitArray_test ar' j = bitArray_test ar j) ∧
  (Forall (λ w, 0 ≤ w < UINT_MOD) ar → bitArray_flip ar' i = Some ar).
Proof.
  intros Hflip. pose proof (bitArray_flip_length _ _ _ Hflip) as Hlen.
  pose proof (bit_set_flip _ _ i i Hflip) as Hbit.
  rewrite bool_decide_eq_true_2 in Hbit by done. simpl in Hbit.
  unfold bitArray_flip in Hflip.
  destruct (index ar (bitArray_slot i)) as [w|] eqn:Hw; [|done].
  simpl in Hflip. pose proof (index_store_eq _ _ _ _ Hflip) as Hw'.
  split; [|split].
  - destruct (bitArray_test ar i) as [t|] eqn:Ht;
      [|by unfold bitArray_test in Ht; rewrite Hw in Ht].
    destruct (bitArray_test ar' i) as [t'|] eqn:Ht';
      [|by unfold bitArray_test in Ht'; rewrite Hw' in Ht'].
    exists t, t'. do 2 (split; [done|]).
    apply bitArray_test_spec in Ht, Ht'. rewrite Ht', Hbit, Ht.
    destruct (bit_set ar i); simpl; intuition congruence.
  - intros j Hj. apply bitArray_test_ext; [done|].
    assert (bitArray_flip ar i = Some ar') as Hflip'
        by (unfold bitArray_flip; rewrite Hw; done).
    rewrite (bit_set_flip _ _ i j Hflip').
    by rewrite bool_decide_eq_false_2 by done.
  - intros Hwords. unfold bitArray_flip. rewrite Hw'. simpl.
    apply store_Some in Hflip as [Hrange ->].
    apply store_Some. rewrite length_insert. split; [done|].
    rewrite list_insert_insert_eq. symmetry. apply list_insert_id.
    apply index_Some in Hw as [_ Hw]. rewrite Hw. f_equal. symmetry.
    apply lxor_mask_twice.
    by eapply (proj1 (Forall_lookup _ _) Hwords).
Qed.

Lemma bitArray_flip_test_witness :
  (∃ t t', bitArray_test [5; 0] 2 = Some t ∧ bitArray_test [1; 0] 2 = Some t' ∧
           (t' = 0 ↔ t ≠ 0)) ∧
  (∀ j, j ≠ 2 → bitArray_test [1; 0] j = bitArray_test [5; 0] j) ∧
  (Forall (λ w, 0 ≤ w < UINT_MOD) [5; 0] → bitArray_flip [1; 0] 2 = Some [5; 0]).
Proof. apply (bitArray_flip_test [5; 0] [1; 0] 2). reflexivity. Defined.

Lemma combine_words_index (op : Z → Z → Z) (fuel : nat) (i : Z)
      (ar1 ar2 ar' : list Z) :
  0 ≤ i → combine_words op fuel i ar1 ar2 = Some ar' →
  length ar' = length ar1 ∧
  (∀ k, i ≤ k < i + Z.of_nat fuel →
        ∃ w1 w2, index ar1 k = Some w1 ∧ index ar2 k = Some w2 ∧
                 index ar' k = Some (op w1 w2)) ∧
  (∀ k, ¬ (i ≤ k < i + Z.of_nat fuel) → index ar' k = index ar1 k).
Proof.
  revert i ar1. induction fuel as [|fuel IH]; intros i ar1 Hi; simpl.
  { intros [= <-]. split; [done|]. split; [lia|done]. }
  destruct (index ar1 i) as [w1|] eqn:Hw1; [|done]. simpl.
  destruct (index ar2 i) as [w2|] eqn:Hw2; [|done]. simpl.
  destruct (store ar1 i (op w1 w2)) as [ar1'|] eqn:Hst; [|done]. simpl.
  intros Hrest. destruct (IH (i + 1) ar1' ltac:(lia) Hrest) as (Hlen & Hin & Hout).
  split; [by rewrite Hlen, (store_length _ _ _ _ Hst)|]. split.
  - intros k Hk. destruct (decide (k = i)) as [->|Hne].
    + exists w1, w2. do 2 (split; [done|]).
      rewrite Hout by lia. by eapply index_store_eq.
    + destruct (Hin k ltac:(lia)) as (v1 & v2 & Hv1 & Hv2 & Hv).
      exists v1, v2. rewrite (index_store_ne _ _ _ _ _ Hst) in Hv1 by done.
      done.
  - intros k Hk. rewrite Hout by lia.
    apply (index_store_ne _ _ _ _ _ Hst). lia.
Qed.

Lemma combine_words_is_Some (op : Z → Z → Z) (fuel : nat) (i : Z)
      (ar1 ar2 : list Z) :
  0 ≤ i → i + Z.of_nat fuel ≤ Z.of_nat (length ar1) →
  i + Z.of_nat fuel ≤ Z.of_nat (length ar2) →
  is_Some (combine_words op fuel i ar1 ar2).
Proof.
  revert i ar1. induction fuel as [|fuel IH]; intros i ar1 Hi H1 H2; simpl.
  { eauto. }
  destruct (index_is_Some ar1 i) as [w1 ->]; [lia|]. simpl.
  destruct (index_is_Some ar2 i) as [w2 ->]; [lia|]. simpl.
  destruct (store_is_Some ar1 i (op w1 w2)) as [ar1' Hst]; [lia|].
  rewrite Hst. simpl. apply IH; [lia| |lia].
  rewrite (store_length _ _ _ _ Hst). lia.
Qed.

(** The bits of the result of the loop, for an operation on words that
    works bit by bit. *)
Lemma combine_words_bit_set (op : Z → Z → Z) (f : bool → bool → bool)
      (sz : Z) (ar1 ar2 ar' : list Z) (j : Z) :
  (∀ a b n, 0 ≤ n → Z.testbit (op a b) n = f (Z.testbit a n) (Z.testbit b n)) →
  combine_words op (Z.to_nat (bitArray_size sz)) 0 ar1 ar2 = Some ar' →
  bit_set ar' j
  = if decide (0 ≤ bitArray_slot j < bitArray_size sz)
    then f (bit_set ar1 j) (bit_set ar2 j)
    else bit_set ar1 j.
Proof.
  intros Hop Hrun.
  destruct (combine_words_index _ _ _ _ _ _ ltac:(done) Hrun)
    as (Hlen & Hin & Hout).
  pose proof (bitArray_size_nonneg sz) as Hsz.
  pose proof (mod_intbits_range j) as Hj.
  rewrite Z.add_0_l, Z2Nat.id in Hin, Hout by done.
  unfold bit_set. case_decide as Hslot.
  - destruct (Hin _ Hslot) as (w1 & w2 & -> & -> & ->). apply Hop. lia.
  - by rewrite Hout.
Qed.

(** X4.  [bitArray_union] is defined on two arrays that have the
    [bitArray_size sz] words of [sz] bits; a bit of one of these words is
    set in the result when it is set in one of the two arrays, and the
    words after them are those of the first array. *)
Theorem bitArray_union_bits (sz : Z) (ar1 ar2 : list Z) :
  bitArray_size sz ≤ Z.of_nat (length ar1) →
  bitArray_size sz ≤ Z.of_nat (length ar2) →
  ∃ ar',
    bitArray_union sz ar1 ar2 = Some ar' ∧ length ar' = length ar1 ∧
    ∀ j, bit_set ar' j
         = if decide (0 ≤ bitArray_slot j < bitArray_size sz)
           then bit_set ar1 j || bit_set ar2 j
           else bit_set ar1 j.
Proof.
  intros H1 H2. pose proof (bitArray_size_nonneg sz) as Hsz.
  unfold bitArray_union.
  destruct (combine_words_is_Some
              Z.lor (Z.to_nat (bitArray_size sz)) 0 ar1 ar2)
    as [ar' Hrun]; [lia..|].
  exists ar'. split; [done|].
  split; [apply (combine_words_index _ _ _ _ _ _ (Z.le_refl 0) Hrun)|].
  intros j. apply (combine_words_bit_set Z.lor orb sz ar1 ar2); [|done].
  intros a b n _. apply Z.lor_spec.
Qed.

Lemma bitArray_union_bits_witness :
  ∃ ar',
    bitArray_union 33 [5; 0; 8] [3; 1; 7] = Some ar' ∧
    length ar' = length [5; 0; 8] ∧
    ∀ j, bit_set ar' j
         = if decide (0 ≤ bitArray_slot j < bitArray_size 33)
           then bit_set [5; 0; 8] j || bit_set [3; 1; 7] j
           else bit_set [5; 0; 8] j.
Proof.
  apply (bitArray_union_bits 33 [5; 0; 8] [3; 1; 7]); vm_compute; discriminate.
Defined.

(** X5.  [bitArray_intersect] is defined on two arrays that have the
    [bitArray_size sz] words of [sz] bits; a bit of one of these words is
    set in the result when it is set in both arrays, and the words after
    them are those of the first array. *)
Theorem bitArray_intersect_bits (sz : Z) (ar1 ar2 : list Z) :
  bitArray_size sz ≤ Z.of_nat (length ar1) →
  bitArray_size sz ≤ Z.of_nat (length ar2) →
  ∃ ar',
    bitArray_intersect sz ar1 ar2 = Some ar' ∧ length ar' = length ar1 ∧
    ∀ j, bit_set ar' j
         = if decide (0 ≤ bitArray_slot j < bitArray_size sz)
           then bit_set ar1 j && bit_set ar2 j
           else bit_set ar1 j.
Proof.
  intros H1 H2. pose proof (bitArray_size_nonneg sz) as Hsz.
  unfold bitArray_intersect.
  destruct (combine_words_is_Some
              Z.land (Z.to_nat (bitArray_size sz)) 0 ar1 ar2)
    as [ar' Hrun]; [lia..|].
  exists ar'. split; [done|].
  split; [apply (combine_words_index _ _ _ _ _ _ (Z.le_refl 0) Hrun)|].
  intros j. apply (combine_words_bit_set Z.land andb sz ar1 ar2); [|done].
  intros a b n _. apply Z.land_spec.
Qed.

Lemma bitArray_intersect_bits_witness :
  ∃ ar',
    bitArray_intersect 33 [5; 0; 8] [3; 1; 7] = Some ar' ∧
    length ar' = length [5; 0; 8] ∧
    ∀ j, bit_set ar' j
         = if decide (0 ≤ bitArray_slot j < bitArray_size 33)
           then bit_set [5; 0; 8] j && bit_set [3; 1; 7] j
           else bit_set [5; 0; 8] j.
Proof.
  apply (bitArray_intersect_bits 33 [5; 0; 8] [3; 1; 7]);
    vm_compute; discriminate.
Defined.

(** X6.  [bitArray_size] gives the least number of 32-bit words that hold
    [sz] bits, as long as [sz + 31] does not overflow; for the 31 largest
    values of [size_t] it gives 0. *)
Theorem bitArray_size_bounds (sz : Z) :
  0 ≤ sz < SIZE_MOD →
  (sz + 31 < SIZE_MOD →
   sz ≤ 32 * bitArray_size sz < sz + 32) ∧
  (SIZE_MOD ≤ sz + 31 → bitArray_size sz = 0).
Proof.
  intros Hsz. unfold bitArray_size, wrap, BITARRAY_INTBITS. split.
  - intros Hmax. rewrite Z.mod_small by lia.
    pose proof (Z.div_mod (sz + 32 - 1) 32 ltac:(done)).
    pose proof (Z.mod_pos_bound (sz + 32 - 1) 32 ltac:(done)). lia.
  - intros Hover. assert (32 < SIZE_MOD) as Hbig by done.
    replace (sz + 32 - 1) with (sz + 31 - SIZE_MOD + 1 * SIZE_MOD) by lia.
    rewrite Z.mod_add by done. rewrite Z.mod_small by lia.
    apply Z.div_small. lia.
Qed.

Lemma bitArray_size_bounds_witness :
  (33 + 31 < SIZE_MOD → 33 ≤ 32 * bitArray_size 33 < 33 + 32) ∧
  (SIZE_MOD ≤ 33 + 31 → bitArray_size 33 = 0).
Proof. apply (bitArray_size_bounds 33). unfold SIZE_MOD. lia. Defined.

(** ** [bitArray_zeroe] and [membath_reset] *)

Lemma memset_zero_index (order : byte_order) (ar ar' : list Z) (n : Z) :
  memset_zero order ar n = Some ar' →
  length ar' = length ar ∧
  ∀ i, index ar' i = (λ w, zero_bytes order w (n - 4 * i)) <$> index ar i.
Proof.
  unfold memset_zero. case_decide; [|done]. intros [= <-].
  split; [apply length_imap|]. intros i. unfold index.
  case_decide; [|done]. rewrite list_lookup_imap.
  by rewrite Z2Nat.id by done.
Qed.

(** X7.  [bitArray_zeroe] sets the first [bitArray_size sz] bytes of the
    array to 0, not its first [bitArray_size sz] words: in either byte
    order the words that lie in these bytes become 0 and the words that
    lie after them keep their value; of an array of more than 32 bits the
    last word is among the latter. *)
Theorem bitArray_zeroe_words (order : byte_order) (ar : list Z) (sz : Z) :
  bitArray_size sz ≤ 4 * Z.of_nat (length ar) →
  ∃ ar',
    bitArray_zeroe order ar sz = Some ar' ∧ length ar' = length ar ∧
    (∀ i, 0 ≤ i → 4 * (i + 1) ≤ bitArray_size sz → index ar' i = Some 0) ∧
    (∀ i, bitArray_size sz ≤ 4 * i → index ar' i = index ar i) ∧
    (32 < sz → sz + 31 < SIZE_MOD →
     index ar' (bitArray_size sz - 1) = index ar (bitArray_size sz - 1)).
Proof.
  intros Hlen. unfold bitArray_zeroe.
  destruct (memset_zero order ar (bitArray_size sz)) as [ar'|] eqn:Hset;
    [|by unfold memset_zero in Hset; rewrite decide_True in Hset].
  destruct (memset_zero_index _ _ _ _ Hset) as [Hlen' Hindex].
  assert (∀ i, bitArray_size sz ≤ 4 * i → index ar' i = index ar i) as Hkeep.
  { intros i Hi. rewrite Hindex. destruct (index ar i) as [w|]; [|done].
    simpl. unfold zero_bytes. rewrite decide_False, decide_True by lia.
    done. }
  exists ar'. split; [done|]. split; [done|]. split; [|split; [done|]].
  - intros i Hi Hfull. rewrite Hindex.
    destruct (index_is_Some ar i) as [w ->]; [lia|]. simpl.
    unfold zero_bytes. by rewrite decide_True by lia.
  - intros Hsz Hmax. apply Hkeep.
    rewrite bitArray_size_small by lia.
    pose proof (Z.div_mod (sz + 31) 32 ltac:(done)).
    pose proof (Z.mod_pos_bound (sz + 31) 32 ltac:(done)). lia.
Qed.

Lemma bitArray_zeroe_words_witness :
  ∃ ar',
    bitArray_zeroe BigEndian [7; 7; 7; 7; 7] 160 = Some ar' ∧
    length ar' = length [7; 7; 7; 7; 7] ∧
    (∀ i, 0 ≤ i → 4 * (i + 1) ≤ bitArray_size 160 → index ar' i = Some 0) ∧
    (∀ i, bitArray_size 160 ≤ 4 * i →
          index ar' i = index [7; 7; 7; 7; 7] i) ∧
    (32 < 160 → 160 + 31 < SIZE_MOD →
     index ar' (bitArray_size 160 - 1)
     = index [7; 7; 7; 7; 7] (bitArray_size 160 - 1)).
Proof.
  apply (bitArray_zeroe_words BigEndian [7; 7; 7; 7; 7] 160).
  vm_compute. discriminate.
Defined.

(** The address that [membath_alloc] returns from a bath that is not
    full. *)
Lemma membath_alloc_address (bath bath' : membath_s) (p : ptr) :
  membath_alloc bath = Some (p, bath') → bath_length bath < bath_size bath →
  p = bath_data bath + wrap (bath_firstFree bath * bath_itemSize bath).
Proof.
  unfold membath_alloc. intros Halloc Hroom.
  rewrite decide_False in Halloc by lia.
  destruct (bath_useMap bath) as [um|]; [|done]. simpl in Halloc.
  destruct (bitArray_set um _) as [um'|]; [|done]. simpl in Halloc.
  destruct (scan_free _ _ _); [|done]. by injection Halloc as <- <-.
Qed.

(** X8.  [membath_reset] sets [length] and [firstFree] to 0 and leaves the
    sizes and [data]; of the marks of the slots it clears those whose word
    lies in the first [bitArray_size size] bytes of the bit-array, and it
    keeps those whose word lies after these bytes.  The next allocation
    returns the first slot. *)
Theorem membath_reset_marks (order : byte_order) (bath : membath_s)
        (useMap : list Z) :
  bath_useMap bath = Some useMap →
  Z.of_nat (length useMap) = bitArray_size (bath_size bath) →
  ∃ bath',
    membath_reset order bath = Some bath' ∧
    bath_length bath' = 0 ∧ bath_firstFree bath' = 0 ∧
    bath_size bath' = bath_size bath ∧
    bath_itemSize bath' = bath_itemSize bath ∧
    bath_data bath' = bath_data bath ∧
    (∀ j, 0 ≤ bitArray_slot j →
          4 * (bitArray_slot j + 1) ≤ bitArray_size (bath_size bath) →
          in_use bath' j = false) ∧
    (∀ j, bitArray_size (bath_size bath) ≤ 4 * bitArray_slot j →
          in_use bath' j = in_use bath j) ∧
    (0 < bath_size bath → bath_size bath + 31 < SIZE_MOD →
     ∃ bath'', membath_alloc bath' = Some (bath_data bath, bath'')).
Proof.
  intros Hum Hlen.
  pose proof (bitArray_size_nonneg (bath_size bath)) as Hwords.
  unfold membath_reset, bitArray_zeroe. rewrite Hum. simpl.
  destruct (memset_zero order useMap _) as [um'|] eqn:Hset;
    [|by unfold memset_zero in Hset; rewrite decide_True in Hset by lia].
  destruct (memset_zero_index _ _ _ _ Hset) as [Hlen' Hindex].
  simpl. eexists. split; [done|]. simpl. do 5 (split; [done|]).
  unfold in_use. rewrite Hum. simpl. split; [|split].
  - intros j Hj Hin. unfold bit_set. rewrite Hindex.
    destruct (index useMap _) as [w|]; [|done]. simpl.
    unfold zero_bytes. rewrite decide_True by lia. apply Z.bits_0.
  - intros j Hj. unfold bit_set. rewrite Hindex.
    destruct (index useMap _) as [w|]; [|done]. simpl.
    unfold zero_bytes. by rewrite decide_False, decide_True by lia.
  - intros Hsize Hmax.
    set (bath' := Membath (bath_size bath) (bath_itemSize bath) 0 0
                          (Some um') (bath_data bath)).
    destruct (membath_alloc_defined bath' um') as [[p bath''] Halloc];
      [simpl; lia|done|done|simpl; lia|simpl; lia|].
    exists bath''. rewrite Halloc. do 2 f_equal.
    apply membath_alloc_address in Halloc; [|simpl; lia].
    simpl in Halloc. rewrite Halloc, Z.mul_0_l.
    unfold wrap. rewrite Z.mod_0_l by done. lia.
Qed.

Lemma membath_reset_marks_witness :
  ∃ bath',
    membath_reset LittleEndian (Membath 64 4 2 2 (Some [3; 1]) 1100)
    = Some bath' ∧
    bath_length bath' = 0 ∧ bath_firstFree bath' = 0 ∧
    bath_size bath' = 64 ∧ bath_itemSize bath' = 4 ∧
    bath_data bath' = 1100 ∧
    (∀ j, 0 ≤ bitArray_slot j →
          4 * (bitArray_slot j + 1) ≤ bitArray_size 64 →
          in_use bath' j = false) ∧
    (∀ j, bitArray_size 64 ≤ 4 * bitArray_slot j →
          in_use bath' j
          = in_use (Membath 64 4 2 2 (Some [3; 1]) 1100) j) ∧
    (0 < 64 → 64 + 31 < SIZE_MOD →
     ∃ bath'', membath_alloc bath' = Some (1100, bath'')).
Proof.
  apply (membath_reset_marks LittleEndian
                             (Membath 64 4 2 2 (Some [3; 1]) 1100) [3; 1]);
    reflexivity.
Defined.

Lemma zero_bytes_little_testbit (w k pos : Z) :
  0 ≤ pos < 32 →
  Z.testbit (zero_bytes LittleEndian w k) pos
  = Z.testbit w pos && bool_decide (8 * k ≤ pos).
Proof.
  intros Hpos. unfold zero_bytes. case_decide as Hall.
  { rewrite Z.bits_0, bool_decide_eq_false_2 by lia. by rewrite andb_false_r. }
  case_decide as Hnone.
  { rewrite bool_decide_eq_true_2 by lia. by rewrite andb_true_r. }
  rewrite Z.shiftl_spec by lia. case_bool_decide as Hk.
  - rewrite Z.shiftr_spec by lia. rewrite andb_true_r. f_equal. lia.
  - rewrite Z.testbit_neg_r by lia. by rewrite andb_false_r.
Qed.

Lemma membath_reset_little_bits (bath : membath_s) (useMap : list Z) :
  bath_useMap bath = Some useMap →
  Z.of_nat (length useMap) = bitArray_size (bath_size bath) →
  ∃ useMap',
    membath_reset LittleEndian bath
    = Some (Membath (bath_size bath) (bath_itemSize bath) 0 0 (Some useMap')
                    (bath_data bath)) ∧
    length useMap' = length useMap ∧
    ∀ j, bit_set useMap' j
         = bit_set useMap j
           && bool_decide (8 * bitArray_size (bath_size bath) ≤ j).
Proof.
  intros Hum Hlen.
  pose proof (bitArray_size_nonneg (bath_size bath)) as Hwords.
  unfold membath_reset, bitArray_zeroe. rewrite Hum. simpl.
  destruct (memset_zero LittleEndian useMap _) as [um'|] eqn:Hset;
    [|by unfold memset_zero in Hset; rewrite decide_True in Hset by lia].
  destruct (memset_zero_index _ _ _ _ Hset) as [Hlen' Hindex].
  simpl. exists um'. split; [done|]. split; [done|].
  intros j. unfold bit_set. rewrite Hindex.
  destruct (index useMap _) as [w|]; [|done]. simpl.
  rewrite zero_bytes_little_testbit by apply mod_intbits_range.
  f_equal. apply bool_decide_ext.
  unfold bitArray_slot, BITARRAY_INTBITS.
  pose proof (Z.div_mod j 32 ltac:(done)). lia.
Qed.

Lemma membath_release_size (bath bath' : membath_s) (p : ptr) (r : bool) :
  membath_release bath p = Some (r, bath') → bath_size bath' = bath_size bath.
Proof.
  unfold membath_release.
  do 2 (case_decide; [by intros [= <- <-]|]). case_decide; [done|].
  destruct (bath_useMap bath) as [um|]; [|done]. simpl.
  destruct (bitArray_clear um _); [|done]. simpl. by intros [= <- <-].
Qed.

(** In a reachable state only slots of the bath are marked. *)
Lemma reachable_marks (bath : membath_s) (live : list ptr) :
  reachable bath live → ∀ j, in_use bath j = true → 0 ≤ j < bath_size bath.
Proof.
  induction 1 as [h bath0 size itemSize bath h' Hsize Hitem Hinit
                 |bath live p bath' Hreach IH Halloc Hp
                 |bath live1 p live2 bath' Hreach IH Hrel
                 |bath live1 p live2 bath' Hreach IH Hrel]; intros j.
  - revert Hinit. unfold membath_init, calloc, malloc.
    destruct (request h) as [um h1]. case_decide; [done|].
    destruct (request h1) as [d h2]. intros [= _ <- _].
    unfold in_use. simpl. by rewrite bit_set_replicate.
  - destruct (reachable_inv _ _ Hreach)
      as (Hsize & _ & Hlen & _ & _ & Hff0 & Hff & _).
    revert Halloc. unfold membath_alloc.
    case_decide as Hfull; [by intros [= <- <-]|].
    destruct (bath_useMap bath) as [um|] eqn:Hum; [|done]. simpl.
    destruct (bitArray_set um _) as [um'|] eqn:Hset; [|done]. simpl.
    destruct (scan_free _ _ _); [|done]. simpl. intros [= _ <-].
    unfold in_use. simpl. rewrite (bit_set_set _ _ _ j Hset).
    intros [Heq|Hold]%orb_prop.
    + apply bool_decide_eq_true in Heq. lia.
    + apply IH. unfold in_use. by rewrite Hum.
  - intros Hj. rewrite (membath_release_size _ _ _ _ Hrel). apply IH.
    by apply (membath_release_no_new_use _ _ _ _ Hrel).
  - rewrite (membath_release_refused _ _ _ Hrel). apply IH.
Qed.

(** X9.  On a little-endian machine [membath_reset] clears the marks of
    the slots below [8 * bitArray_size size] and keeps the others; a
    reachable bath of at most 8 items then has no slot marked. *)
Theorem membath_reset_little_endian (bath : membath_s) (live : list ptr) :
  reachable bath live →
  ∃ bath',
    membath_reset LittleEndian bath = Some bath' ∧
    (∀ j, in_use bath' j
          = in_use bath j
            && bool_decide (8 * bitArray_size (bath_size bath) ≤ j)) ∧
    (bath_size bath ≤ 8 → ∀ j, in_use bath' j = false).
Proof.
  intros Hreach.
  destruct (reachable_inv _ _ Hreach)
    as (Hsize & _ & _ & _ & _ & _ & _ & um & Hum & Hlen).
  destruct (membath_reset_little_bits bath um Hum Hlen)
    as (um' & Hreset & _ & Hbits).
  eexists. split; [done|].
  unfold in_use. rewrite Hum. simpl. split; [done|].
  intros Hsmall j. rewrite Hbits.
  destruct (bit_set um j) eqn:Hj; [|done]. simpl.
  apply bool_decide_eq_false.
  pose proof (reachable_marks _ _ Hreach j) as Hmark.
  unfold in_use in Hmark. rewrite Hum in Hmark. specialize (Hmark Hj).
  assert (1 ≤ bitArray_size (bath_size bath)).
  { assert (64 < SIZE_MOD) as Hbig by done.
    rewrite bitArray_size_small by lia.
    apply Z.div_le_lower_bound; lia. }
  lia.
Qed.

Lemma membath_reset_little_endian_witness :
  ∃ bath',
    membath_reset LittleEndian bath_2x4_full = Some bath' ∧
    (∀ j, in_use bath' j
          = in_use bath_2x4_full j
            && bool_decide (8 * bitArray_size (bath_size bath_2x4_full) ≤ j)) ∧
    (bath_size bath_2x4_full ≤ 8 → ∀ j, in_use bath' j = false).
Proof.
  exact (membath_reset_little_endian bath_2x4_full [1104; 1100]
                                     bath_2x4_full_reachable).
Defined.

(** ** Baths: allocation and release together *)

Lemma land_lor_mask (w i : Z) :
  0 ≤ w < UINT_MOD → Z.testbit w (i `mod` BITARRAY_INTBITS) = false →
  Z.land (Z.lor w (bitArray_mask i) `mod` UINT_MOD)
         (Z.lnot (bitArray_mask i) `mod` UINT_MOD) = w.
Proof.
  intros Hw Hbit. apply Z.bits_inj'. intros n Hn. rewrite Z.land_spec.
  destruct (decide (n < 32)) as [Hlt|Hge].
  - unfold UINT_MOD.
    rewrite !Z.mod_pow2_bits_low, Z.lor_spec, Z.lnot_spec, testbit_mask by lia.
    case_bool_decide as Heq; simpl.
    + subst n. by rewrite andb_false_r.
    + by rewrite orb_false_r, andb_true_r.
  - rewrite (testbit_word_high w) by (done || lia).
    unfold UINT_MOD. rewrite Z.mod_pow2_bits_high by lia. done.
Qed.

(** [bitArray_clear] undoes [bitArray_set] of a bit that was clear. *)
Lemma bitArray_clear_set (ar ar1 : list Z) (i : Z) :
  Forall (λ w, 0 ≤ w < UINT_MOD) ar → bit_set ar i = false →
  bitArray_set ar i = Some ar1 → bitArray_clear ar1 i = Some ar.
Proof.
  intros Hwords Hbit. unfold bitArray_set, bitArray_clear, bit_set in *.
  destruct (index ar (bitArray_slot i)) as [w|] eqn:Hw; [|done]. simpl.
  intros Hst. rewrite (index_store_eq _ _ _ _ Hst). simpl.
  apply store_Some in Hst as [Hrange ->]. apply store_Some.
  rewrite length_insert. split; [done|].
  rewrite list_insert_insert_eq. symmetry. apply list_insert_id.
  apply index_Some in Hw as [_ Hw]. rewrite Hw. f_equal. symmetry.
  apply land_lor_mask; [|done].
  by eapply (proj1 (Forall_lookup _ _) Hwords).
Qed.

(** X10.  An allocation from a bath whose [firstFree] is a free slot,
    followed by the release of the address it returned, gives back the
    bath as it was. *)
Theorem membath_alloc_release (bath : membath_s) (useMap : list Z) :
  bath_wf bath → bath_useMap bath = Some useMap →
  Forall (λ w, 0 ≤ w < UINT_MOD) useMap →
  0 ≤ bath_firstFree bath < bath_size bath →
  0 ≤ bath_length bath < bath_size bath →
  in_use bath (bath_firstFree bath) = false →
  let p := bath_data bath + bath_firstFree bath * bath_itemSize bath in
  ∃ bath',
    membath_alloc bath = Some (p, bath') ∧
    membath_release bath' p = Some (true, bath).
Proof.
  intros (Hsize & Hmax & Hitem & Hbytes & um & Hum & Hlen) Heq Hwords Hff
         Hlength Hfree p.
  rewrite Hum in Heq. injection Heq as ->.
  unfold in_use in Hfree. rewrite Hum in Hfree.
  assert (0 ≤ bath_firstFree bath * bath_itemSize bath
          < bath_size bath * bath_itemSize bath) as Hoff by nia.
  destruct (bitArray_set_is_Some useMap (bath_firstFree bath)) as [um1 Hset];
    [by eapply slot_in_range|].
  destruct (scan_free_is_Some
              (Z.to_nat (bath_size bath - bath_firstFree bath)) um1
              (bath_firstFree bath)) as [found Hscan].
  { intros j Hj. rewrite (bitArray_set_length _ _ _ Hset).
    eapply slot_in_range; [| |done|]; lia. }
  assert (bath_firstFree bath ≤ default (bath_firstFree bath) found) as Hnext.
  { destruct found as [j|]; simpl; [|lia].
    apply scan_free_found in Hscan. lia. }
  unfold membath_alloc. rewrite decide_False by lia.
  rewrite Hum. simpl. rewrite Hset. simpl. rewrite Hscan. simpl.
  rewrite !wrap_small by lia. eexists. split; [done|].
  unfold membath_release. simpl. subst p.
  rewrite !wrap_small by lia.
  replace (bath_data bath + bath_firstFree bath * bath_itemSize bath
           - bath_data bath)
    with (bath_firstFree bath * bath_itemSize bath) by lia.
  do 3 (rewrite decide_False by lia).
  rewrite Z.div_mul by lia.
  rewrite (bitArray_clear_set _ _ _ Hwords Hfree Hset). simpl.
  do 2 f_equal.
  destruct bath as [size itemSize len ff um0 data]. simpl in *.
  subst um0. f_equal; [lia|]. case_decide; lia.
Qed.

Lemma membath_alloc_release_witness :
  let bath := Membath 4 4 1 1 (Some [1]) 1100 in
  let p := 1100 + 1 * 4 in
  ∃ bath',
    membath_alloc bath = Some (p, bath') ∧
    membath_release bath' p = Some (true, bath).
Proof.
  apply (membath_alloc_release bath_4x4 [1]).
  - apply bath_4x4_wf.
  - reflexivity.
  - repeat constructor; done.
  - simpl. lia.
  - simpl. lia.
  - reflexivity.
Defined.

(** X11.  After the release of an address in a slot whose index is at most
    [firstFree], the next allocation returns the address of that slot. *)
Theorem membath_release_alloc (bath : membath_s) (p : ptr) :
  bath_wf bath →
  bath_data bath ≤ p
  < bath_data bath + bath_size bath * bath_itemSize bath →
  1 ≤ bath_length bath ≤ bath_size bath →
  let item := (p - bath_data bath) `div` bath_itemSize bath in
  item ≤ bath_firstFree bath →
  ∃ bath1 bath2,
    membath_release bath p = Some (true, bath1) ∧
    membath_alloc bath1
    = Some (bath_data bath + item * bath_itemSize bath, bath2).
Proof.
  intros Hwf Hp Hlength item Hitem.
  pose proof Hwf as (Hsize & Hmax & Hisz & Hbytes & um & Hum & Hlen).
  assert (0 ≤ item < bath_size bath) as Hrange.
  { subst item. split; [apply Z.div_pos; lia|].
    apply Z.div_lt_upper_bound; lia. }
  destruct (bitArray_clear_is_Some um item) as [um1 Hclear];
    [by eapply slot_in_range|].
  assert (bath_size bath < SIZE_MOD) as Hsmax by lia.
  unfold membath_release. rewrite !wrap_small by lia.
  do 3 (rewrite decide_False by lia).
  rewrite Hum. simpl. fold item. rewrite Hclear. simpl.
  assert ((if decide (item < bath_firstFree bath) then item
           else bath_firstFree bath) = item) as -> by (case_decide; lia).
  pose proof (bitArray_clear_length _ _ _ Hclear) as Hlen1.
  destruct (bitArray_set_is_Some um1 item) as [um2 Hset].
  { rewrite Hlen1. by eapply slot_in_range. }
  destruct (scan_free_is_Some (Z.to_nat (bath_size bath - item)) um2 item)
    as [found Hscan].
  { intros j Hj. rewrite (bitArray_set_length _ _ _ Hset), Hlen1.
    eapply slot_in_range; [| |done|]; lia. }
  assert (0 ≤ item * bath_itemSize bath
          < bath_size bath * bath_itemSize bath) as Hoff by nia.
  eexists _, _. split; [done|].
  unfold membath_alloc. simpl. rewrite decide_False by lia.
  rewrite Hset. simpl. rewrite Hscan. simpl.
  by rewrite (wrap_small (item * _)) by lia.
Qed.

Lemma membath_release_alloc_witness :
  ∃ bath1 bath2,
    membath_release bath_4x4 1100 = Some (true, bath1) ∧
    membath_alloc bath1 = Some (1100 + (1100 - 1100) `div` 4 * 4, bath2).
Proof.
  apply (membath_release_alloc bath_4x4 1100).
  - apply bath_4x4_wf.
  - simpl. lia.
  - simpl. lia.
  - vm_compute. congruence.
Defined.

(** ** Baths: the slots of a fresh bath *)

Lemma membath_alloc_itemSize (bath bath' : membath_s) (p : ptr) :
  membath_alloc bath = Some (p, bath') →
  bath_itemSize bath' = bath_itemSize bath.
Proof.
  unfold membath_alloc. case_decide; [by intros [= <- <-]|].
  destruct (bath_useMap bath) as [um|]; [|done]. simpl.
  destruct (bitArray_set um _) as [um'|]; [|done]. simpl.
  destruct (scan_free _ _ _); [|done]. by intros [= <- <-].
Qed.

(** [n] allocations from a bath that was only allocated from and has [n]
    slots left. *)
Lemma membath_alloc_n_filled (n : nat) (k : Z) (bath : membath_s)
      (useMap : list Z) :
  0 ≤ k → k + 31 < SIZE_MOD → bath_filled k bath →
  bath_useMap bath = Some useMap →
  Z.of_nat (length useMap) = bitArray_size k →
  bath_length bath + Z.of_nat n ≤ k →
  ∃ bath' useMap',
    membath_alloc_n n bath
    = Some ((λ i, bath_data bath + wrap (i * bath_itemSize bath))
              <$> seqZ (bath_length bath) (Z.of_nat n),
            bath') ∧
    bath_filled k bath' ∧
    bath_length bath' = bath_length bath + Z.of_nat n ∧
    bath_useMap bath' = Some useMap' ∧
    Z.of_nat (length useMap') = bitArray_size k.
Proof.
  intros Hk Hmax. revert bath useMap.
  induction n as [|n IH]; intros bath um Hfilled Hum Hlen Hroom.
  { exists bath, um. simpl. rewrite Z.add_0_r. done. }
  pose proof Hfilled as (Hsize & Hc & _ & Hff & _).
  destruct (membath_alloc_defined bath um) as [[p bath1] Halloc];
    [lia|lia|done|by rewrite Hsize| |].
  { right. rewrite Hff by lia. lia. }
  destruct (membath_alloc_filled k _ _ _ ltac:(lia) Hfilled ltac:(lia) Halloc)
    as (Hfilled1 & Hlen1 & Hdata1 & Hp).
  destruct (membath_alloc_useMap_length _ _ _ _ Halloc Hum)
    as (um1 & Hum1 & Hlength1).
  pose proof (membath_alloc_itemSize _ _ _ Halloc) as Hitem1.
  destruct (IH bath1 um1 Hfilled1 Hum1 ltac:(lia) ltac:(lia))
    as (bath' & um' & Hrun & Hfilled' & Hlen' & Hum' & Hlength').
  exists bath', um'.
  split; [|split; [done|split; [lia|split; [done|lia]]]].
  cbn [membath_alloc_n]. rewrite Halloc. cbn [mbind option_bind].
  rewrite Hrun. cbn [mbind option_bind].
  rewrite Hdata1, Hitem1, Hlen1, Hp.
  replace (Z.of_nat (S n)) with (Z.succ (Z.of_nat n)) by lia.
  rewrite (seqZ_cons (bath_length bath)) by lia. cbn [fmap list_fmap].
  by replace (Z.pred (Z.succ (Z.of_nat n))) with (Z.of_nat n) by lia.
Qed.

(** X12.  The first [n] allocations from a bath of [size] items that
    [membath_init] made return the addresses of the slots 0 to [n - 1] in
    this order, and count [n] items in use; once all [size] slots are
    handed out, the next allocation returns [NULL] and changes nothing. *)
Theorem membath_alloc_n_fresh (h h' : heap) (bath0 bath : membath_s)
        (size itemSize : Z) (n : nat) :
  membath_init h bath0 size itemSize = (true, bath, h') →
  0 ≤ size → size + 31 < SIZE_MOD → Z.of_nat n ≤ size →
  ∃ bath',
    membath_alloc_n n bath
    = Some ((λ i, bath_data bath + wrap (i * itemSize))
              <$> seqZ 0 (Z.of_nat n),
            bath') ∧
    bath_length bath' = Z.of_nat n ∧
    (Z.of_nat n = size → membath_alloc bath' = Some (NULL, bath')).
Proof.
  intros Hinit Hsize Hmax Hn.
  assert (bath_filled size bath ∧ bath_length bath = 0 ∧
          bath_itemSize bath = itemSize ∧
          ∃ um, bath_useMap bath = Some um ∧
                Z.of_nat (length um) = bitArray_size size)
    as (Hfilled & Hlen & Hitem & um & Hum & Hwords).
  { revert Hinit. unfold membath_init, calloc, malloc.
    destruct (request h) as [p1 h1]. case_decide; [done|].
    destruct (request h1) as [d h2] eqn:Hd. intros [= Hok <- <-].
    apply bool_decide_eq_true in Hok.
    pose proof (request_positive _ _ _ Hd Hok).
    pose proof (bitArray_size_nonneg size).
    unfold bath_filled. simpl. repeat split; try lia.
    - eexists. split; [done|]. intros j _. apply bit_set_replicate.
    - eexists. split; [done|]. rewrite length_replicate. lia. }
  destruct (membath_alloc_n_filled n size bath um)
    as (bath' & um' & Hrun & Hfilled' & Hlen' & _); [done..|lia|].
  rewrite Hlen, Hitem in Hrun. exists bath'. split; [done|].
  split; [lia|]. intros Hfull. unfold membath_alloc.
  destruct Hfilled' as (Hsize' & _). by rewrite decide_True by lia.
Qed.

Lemma membath_alloc_n_fresh_witness :
  ∃ bath',
    membath_alloc_n 2 (Membath 2 4 0 0 (Some [0]) 1100)
    = Some ((λ i, bath_data (Membath 2 4 0 0 (Some [0]) 1100) + wrap (i * 4))
              <$> seqZ 0 (Z.of_nat 2),
            bath') ∧
    bath_length bath' = Z.of_nat 2 ∧
    (Z.of_nat 2 = 2 → membath_alloc bath' = Some (NULL, bath')).
Proof.
  apply (membath_alloc_n_fresh (zeroed [1000; 1100])
                               (zeroed []) (Membath 0 0 0 0 None NULL)).
  - reflexivity.
  - lia.
  - unfold SIZE_MOD. lia.
  - simpl. lia.
Defined.

(** ** Pools: release *)

Lemma membath_release_outside (bath : membath_s) (p : ptr) :
  outside_bath bath p → membath_release bath p = Some (false, bath).
Proof. intros Hout. unfold membath_release. by rewrite decide_True. Qed.

Lemma release_scan_outside (fuel : nat) (i : Z) (baths : list membath_s)
      (p : ptr) :
  0 ≤ i → i + Z.of_nat fuel ≤ Z.of_nat (length baths) →
  (∀ j bath, i ≤ j → index baths j = Some bath → outside_bath bath p) →
  release_scan fuel i baths p = Some (false, baths).
Proof.
  revert i. induction fuel as [|fuel IH]; intros i Hi Hlen Hout; [done|].
  destruct (index_is_Some baths i) as [bath Hbath]; [lia|].
  cbn [release_scan]. rewrite Hbath. cbn [mbind option_bind].
  rewrite (membath_release_outside bath p) by (apply (Hout i); [lia|done]).
  cbn [mbind option_bind]. rewrite (store_same _ _ _ Hbath).
  cbn [mbind option_bind]. apply IH; [lia|lia|].
  intros j b Hj. apply Hout. lia.
Qed.

Lemma release_scan_first (fuel : nat) (i k : Z) (baths : list membath_s)
      (p : ptr) (bath bath' : membath_s) :
  0 ≤ i ≤ k → k < i + Z.of_nat fuel →
  (∀ j b, i ≤ j < k → index baths j = Some b → outside_bath b p) →
  index baths k = Some bath →
  membath_release bath p = Some (true, bath') →
  release_scan fuel i baths p = Some (true, <[Z.to_nat k := bath']> baths).
Proof.
  revert i. induction fuel as [|fuel IH]; intros i Hi Hk Hout Hbath Hrel;
    [lia|].
  pose proof (index_lt _ _ _ Hbath) as Hlt.
  cbn [release_scan]. destruct (decide (i = k)) as [->|Hne].
  - rewrite Hbath. cbn [mbind option_bind]. rewrite Hrel.
    cbn [mbind option_bind].
    destruct (store_is_Some baths k bath' Hlt) as [baths' Hst].
    rewrite Hst. cbn [mbind option_bind].
    apply store_Some in Hst as [_ ->]. done.
  - destruct (index_is_Some baths i) as [b Hb]; [lia|].
    rewrite Hb. cbn [mbind option_bind].
    rewrite (membath_release_outside b p) by (apply (Hout i); [lia|done]).
    cbn [mbind option_bind]. rewrite (store_same _ _ _ Hb).
    cbn [mbind option_bind]. apply IH; [lia|lia| |done|done].
    intros j b0 Hj. apply Hout. lia.
Qed.

Lemma index_lookup {A : Type} (l : list A) (k : nat) (x : A) :
  l !! k = Some x → index l (Z.of_nat k) = Some x.
Proof. intros Hk. apply index_Some. split; [lia|]. by rewrite Nat2Z.id. Qed.

Lemma release_scan_before (baths : list membath_s) (k : nat) (p : ptr) :
  (∀ (j : nat) b, (j < k)%nat → baths !! j = Some b → outside_bath b p) →
  ∀ j b, 0 ≤ j < Z.of_nat k → index baths j = Some b → outside_bath b p.
Proof.
  intros Hout j b Hj Hb. apply index_Some in Hb as [_ Hb].
  apply (Hout (Z.to_nat j)); [lia|done].
Qed.

(** X13.  [mempool_release] of an address that lies outside of every bath
    of the pool returns [NULL] and leaves the pool as it was. *)
Theorem mempool_release_outside (pool : mempool_s) (p : ptr) :
  pool_length pool = Z.of_nat (length (pool_baths pool)) →
  Forall (λ bath, outside_bath bath p) (pool_baths pool) →
  mempool_release pool p = Some (false, pool).
Proof.
  intros Hlen Hout. unfold mempool_release. case_decide; [done|].
  rewrite release_scan_outside; [by destruct pool|lia|lia|].
  intros j bath _ Hbath. apply index_Some in Hbath as [_ Hbath].
  rewrite Forall_lookup in Hout. by eapply Hout.
Qed.

Lemma mempool_release_outside_witness :
  mempool_release pool_2_baths 1200 = Some (false, pool_2_baths).
Proof.
  apply mempool_release_outside.
  - reflexivity.
  - repeat constructor; unfold outside_bath; unfold wrap, SIZE_MOD; simpl; lia.
Defined.

(** X14.  [mempool_release] of an address inside a bath releases it in the
    first bath that does not refuse it: when the baths before bath [k] do
    not hold the address and bath [k] does, the call returns the pool,
    bath [k] is what [membath_release] makes of it, and no other bath
    changes. *)
Theorem mempool_release_first (pool : mempool_s) (k : nat) (bath : membath_s)
        (p : ptr) :
  pool_length pool = Z.of_nat (length (pool_baths pool)) →
  p ≠ NULL →
  pool_baths pool !! k = Some bath →
  (∀ (j : nat) b, (j < k)%nat → pool_baths pool !! j = Some b →
                  outside_bath b p) →
  bath_wf bath →
  bath_data bath ≤ p < bath_data bath + bath_size bath * bath_itemSize bath →
  ∃ bath',
    membath_release bath p = Some (true, bath') ∧
    mempool_release pool p
    = Some (true,
            Mempool (pool_length pool) (pool_bathSize pool)
                    (pool_itemSize pool) (<[k := bath']> (pool_baths pool))).
Proof.
  intros Hlen Hp Hbath Hout Hwf Hin.
  pose proof Hwf as (Hsize & Hmax & Hitem & Hbytes & um & Hum & Hwords).
  set (item := (p - bath_data bath) `div` bath_itemSize bath).
  assert (0 ≤ item < bath_size bath) as Hitemr.
  { unfold item. split; [apply Z.div_pos; lia|].
    apply Z.div_lt_upper_bound; lia. }
  destruct (bitArray_clear_is_Some um item) as [um1 Hclear];
    [by eapply slot_in_range|].
  assert (∃ bath', membath_release bath p = Some (true, bath'))
    as [bath' Hrel].
  { unfold membath_release. rewrite !wrap_small by lia.
    do 3 (rewrite decide_False by lia).
    rewrite Hum. simpl. fold item. rewrite Hclear. simpl. eauto. }
  exists bath'. split; [done|].
  unfold mempool_release. rewrite decide_False by done.
  pose proof (lookup_lt_Some _ _ _ Hbath) as Hk.
  rewrite (release_scan_first _ 0 (Z.of_nat k) _ p bath bath');
    [by rewrite Nat2Z.id|lia|lia|..|done].
  - intros j b Hj. apply (release_scan_before _ k); [done|lia].
  - by apply index_lookup.
Qed.

Lemma mempool_release_first_witness :
  ∃ bath',
    membath_release (Membath 2 4 1 1 (Some [1]) 1400) 1400
    = Some (true, bath') ∧
    mempool_release pool_2_baths 1400
    = Some (true,
            Mempool 2 2 4 (<[1%nat := bath']> (pool_baths pool_2_baths))).
Proof.
  apply (mempool_release_first pool_2_baths 1).
  - reflexivity.
  - done.
  - reflexivity.
  - intros [|j] b Hj; [|lia]. intros [= <-].
    right. reflexivity.
  - unfold bath_wf, SIZE_MOD. simpl. repeat split; try lia. by eexists.
  - simpl. lia.
Defined.

Lemma release_scan_undefined (fuel : nat) (i k : Z) (baths : list membath_s)
      (p : ptr) (bath : membath_s) :
  0 ≤ i ≤ k → k < i + Z.of_nat fuel →
  (∀ j b, i ≤ j < k → index baths j = Some b → outside_bath b p) →
  index baths k = Some bath →
  membath_release bath p = None →
  release_scan fuel i baths p = None.
Proof.
  revert i. induction fuel as [|fuel IH]; intros i Hi Hk Hout Hbath Hrel;
    [lia|].
  pose proof (index_lt _ _ _ Hbath) as Hlt.
  cbn [release_scan]. destruct (decide (i = k)) as [->|Hne].
  - rewrite Hbath. cbn [mbind option_bind]. by rewrite Hrel.
  - destruct (index_is_Some baths i) as [b Hb]; [lia|].
    rewrite Hb. cbn [mbind option_bind].
    rewrite (membath_release_outside b p) by (apply (Hout i); [lia|done]).
    cbn [mbind option_bind]. rewrite (store_same _ _ _ Hb).
    cbn [mbind option_bind]. apply IH; [lia|lia| |done|done].
    intros j b0 Hj. apply Hout. lia.
Qed.

(** X15.  The address of the end of the storage of a bath is not refused
    by that bath.  When the baths before bath [k] of a pool do not hold
    it, [mempool_release] releases it in bath [k], not in a later bath
    whose storage starts there: [length] of bath [k] goes down by one and
    no slot of it is released.  When the number of items is a multiple of
    32 the call writes after the end of the bit-array. *)
Theorem mempool_release_at_end (pool : mempool_s) (k : nat)
        (bath : membath_s) :
  pool_length pool = Z.of_nat (length (pool_baths pool)) →
  pool_baths pool !! k = Some bath →
  bath_wf bath → 0 < bath_data bath →
  let p := bath_data bath + bath_size bath * bath_itemSize bath in
  (∀ (j : nat) b, (j < k)%nat → pool_baths pool !! j = Some b →
                  outside_bath b p) →
  (bath_size bath `mod` 32 ≠ 0 →
   ∃ bath',
     mempool_release pool p
     = Some (true,
             Mempool (pool_length pool) (pool_bathSize pool)
                     (pool_itemSize pool) (<[k := bath']> (pool_baths pool))) ∧
     bath_length bath' = wrap (bath_length bath - 1) ∧
     ∀ j, 0 ≤ j < bath_size bath → in_use bath' j = in_use bath j) ∧
  (bath_size bath `mod` 32 = 0 → mempool_release pool p = None).
Proof.
  intros Hlen Hbath Hwf Hdata p Hout.
  pose proof Hwf as (Hsize & Hmax & Hitem & Hbytes & um & Hum & Hwords).
  assert (0 ≤ bath_size bath * bath_itemSize bath) as Hprod by nia.
  assert (p ≠ NULL) as Hp by (unfold p, NULL; lia).
  assert ((p - bath_data bath) `div` bath_itemSize bath = bath_size bath)
    as Hitemeq.
  { unfold p.
    replace (bath_data bath + bath_size bath * bath_itemSize bath
             - bath_data bath)
      with (bath_size bath * bath_itemSize bath) by lia.
    apply Z.div_mul. lia. }
  assert (membath_release bath p
          = useMap' ← bitArray_clear um (bath_size bath);
            Some (true,
                  Membath (bath_size bath) (bath_itemSize bath)
                          (wrap (bath_length bath - 1))
                          (if decide (bath_size bath < bath_firstFree bath)
                           then bath_size bath else bath_firstFree bath)
                          (Some useMap') (bath_data bath))) as Hrel.
  { unfold membath_release. rewrite !wrap_small by (unfold p; lia).
    do 3 (rewrite decide_False by (unfold p; lia)).
    rewrite Hum. simpl. by rewrite Hitemeq. }
  pose proof (lookup_lt_Some _ _ _ Hbath) as Hk.
  pose proof (release_scan_before _ k p Hout) as Hbefore.
  pose proof (index_lookup _ _ _ Hbath) as Hidx.
  rewrite (bitArray_size_small _ Hsize Hmax) in Hwords.
  unfold mempool_release. rewrite decide_False by done.
  split; intros Hmod.
  - destruct (bitArray_clear_is_Some um (bath_size bath)) as [um1 Hclear].
    { unfold bitArray_slot, BITARRAY_INTBITS.
      clear -Hsize Hwords Hmod. Z.div_mod_to_equations. lia. }
    rewrite Hclear in Hrel. simpl in Hrel.
    rewrite (release_scan_first (Z.to_nat (pool_length pool)) 0 (Z.of_nat k) _ p bath _
               ltac:(lia) ltac:(lia) Hbefore Hidx Hrel).
    rewrite Nat2Z.id. eexists. split; [done|]. split; [done|].
    intros j Hj. unfold in_use. rewrite Hum. simpl.
    rewrite (bit_set_clear _ _ _ j Hclear).
    by rewrite bool_decide_eq_false_2 by lia.
  - assert (bitArray_clear um (bath_size bath) = None) as Hclear.
    { unfold bitArray_clear.
      destruct (index um _) as [w|] eqn:Hw; [|done].
      apply index_lt in Hw. unfold bitArray_slot, BITARRAY_INTBITS in Hw.
      clear -Hsize Hwords Hmod Hw. Z.div_mod_to_equations. lia. }
    rewrite Hclear in Hrel. simpl in Hrel.
    by rewrite (release_scan_undefined (Z.to_nat (pool_length pool)) 0 (Z.of_nat k) _ p bath
                  ltac:(lia) ltac:(lia) Hbefore Hidx Hrel).
Qed.

Lemma mempool_release_at_end_witness :
  let bath := Membath 2 4 2 1 (Some [3]) 1100 in
  let pool := Mempool 2 2 4 [bath; Membath 2 4 1 1 (Some [1]) 1108] in
  (2 `mod` 32 ≠ 0 →
   ∃ bath',
     mempool_release pool 1108
     = Some (true, Mempool 2 2 4 (<[0%nat := bath']> (pool_baths pool))) ∧
     bath_length bath' = wrap (2 - 1) ∧
     ∀ j, 0 ≤ j < 2 → in_use bath' j = in_use bath j) ∧
  (2 `mod` 32 = 0 → mempool_release pool 1108 = None).
Proof.
  intros bath pool.
  apply (mempool_release_at_end pool 0 bath).
  - reflexivity.
  - reflexivity.
  - unfold bath_wf, SIZE_MOD. simpl. repeat split; try lia. by eexists.
  - simpl. lia.
  - intros j b Hj. lia.
Defined.

(** ** Pools: a refused growth, reset and clear *)

Lemma clear_baths_Some (n : nat) (lo : Z) (baths : list membath_s) :
  0 ≤ lo → lo + Z.of_nat n ≤ Z.of_nat (length baths) →
  ∃ baths', clear_baths n lo baths = Some baths' ∧
            length baths' = length baths ∧
            ∀ j, j < lo → index baths' j = index baths j.
Proof.
  intros Hlo. revert baths. induction n as [|n IH]; intros baths Hlen.
  { by exists baths. }
  cbn [clear_baths].
  destruct (index_is_Some baths (lo + Z.of_nat n)) as [bath Hbath]; [lia|].
  rewrite Hbath. cbn [mbind option_bind].
  destruct (store_is_Some baths (lo + Z.of_nat n) (membath_clear bath))
    as [baths1 Hst]; [lia|].
  rewrite Hst. cbn [mbind option_bind].
  pose proof (store_length _ _ _ _ Hst) as Hlen1.
  destruct (IH baths1) as (baths' & Hrun & Hlen' & Hlow); [lia|].
  exists baths'. split; [done|]. split; [congruence|].
  intros j Hj. rewrite Hlow by done.
  apply (index_store_ne _ _ _ _ _ Hst). lia.
Qed.

Lemma clear_baths_undefined (n : nat) (lo : Z) (baths : list membath_s) :
  Z.of_nat (length baths) ≤ lo + Z.of_nat n →
  clear_baths (S n) lo baths = None.
Proof.
  intros Hout. cbn [clear_baths].
  destruct (index baths _) as [bath|] eqn:Hbath; [|done].
  apply index_lt in Hbath. lia.
Qed.

(** X16.  When [realloc] refuses to grow the array of a pool whose last
    bath is full, [mempool_alloc] returns [NULL] and has counted a bath
    that is not there.  Every later [mempool_alloc], [mempool_clear] and
    [mempool_reset] on the pool then reaches after the end of the array. *)
Theorem mempool_alloc_refused_then (h h1 : heap) (pool : mempool_s)
        (last : membath_s) :
  pool_length pool = Z.of_nat (length (pool_baths pool)) →
  pool_length pool + 1 < SIZE_MOD →
  index (pool_baths pool) (pool_length pool - 1) = Some last →
  bath_size last ≤ bath_length last →
  request h = (NULL, h1) →
  let pool' := Mempool (pool_length pool + 1) (pool_bathSize pool)
                       (pool_itemSize pool) (pool_baths pool) in
  mempool_alloc h pool = Some (NULL, pool', h1) ∧
  (∀ h2, mempool_alloc h2 pool' = None) ∧
  mempool_clear pool' = None ∧
  (∀ order h2, mempool_reset order h2 pool' = None).
Proof.
  intros Hlen Hmax Hlast Hfull Hreq pool'. subst pool'.
  pose proof (index_lt _ _ _ Hlast) as Hlt.
  split; [|split; [|split]].
  - unfold mempool_alloc. rewrite Hlast. cbn [mbind option_bind].
    unfold membath_alloc. rewrite decide_True by done.
    cbn [mbind option_bind]. rewrite (store_same _ _ _ Hlast).
    cbn [mbind option_bind]. rewrite decide_False by (by intros []).
    unfold realloc. rewrite Hreq. rewrite decide_True by done.
    by rewrite wrap_small by lia.
  - intros h2. unfold mempool_alloc. simpl.
    destruct (index (pool_baths pool) (pool_length pool + 1 - 1))
      as [bath|] eqn:Hbath; [|done].
    apply index_lt in Hbath. lia.
  - unfold mempool_clear. simpl.
    replace (Z.to_nat (pool_length pool + 1))
      with (S (Z.to_nat (pool_length pool - 1 + 1))) by lia.
    rewrite clear_baths_undefined by lia. done.
  - intros order h2. unfold mempool_reset. simpl.
    replace (Z.to_nat (pool_length pool + 1 - 1))
      with (S (Z.to_nat (pool_length pool - 1))) by lia.
    rewrite clear_baths_undefined by lia. done.
Qed.

Lemma mempool_alloc_refused_then_witness :
  let pool := Mempool 1 2 4 [bath_2x4_full] in
  let pool' := Mempool (1 + 1) 2 4 [bath_2x4_full] in
  mempool_alloc (zeroed []) pool = Some (NULL, pool', zeroed []) ∧
  (∀ h2, mempool_alloc h2 pool' = None) ∧
  mempool_clear pool' = None ∧
  (∀ order h2, mempool_reset order h2 pool' = None).
Proof.
  intros pool pool'.
  apply (mempool_alloc_refused_then (zeroed []) (zeroed []) pool
                                    bath_2x4_full).
  - reflexivity.
  - unfold SIZE_MOD. simpl. lia.
  - reflexivity.
  - simpl. lia.
  - reflexivity.
Defined.

Lemma membath_reset_Some (order : byte_order) (bath : membath_s)
      (useMap : list Z) :
  bath_useMap bath = Some useMap →
  Z.of_nat (length useMap) = bitArray_size (bath_size bath) →
  ∃ useMap',
    membath_reset order bath
    = Some (Membath (bath_size bath) (bath_itemSize bath) 0 0 (Some useMap')
                    (bath_data bath)) ∧
    length useMap' = length useMap.
Proof.
  intros Hum Hlen.
  pose proof (bitArray_size_nonneg (bath_size bath)) as Hwords.
  unfold membath_reset, bitArray_zeroe. rewrite Hum. simpl.
  destruct (memset_zero order useMap _) as [um'|] eqn:Hset;
    [|by unfold memset_zero in Hset; rewrite decide_True in Hset by lia].
  destruct (memset_zero_index _ _ _ _ Hset) as [Hlen' _].
  simpl. eauto.
Qed.

(** X17.  [mempool_reset] on a pool whose baths all hold their storage
    leaves a pool of one bath, the first one, on which [membath_reset] was
    called: the next [mempool_alloc] returns the address of the first slot
    of that bath.  When [realloc] refuses, the call returns [NULL], the
    pool counts one bath and its first bath is as it was. *)
Theorem mempool_reset_first (order : byte_order) (h h1 : heap)
        (pool : mempool_s) (first : membath_s) (useMap : list Z) (q : ptr) :
  pool_length pool = Z.of_nat (length (pool_baths pool)) →
  Forall (λ bath, is_Some (bath_useMap bath)) (pool_baths pool) →
  index (pool_baths pool) 0 = Some first →
  bath_useMap first = Some useMap →
  Z.of_nat (length useMap) = bitArray_size (bath_size first) →
  request h = (q, h1) →
  (q ≠ NULL →
   ∃ first',
     membath_reset order first = Some first' ∧
     mempool_reset order h pool
     = Some (true,
             Mempool 1 (pool_bathSize pool) (pool_itemSize pool) [first'],
             h1) ∧
     (0 < bath_size first → bath_size first + 31 < SIZE_MOD →
      bath_data first ≠ NULL →
      ∀ h2, ∃ pool'',
        mempool_alloc h2 (Mempool 1 (pool_bathSize pool) (pool_itemSize pool)
                                  [first'])
        = Some (bath_data first, pool'', h2))) ∧
  (q = NULL →
   ∃ baths',
     mempool_reset order h pool
     = Some (false,
             Mempool 1 (pool_bathSize pool) (pool_itemSize pool) baths',
             h1) ∧
     index baths' 0 = Some first).
Proof.
  intros Hlen _ Hfirst Hum Hwords Hreq.
  pose proof (index_lt _ _ _ Hfirst) as Hlt.
  destruct (clear_baths_Some (Z.to_nat (pool_length pool - 1)) 1
                             (pool_baths pool))
    as (baths1 & Hclear & Hlen1 & Hlow); [lia|lia|].
  specialize (Hlow 0 ltac:(lia)). rewrite Hfirst in Hlow.
  unfold mempool_reset. rewrite Hclear. cbn [mbind option_bind].
  unfold realloc. rewrite Hreq. split; intros Hq.
  - rewrite decide_False by done.
    destruct (membath_reset_Some order first useMap Hum Hwords)
      as (um' & Hreset & Hlen').
    eexists. split; [done|].
    destruct baths1 as [|b0 rest]; [done|].
    apply index_Some in Hlow as [_ Hlow]. injection Hlow as ->.
    split.
    { replace (resize 1 (junk_bath h1) (first :: rest)) with [first]
        by (by destruct rest).
      change (index [first] 0) with (Some first). cbn [mbind option_bind].
      rewrite Hreset. reflexivity. }
    intros Hsize Hmax Hdata h2. unfold mempool_alloc. simpl.
    set (first' := Membath _ _ 0 0 _ _).
    destruct (membath_alloc_defined first' um') as [[p bath2] Halloc];
      [simpl; lia|done|done|simpl; lia|right; simpl; lia|].
    rewrite Halloc. simpl.
    pose proof (membath_alloc_address _ _ _ Halloc ltac:(simpl; lia)) as ->.
    simpl. rewrite Z.mul_0_l, wrap_small, Z.add_0_r by (unfold SIZE_MOD; lia).
    rewrite decide_True by done. eauto.
  - rewrite decide_True by done. eauto.
Qed.

Lemma mempool_reset_first_witness :
  (1000 ≠ NULL →
   ∃ first',
     membath_reset BigEndian bath_2x4_full = Some first' ∧
     mempool_reset BigEndian (zeroed [1000]) pool_2_baths
     = Some (true, Mempool 1 2 4 [first'], zeroed []) ∧
     (0 < 2 → 2 + 31 < SIZE_MOD → 1100 ≠ NULL →
      ∀ h2, ∃ pool'',
        mempool_alloc h2 (Mempool 1 2 4 [first'])
        = Some (1100, pool'', h2))) ∧
  (1000 = NULL →
   ∃ baths',
     mempool_reset BigEndian (zeroed [1000]) pool_2_baths
     = Some (false, Mempool 1 2 4 baths', zeroed []) ∧
     index baths' 0 = Some bath_2x4_full).
Proof.
  apply (mempool_reset_first BigEndian (zeroed [1000]) (zeroed [])
                             pool_2_baths bath_2x4_full [3] 1000).
  - reflexivity.
  - repeat constructor; by eexists.
  - reflexivity.
  - reflexivity.
  - reflexivity.
  - reflexivity.
Defined.

Lemma release_scan_nil (fuel : nat) (i : Z) (p : ptr) :
  fuel = O → release_scan fuel i [] p = Some (false, []).
Proof. by intros ->. Qed.

(** X18.  [mempool_clear] on a pool whose [length] is the number of its
    baths, which all hold their storage, leaves a pool without baths.  On
    that pool [mempool_release] refuses every address, and [mempool_alloc]
    reads the bath before the start of an array that is not there. *)
Theorem mempool_clear_empty (pool : mempool_s) :
  pool_length pool = Z.of_nat (length (pool_baths pool)) →
  Forall (λ bath, is_Some (bath_useMap bath)) (pool_baths pool) →
  let pool' := Mempool 0 (pool_bathSize pool) (pool_itemSize pool) [] in
  mempool_clear pool = Some pool' ∧
  (∀ p, mempool_release pool' p = Some (false, pool')) ∧
  (∀ h, mempool_alloc h pool' = None).
Proof.
  intros Hlen _ pool'. split; [|split].
  - unfold mempool_clear.
    destruct (clear_baths_Some (Z.to_nat (pool_length pool)) 0
                               (pool_baths pool))
      as (baths1 & -> & _); [lia|lia|done].
  - intros p. unfold mempool_release. by case_decide.
  - done.
Qed.

Lemma mempool_clear_empty_witness :
  let pool' := Mempool 0 2 4 [] in
  mempool_clear pool_2_baths = Some pool' ∧
  (∀ p, mempool_release pool' p = Some (false, pool')) ∧
  (∀ h, mempool_alloc h pool' = None).
Proof.
  apply (mempool_clear_empty pool_2_baths).
  - reflexivity.
  - repeat constructor; by eexists.
Defined.

(** ** Creeks: the blocks of a creek *)

Lemma memcreek_alloc_wf (creek creek' : memcreek_s) (sz : Z) (p : ptr) :
  creek_wf creek → 0 ≤ sz →
  memcreek_alloc creek sz = (p, creek') →
  creek_wf creek' ∧
  creek_data creek' = creek_data creek ∧
  creek_size creek' = creek_size creek ∧
  ((p = NULL ∧ creek' = creek ∧ creek_size creek - creek_length creek < sz) ∨
   (p = creek_data creek + creek_length creek ∧
    creek_length creek' = creek_length creek + sz)).
Proof.
  intros (Hlen & Hmax & Hdata) Hsz. unfold memcreek_alloc.
  rewrite wrap_small by lia. case_decide as Hroom; intros [= <- <-].
  - unfold creek_wf. eauto 10.
  - rewrite wrap_small by lia. unfold creek_wf. simpl.
    split; [lia|]. split; [done|]. split; [done|]. by right.
Qed.

(** X19.  The blocks that a creek hands out lie in its storage, one after
    the other in the order of the requests, and do not overlap: each
    starts where the block before it ended, at or after the [length] of
    the creek before the requests, and ends at or before its [length]
    after them. *)
Theorem memcreek_alloc_all_disjoint (sizes : list Z) (creek creek' : memcreek_s)
        (ps : list ptr) :
  creek_wf creek → Forall (λ sz, 0 ≤ sz) sizes →
  memcreek_alloc_all sizes creek = (ps, creek') →
  creek_wf creek' ∧
  creek_data creek' = creek_data creek ∧
  creek_size creek' = creek_size creek ∧
  length ps = length sizes ∧
  (∀ (i : nat) p sz,
     ps !! i = Some p → sizes !! i = Some sz → p ≠ NULL →
     creek_data creek + creek_length creek ≤ p ∧
     p + sz ≤ creek_data creek + creek_length creek') ∧
  (∀ (i j : nat) p q sz,
     (i < j)%nat → ps !! i = Some p → ps !! j = Some q →
     sizes !! i = Some sz → p ≠ NULL → q ≠ NULL → p + sz ≤ q).
Proof.
  intros Hwf Hsizes. revert creek creek' ps Hwf.
  induction Hsizes as [|sz sizes Hsz Hsizes IH]; intros creek creek' ps Hwf.
  { intros [= <- <-]. do 4 (split; [done|]). split; by intros []. }
  cbn [memcreek_alloc_all].
  destruct (memcreek_alloc creek sz) as [p creek1] eqn:Halloc.
  destruct (memcreek_alloc_all sizes creek1) as [ps' creek2] eqn:Hrest.
  intros [= <- <-].
  destruct (memcreek_alloc_wf _ _ _ _ Hwf Hsz Halloc)
    as (Hwf1 & Hdata1 & Hsize1 & Hp).
  destruct (IH _ _ _ Hwf1 Hrest)
    as (Hwf2 & Hdata2 & Hsize2 & Hlen2 & Hin & Hord).
  assert (creek_length creek ≤ creek_length creek1 ∧
          (p ≠ NULL → p = creek_data creek + creek_length creek ∧
                      p + sz = creek_data creek + creek_length creek1))
    as [Hgrow Hhead].
  { destruct Hp as [(-> & -> & _)|[-> ->]]; [done|]. split; [lia|].
    intros _. split; lia. }
  assert (creek_length creek1 ≤ creek_length creek2) as Hgrow2.
  { clear -Hrest Hwf1 Hsizes. revert creek1 creek2 ps' Hwf1 Hrest.
    induction Hsizes as [|sz sizes Hsz Hsizes IH]; intros c c' ps Hwf.
    { by intros [= <- <-]. }
    cbn [memcreek_alloc_all].
    destruct (memcreek_alloc c sz) as [p c1] eqn:Halloc.
    destruct (memcreek_alloc_all sizes c1) as [ps' c2] eqn:Hrest.
    intros [= <- <-].
    destruct (memcreek_alloc_wf _ _ _ _ Hwf Hsz Halloc)
      as (Hwf1 & _ & _ & Hp).
    specialize (IH _ _ _ Hwf1 Hrest).
    destruct Hp as [(_ & -> & _)|[_ ?]]; lia. }
  split; [done|]. split; [congruence|]. split; [congruence|].
  split; [simpl; congruence|]. split.
  - intros [|i] p0 sz0; simpl.
    + intros [= <-] [= <-] Hnn. destruct (Hhead Hnn) as [-> Hend]. lia.
    + intros Hp0 Hsz0 Hnn.
      destruct (Hin i p0 sz0 Hp0 Hsz0 Hnn) as [Hlo Hhi].
      rewrite Hdata1 in Hlo, Hhi. lia.
  - intros [|i] [|j] p0 q0 sz0 Hij; simpl; try lia.
    + intros [= <-] Hq0 [= <-] Hnn Hqn. destruct (Hhead Hnn) as [_ Hend].
      apply lookup_lt_Some in Hq0 as Hj. rewrite Hlen2 in Hj.
      destruct (lookup_lt_is_Some_2 sizes j Hj) as [szq Hszq].
      destruct (Hin j q0 szq Hq0 Hszq Hqn) as [Hlo _].
      rewrite Hdata1 in Hlo. lia.
    + apply Hord. lia.
Qed.

Lemma memcreek_alloc_all_disjoint_witness :
  let creek := Memcreek 16 0 1100 in
  let creek' := Memcreek 16 12 1100 in
  let ps := [1100; NULL; 1108] in
  let sizes := [8; 12; 4] in
  creek_wf creek' ∧
  creek_data creek' = creek_data creek ∧
  creek_size creek' = creek_size creek ∧
  length ps = length sizes ∧
  (∀ (i : nat) p sz,
     ps !! i = Some p → sizes !! i = Some sz → p ≠ NULL →
     creek_data creek + creek_length creek ≤ p ∧
     p + sz ≤ creek_data creek + creek_length creek') ∧
  (∀ (i j : nat) p q sz,
     (i < j)%nat → ps !! i = Some p → ps !! j = Some q →
     sizes !! i = Some sz → p ≠ NULL → q ≠ NULL → p + sz ≤ q).
Proof.
  intros creek creek' ps sizes.
  apply (memcreek_alloc_all_disjoint sizes creek creek' ps).
  - unfold creek_wf, SIZE_MOD. simpl. lia.
  - repeat constructor; lia.
  - reflexivity.
Defined.

(** ** Rivers: where a request is served *)

Lemma memcreek_alloc_no_room (creek : memcreek_s) (size : Z) :
  creek_wf creek → creek_size creek - creek_length creek < size →
  memcreek_alloc creek size = (NULL, creek).
Proof.
  intros (Hlen & Hmax & _) Hroom. unfold memcreek_alloc.
  rewrite wrap_small by lia. by rewrite decide_True.
Qed.

Lemma memcreek_alloc_room (creek : memcreek_s) (size : Z) :
  0 ≤ creek_length creek ≤ creek_size creek → creek_size creek < SIZE_MOD →
  0 ≤ size ≤ creek_size creek - creek_length creek →
  memcreek_alloc creek size
  = (creek_data creek + creek_length creek,
     Memcreek (creek_size creek) (creek_length creek + size)
              (creek_data creek)).
Proof.
  intros Hlen Hmax Hroom. unfold memcreek_alloc.
  rewrite !wrap_small by lia. by rewrite decide_False by lia.
Qed.

(** The loop of [memriver_alloc] over creeks without room. *)
Lemma scan_creeks_no_room (n : nat) (creeks : list memcreek_s) (size : Z) :
  (n ≤ length creeks)%nat →
  (∀ (j : nat) c, (j < n)%nat → creeks !! j = Some c →
                  creek_wf c ∧ creek_size c - creek_length c < size) →
  scan_creeks n creeks size = Some (NULL, creeks).
Proof.
  induction n as [|n IH]; intros Hn Hfull; [done|].
  destruct (lookup_lt_is_Some_2 creeks n) as [c Hc]; [lia|].
  destruct (Hfull n c) as [Hwf Hroom]; [lia|done|].
  cbn [scan_creeks]. unfold alloc_at.
  rewrite (index_lookup _ _ _ Hc). cbn [mbind option_bind].
  rewrite memcreek_alloc_no_room by done.
  rewrite (store_same _ _ _ (index_lookup _ _ _ Hc)).
  cbn [mbind option_bind]. rewrite decide_False by (by intros []).
  apply IH; [lia|]. intros j c' Hj. apply Hfull. lia.
Qed.

Lemma scan_creeks_last_fit (n k : nat) (creeks : list memcreek_s)
      (creek : memcreek_s) (size : Z) :
  (k < n ≤ length creeks)%nat →
  creeks !! k = Some creek → creek_wf creek →
  0 ≤ size ≤ creek_size creek - creek_length creek →
  (∀ (j : nat) c, (k < j < n)%nat → creeks !! j = Some c →
                  creek_wf c ∧ creek_size c - creek_length c < size) →
  scan_creeks n creeks size
  = Some (creek_data creek + creek_length creek,
          <[k := Memcreek (creek_size creek) (creek_length creek + size)
                          (creek_data creek)]> creeks).
Proof.
  intros Hk Hcreek Hwf Hroom. pose proof Hwf as (Hlen & Hmax & Hdata).
  induction n as [|n IH]; intros Hfull; [lia|].
  cbn [scan_creeks]. unfold alloc_at.
  destruct (decide (n = k)) as [->|Hne].
  - rewrite (index_lookup _ _ _ Hcreek). cbn [mbind option_bind].
    rewrite memcreek_alloc_room by done.
    destruct (store_is_Some creeks (Z.of_nat k)
                (Memcreek (creek_size creek) (creek_length creek + size)
                          (creek_data creek))) as [creeks' Hst]; [lia|].
    rewrite Hst. cbn [mbind option_bind].
    rewrite decide_True by (unfold NULL; lia).
    apply store_Some in Hst as [_ ->]. by rewrite Nat2Z.id.
  - destruct (lookup_lt_is_Some_2 creeks n) as [c Hc]; [lia|].
    destruct (Hfull n c) as [Hwfc Hroomc]; [lia|done|].
    rewrite (index_lookup _ _ _ Hc). cbn [mbind option_bind].
    rewrite memcreek_alloc_no_room by done.
    rewrite (store_same _ _ _ (index_lookup _ _ _ Hc)).
    cbn [mbind option_bind]. rewrite decide_False by (by intros []).
    apply IH; [lia|]. intros j c' Hj. apply Hfull. lia.
Qed.

(** [addCreek] with a [realloc] that grants, and the allocation from the
    creek it added; [d] is what [malloc] returned for the storage of the
    creek. *)
Lemma alloc_added_granted (h h1 h2 : heap) (riv : memriver_s)
      (creekSize size : Z) (q d : ptr) :
  riv_length riv = Z.of_nat (length (riv_creeks riv)) →
  riv_length riv + 1 < SIZE_MOD →
  request h = (q, h1) → q ≠ NULL → request h1 = (d, h2) →
  0 ≤ size ≤ creekSize → creekSize < SIZE_MOD →
  alloc_added h riv creekSize size
  = Some (d,
          Memriver (riv_length riv + 1) (riv_creekSize riv)
                   (riv_creeks riv ++ [Memcreek creekSize size d]),
          h2).
Proof.
  intros Hlen Hmax Hq Hqn Hd Hsize Hcs.
  unfold alloc_added, addCreek, realloc. rewrite Hq.
  rewrite decide_False by done.
  unfold memcreek_init, malloc. rewrite Hd.
  rewrite (wrap_small (riv_length riv + 1)) by lia.
  assert (resize (Z.to_nat (riv_length riv + 1)) (junk_creek h1)
                 (riv_creeks riv)
          = riv_creeks riv ++ [junk_creek h1]) as ->.
  { rewrite resize_ge by lia.
    by replace (Z.to_nat (riv_length riv + 1) - length (riv_creeks riv))%nat
      with 1%nat by lia. }
  assert (Z.to_nat (riv_length riv + 1 - 1)
          = (length (riv_creeks riv) + 0)%nat) as Hplace by lia.
  unfold store at 1. rewrite length_app. simpl.
  rewrite decide_True by lia. cbn [mbind option_bind].
  rewrite Hplace, insert_app_r. simpl.
  unfold alloc_at, index. rewrite decide_True by lia.
  rewrite Hplace, lookup_app_r by lia.
  replace (length (riv_creeks riv) + 0 - length (riv_creeks riv))%nat
    with 0%nat by lia.
  simpl. rewrite memcreek_alloc_room by (simpl; lia). simpl.
  unfold store. rewrite length_app. simpl. rewrite decide_True by lia.
  simpl. rewrite Hplace, insert_app_r. simpl.
  by rewrite Z.add_0_r.
Qed.

(** X20.  A request of at most [creekSize] bytes is served from the last
    creek of the river that has room for it: the call returns the address
    after the occupied part of that creek, adds the size to its [length],
    and changes no other creek and not the allocator. *)
Theorem memriver_alloc_last_fit (h : heap) (riv : memriver_s) (k : nat)
        (creek : memcreek_s) (size : Z) :
  river_wf riv → 0 ≤ size ≤ riv_creekSize riv →
  riv_creeks riv !! k = Some creek →
  size ≤ creek_size creek - creek_length creek →
  (∀ (j : nat) c, (k < j)%nat → riv_creeks riv !! j = Some c →
                  creek_size c - creek_length c < size) →
  memriver_alloc h riv size
  = Some (creek_data creek + creek_length creek,
          Memriver (riv_length riv) (riv_creekSize riv)
                   (<[k := Memcreek (creek_size creek)
                                    (creek_length creek + size)
                                    (creek_data creek)]> (riv_creeks riv)),
          h).
Proof.
  intros (Hlen & Hmax & Hwf) Hsize Hcreek Hroom Hlater.
  rewrite Forall_lookup in Hwf.
  pose proof (Hwf _ _ Hcreek) as Hwfc.
  pose proof Hwfc as (Hclen & _ & Hdata).
  pose proof (lookup_lt_Some _ _ _ Hcreek) as Hk.
  unfold memriver_alloc. rewrite decide_False by lia.
  rewrite (scan_creeks_last_fit (Z.to_nat (riv_length riv)) k
             (riv_creeks riv) creek size ltac:(lia) Hcreek Hwfc ltac:(lia)).
  - cbn [mbind option_bind]. by rewrite decide_False by (unfold NULL; lia).
  - intros j c Hj Hc. split; [by eapply Hwf|]. apply (Hlater j); [lia|done].
Qed.

Lemma memriver_alloc_last_fit_witness :
  let riv := Memriver 2 16 [Memcreek 16 4 1100; Memcreek 16 12 1200] in
  memriver_alloc (zeroed []) riv 8
  = Some (1100 + 4,
          Memriver 2 16 (<[0%nat := Memcreek 16 (4 + 8) 1100]>
                           (riv_creeks riv)),
          zeroed []).
Proof.
  intros riv.
  apply (memriver_alloc_last_fit (zeroed []) riv 0 (Memcreek 16 4 1100) 8).
  - unfold river_wf, creek_wf, SIZE_MOD. simpl.
    split; [done|]. split; [lia|]. repeat constructor; simpl; lia.
  - simpl. lia.
  - reflexivity.
  - simpl. lia.
  - intros [|[|j]] c Hj; [lia| |done]. intros [= <-]. simpl. lia.
Defined.

(** X21.  When no creek of the river has room for a request of at most
    [creekSize] bytes and [realloc] grants the larger array, the call
    appends one creek of [creekSize] bytes, changes no other creek, and
    returns what [malloc] returned for the storage of the new creek, of
    which the request is the first block.  When that [malloc] refused,
    the call returns [NULL] and the river keeps a creek without storage
    that counts the request as served. *)
Theorem memriver_alloc_grows (h h1 h2 : heap) (riv : memriver_s) (size : Z)
        (q d : ptr) :
  river_wf riv → 0 ≤ size ≤ riv_creekSize riv → riv_creekSize riv < SIZE_MOD →
  Forall (λ c, creek_size c - creek_length c < size) (riv_creeks riv) →
  request h = (q, h1) → q ≠ NULL → request h1 = (d, h2) →
  memriver_alloc h riv size
  = Some (d,
          Memriver (riv_length riv + 1) (riv_creekSize riv)
                   (riv_creeks riv ++ [Memcreek (riv_creekSize riv) size d]),
          h2).
Proof.
  intros (Hlen & Hmax & Hwf) Hsize Hcs Hfull Hq Hqn Hd.
  rewrite Forall_lookup in Hwf. rewrite Forall_lookup in Hfull.
  unfold memriver_alloc. rewrite decide_False by lia.
  rewrite scan_creeks_no_room; [|lia|].
  - cbn [mbind option_bind]. rewrite decide_True by done.
    by rewrite (alloc_added_granted h h1 h2 _ _ _ q d).
  - intros j c _ Hc. split; [by eapply Hwf|by eapply Hfull].
Qed.

Lemma memriver_alloc_grows_witness :
  memriver_alloc (zeroed [1000; 1300])
                 (Memriver 2 16 [Memcreek 16 12 1100; Memcreek 16 12 1200]) 8
  = Some (1300,
          Memriver (2 + 1) 16
                   ([Memcreek 16 12 1100; Memcreek 16 12 1200]
                    ++ [Memcreek 16 8 1300]),
          zeroed []).
Proof.
  apply (memriver_alloc_grows
           (zeroed [1000; 1300]) (zeroed [1300]) (zeroed [])
           (Memriver 2 16 [Memcreek 16 12 1100; Memcreek 16 12 1200])
           8 1000 1300).
  - unfold river_wf, creek_wf, SIZE_MOD. simpl.
    split; [done|]. split; [lia|]. repeat constructor; simpl; lia.
  - simpl. lia.
  - unfold SIZE_MOD. simpl. lia.
  - repeat constructor; simpl; lia.
  - reflexivity.
  - done.
  - reflexivity.
Defined.

(** ** Rivers: reset, clear and what the allocator refused *)

Lemma clear_creeks_Some (n : nat) (lo : Z) (creeks : list memcreek_s) :
  0 ≤ lo → lo + Z.of_nat n ≤ Z.of_nat (length creeks) →
  ∃ creeks', clear_creeks n lo creeks = Some creeks' ∧
             length creeks' = length creeks ∧
             ∀ j, j < lo → index creeks' j = index creeks j.
Proof.
  intros Hlo. revert creeks. induction n as [|n IH]; intros creeks Hlen.
  { by exists creeks. }
  cbn [clear_creeks].
  destruct (index_is_Some creeks (lo + Z.of_nat n)) as [creek Hcreek]; [lia|].
  rewrite Hcreek. cbn [mbind option_bind].
  destruct (store_is_Some creeks (lo + Z.of_nat n) (memcreek_clear creek))
    as [creeks1 Hst]; [lia|].
  rewrite Hst. cbn [mbind option_bind].
  pose proof (store_length _ _ _ _ Hst) as Hlen1.
  destruct (IH creeks1) as (creeks' & Hrun & Hlen' & Hlow); [lia|].
  exists creeks'. split; [done|]. split; [congruence|].
  intros j Hj. rewrite Hlow by done.
  apply (index_store_ne _ _ _ _ _ Hst). lia.
Qed.

Lemma clear_creeks_undefined (n : nat) (lo : Z) (creeks : list memcreek_s) :
  Z.of_nat (length creeks) ≤ lo + Z.of_nat n →
  clear_creeks (S n) lo creeks = None.
Proof.
  intros Hout. cbn [clear_creeks].
  destruct (index creeks _) as [creek|] eqn:Hcreek; [|done].
  apply index_lt in Hcreek. lia.
Qed.

Lemma memcreek_alloc_same (creek creek' : memcreek_s) (size : Z) (p : ptr) :
  memcreek_alloc creek size = (p, creek') →
  creek_size creek' = creek_size creek ∧ creek_data creek' = creek_data creek.
Proof. unfold memcreek_alloc. by case_decide; intros [= <- <-]. Qed.

(** The loop of [memriver_alloc] keeps the number of creeks, and the size
    and the storage of the first one. *)
Lemma scan_creeks_first (n : nat) (creeks creeks' : list memcreek_s)
      (size : Z) (ret : ptr) (first : memcreek_s) :
  scan_creeks n creeks size = Some (ret, creeks') →
  index creeks 0 = Some first →
  length creeks' = length creeks ∧
  ∃ first', index creeks' 0 = Some first' ∧
            creek_size first' = creek_size first ∧
            creek_data first' = creek_data first.
Proof.
  revert creeks first. induction n as [|n IH]; intros creeks first; simpl.
  { intros [= <- <-] Hfirst. eauto. }
  destruct (alloc_at creeks (Z.of_nat n) size) as [[ret1 creeks1]|] eqn:Hat;
    [|done].
  simpl. apply alloc_at_Some in Hat as (creek & creek' & Hcreek & Halloc & Hst).
  intros Hrest Hfirst.
  pose proof (store_length _ _ _ _ Hst) as Hlen1.
  assert (∃ first1, index creeks1 0 = Some first1 ∧
                    creek_size first1 = creek_size first ∧
                    creek_data first1 = creek_data first)
    as (first1 & Hfirst1 & Hsize1 & Hdata1).
  { destruct (decide (Z.of_nat n = 0)) as [Heq|Hne].
    - rewrite Heq in *. rewrite Hfirst in Hcreek. injection Hcreek as <-.
      exists creek'. split; [by eapply index_store_eq|].
      by eapply memcreek_alloc_same.
    - exists first. by rewrite (index_store_ne _ _ _ _ _ Hst Hne). }
  case_decide.
  - injection Hrest as <- <-. eauto.
  - destruct (IH _ _ Hrest Hfirst1) as (Hlen' & first' & Hf' & Hs' & Hd').
    split; [congruence|]. exists first'. split; [done|].
    split; congruence.
Qed.

Lemma alloc_added_creekSize (h h' : heap) (riv riv' : memriver_s)
      (creekSize size : Z) (p : ptr) :
  alloc_added h riv creekSize size = Some (p, riv', h') →
  riv_creekSize riv' = riv_creekSize riv.
Proof.
  unfold alloc_added, addCreek, realloc.
  destruct (request h) as [crks h1]. case_decide.
  { simpl. by intros [= <- <- <-]. }
  unfold memcreek_init, malloc. destruct (request h1) as [d h2].
  destruct (store _ _ _) as [creeks2|]; [|done]. simpl.
  destruct (alloc_at _ _ _) as [[ret creeks3]|]; [|done].
  simpl. by intros [= <- <- <-].
Qed.

(** A call of [memriver_alloc] that returned an address keeps the size of
    the creeks, the size and the storage of the first creek, and a
    [length] that counts the creeks. *)
Lemma memriver_alloc_first (h h' : heap) (riv riv' : memriver_s)
      (size : Z) (p : ptr) (first : memcreek_s) :
  riv_length riv = Z.of_nat (length (riv_creeks riv)) →
  riv_length riv < SIZE_MOD →
  index (riv_creeks riv) 0 = Some first →
  memriver_alloc h riv size = Some (p, riv', h') → p ≠ NULL →
  riv_length riv' = Z.of_nat (length (riv_creeks riv')) ∧
  riv_length riv' < SIZE_MOD ∧
  riv_creekSize riv' = riv_creekSize riv ∧
  ∃ first', index (riv_creeks riv') 0 = Some first' ∧
            creek_size first' = creek_size first ∧
            creek_data first' = creek_data first.
Proof.
  intros Hlen Hmax Hfirst Halloc Hp.
  assert (∀ h riv1 creekSize first1,
            riv_length riv1 = Z.of_nat (length (riv_creeks riv1)) →
            riv_length riv1 < SIZE_MOD →
            index (riv_creeks riv1) 0 = Some first1 →
            alloc_added h riv1 creekSize size = Some (p, riv', h') →
            riv_length riv' = Z.of_nat (length (riv_creeks riv')) ∧
            riv_length riv' < SIZE_MOD ∧
            riv_creekSize riv' = riv_creekSize riv1 ∧
            index (riv_creeks riv') 0 = Some first1) as Hadded.
  { intros h0 riv1 creekSize first1 Hlen1 Hmax1 Hfirst1 Hadd.
    pose proof (alloc_added_creekSize _ _ _ _ _ _ _ Hadd) as Hcs.
    apply alloc_added_Some in Hadd
        as [[-> _]|(creek & creek' & _ & Happ & Hlen' & Hmax')];
      [done| |done..].
    rewrite Happ, length_app. simpl. split; [lia|]. split; [done|].
    split; [done|]. apply index_Some in Hfirst1 as [_ Hfirst1].
    apply index_Some. split; [done|].
    apply lookup_app_l_Some. done. }
  revert Halloc. unfold memriver_alloc. case_decide.
  { intros Hadd.
    destruct (Hadded _ _ _ _ Hlen Hmax Hfirst Hadd) as (? & ? & ? & ?).
    eauto 10. }
  destruct (scan_creeks _ _ _) as [[ret creeks1]|] eqn:Hscan; [|done]. simpl.
  destruct (scan_creeks_first _ _ _ _ _ _ Hscan Hfirst)
    as (Hlen1 & first1 & Hfirst1 & Hsize1 & Hdata1).
  case_decide.
  - intros Hadd.
    destruct (Hadded _ (Memriver (riv_length riv) (riv_creekSize riv)
                                 creeks1) _ first1
                     ltac:(simpl; lia) Hmax Hfirst1 Hadd)
      as (? & ? & ? & ?).
    eauto 10.
  - intros [= <- <- <-]. simpl. split; [lia|]. eauto 10.
Qed.

Lemma memriver_alloc_all_first (sizes : list Z) (h h' : heap)
      (riv riv' : memriver_s) (ps : list ptr) (first : memcreek_s) :
  riv_length riv = Z.of_nat (length (riv_creeks riv)) →
  riv_length riv < SIZE_MOD →
  index (riv_creeks riv) 0 = Some first →
  memriver_alloc_all sizes h riv = Some (ps, riv', h') →
  Forall (λ p, p ≠ NULL) ps →
  riv_length riv' = Z.of_nat (length (riv_creeks riv')) ∧
  riv_creekSize riv' = riv_creekSize riv ∧
  ∃ first', index (riv_creeks riv') 0 = Some first' ∧
            creek_size first' = creek_size first ∧
            creek_data first' = creek_data first.
Proof.
  revert h riv ps first.
  induction sizes as [|size sizes IH]; intros h riv ps first Hlen Hmax Hfirst.
  { intros [= <- <- <-] _. eauto 10. }
  cbn [memriver_alloc_all].
  destruct (memriver_alloc h riv size) as [[[p riv1] h1]|] eqn:Halloc;
    [|done].
  cbn [mbind option_bind].
  destruct (memriver_alloc_all sizes h1 riv1) as [[[ps' riv2] h2]|] eqn:Hrest;
    [|done].
  cbn [mbind option_bind]. intros [= <- <- <-]. inversion_clear 1 as [|? ? Hp Hps].
  destruct (memriver_alloc_first _ _ _ _ _ _ _ Hlen Hmax Hfirst Halloc Hp)
    as (Hlen1 & Hmax1 & Hcs1 & first1 & Hfirst1 & Hsize1 & Hdata1).
  destruct (IH _ _ _ _ Hlen1 Hmax1 Hfirst1 Hrest Hps)
    as (Hlen2 & Hcs2 & first2 & Hfirst2 & Hsize2 & Hdata2).
  split; [done|]. split; [congruence|]. exists first2.
  split; [done|]. split; congruence.
Qed.

(** X22.  [memriver_reset] after any run of requests that were all served
    gives back the river that [memriver_init] made: one creek, with the
    storage of the first creek and nothing of it occupied. *)
Theorem memriver_reset_init (h0 h1 h2 h3 : heap) (creekSize : Z)
        (riv0 riv : memriver_s) (sizes : list Z) (ps : list ptr) (q : ptr) :
  memriver_init h0 creekSize = (true, riv0, h1) →
  memriver_alloc_all sizes h1 riv0 = Some (ps, riv, h2) →
  Forall (λ p, p ≠ NULL) ps →
  request h2 = (q, h3) → q ≠ NULL →
  memriver_reset h2 riv = Some (true, riv0, h3).
Proof.
  intros Hinit Hrun Hps Hq Hqn.
  assert (∃ d, riv0 = Memriver 1 creekSize [Memcreek creekSize 0 d])
    as [d ->].
  { revert Hinit. unfold memriver_init, malloc.
    destruct (request h0) as [crks h01]. case_decide; [done|].
    unfold memcreek_init, malloc. destruct (request h01) as [d h02].
    intros [= <- <-]. eauto. }
  destruct (memriver_alloc_all_first
              sizes h1 h2
              (Memriver 1 creekSize [Memcreek creekSize 0 d]) riv ps
              (Memcreek creekSize 0 d))
    as (Hlen & Hcs & first & Hfirst & Hsize & Hdata); [done..|].
  simpl in Hcs, Hsize, Hdata.
  pose proof (index_lt _ _ _ Hfirst) as Hlt.
  destruct (clear_creeks_Some (Z.to_nat (riv_length riv - 1)) 1
                              (riv_creeks riv))
    as (creeks1 & Hclear & Hlen1 & Hlow); [lia|lia|].
  specialize (Hlow 0 ltac:(lia)). rewrite Hfirst in Hlow.
  unfold memriver_reset. rewrite Hclear. cbn [mbind option_bind].
  unfold realloc. rewrite Hq. rewrite decide_False by done.
  destruct creeks1 as [|c0 rest]; [done|].
  apply index_Some in Hlow as [_ Hlow]. injection Hlow as ->.
  replace (resize 1 (junk_creek h3) (first :: rest)) with [first]
    by (by destruct rest).
  change (index [first] 0) with (Some first). cbn [mbind option_bind].
  unfold memcreek_reset. rewrite Hcs, Hsize, Hdata. reflexivity.
Qed.

Lemma memriver_reset_init_witness :
  memriver_reset (zeroed [1400])
                 (Memriver 3 16 [Memcreek 16 12 1100; Memcreek 20 20 1200;
                                 Memcreek 16 8 1300])
  = Some (true, Memriver 1 16 [Memcreek 16 0 1100], zeroed []).
Proof.
  apply (memriver_reset_init
           (zeroed [1000; 1100; 1001; 1200; 1002; 1300; 1400])
           (zeroed [1001; 1200; 1002; 1300; 1400])
           (zeroed [1400]) (zeroed []) 16
           (Memriver 1 16 [Memcreek 16 0 1100])
           (Memriver 3 16 [Memcreek 16 12 1100; Memcreek 20 20 1200;
                           Memcreek 16 8 1300])
           [12; 20; 8] [1100; 1200; 1300] 1400).
  - reflexivity.
  - reflexivity.
  - repeat constructor; done.
  - reflexivity.
  - done.
Defined.

(** X23.  [memriver_clear] on a river whose [length] is the number of its
    creeks leaves a river without creeks, and that river can be used
    again: the next request makes its first creek, of [creekSize] bytes
    or of the size of the request if that is larger, and is served from
    the start of it. *)
Theorem memriver_clear_alloc (h h1 h2 : heap) (riv : memriver_s) (size : Z)
        (q d : ptr) :
  riv_length riv = Z.of_nat (length (riv_creeks riv)) →
  0 ≤ size < SIZE_MOD → 0 ≤ riv_creekSize riv < SIZE_MOD →
  request h = (q, h1) → q ≠ NULL → request h1 = (d, h2) →
  let riv' := Memriver 0 (riv_creekSize riv) [] in
  memriver_clear riv = Some riv' ∧
  memriver_alloc h riv' size
  = Some (d,
          Memriver 1 (riv_creekSize riv)
                   [Memcreek (Z.max size (riv_creekSize riv)) size d],
          h2).
Proof.
  intros Hlen Hsize Hcs Hq Hqn Hd riv'. subst riv'. split.
  - unfold memriver_clear.
    destruct (clear_creeks_Some (Z.to_nat (riv_length riv)) 0
                                (riv_creeks riv))
      as (creeks1 & -> & _); [lia|lia|done].
  - assert (1 < SIZE_MOD) as Hone by done.
    unfold memriver_alloc. simpl. case_decide.
    + rewrite (alloc_added_granted h h1 h2 _ _ _ q d);
        [|done|simpl; lia|done|done|done|lia|lia].
      simpl. by rewrite Z.max_l by lia.
    + rewrite (alloc_added_granted h h1 h2 _ _ _ q d);
        [|done|simpl; lia|done|done|done|simpl; lia|simpl; lia].
      simpl. by rewrite Z.max_r by lia.
Qed.

Lemma memriver_clear_alloc_witness :
  let riv := Memriver 2 16 [Memcreek 16 12 1100; Memcreek 16 12 1200] in
  let riv' := Memriver 0 16 [] in
  memriver_clear riv = Some riv' ∧
  memriver_alloc (zeroed [1000; 1300]) riv' 20
  = Some (1300, Memriver 1 16 [Memcreek (Z.max 20 16) 20 1300], zeroed []).
Proof.
  intros riv.
  apply (memriver_clear_alloc (zeroed [1000; 1300]) (zeroed [1300])
                              (zeroed []) riv 20 1000 1300).
  - reflexivity.
  - unfold SIZE_MOD. lia.
  - unfold SIZE_MOD. simpl. lia.
  - reflexivity.
  - done.
  - reflexivity.
Defined.

Lemma alloc_at_room (creeks : list memcreek_s) (i : Z) (creek : memcreek_s)
      (size : Z) :
  index creeks i = Some creek →
  0 ≤ creek_length creek ≤ creek_size creek → creek_size creek < SIZE_MOD →
  0 ≤ size ≤ creek_size creek - creek_length creek →
  alloc_at creeks i size
  = Some (creek_data creek + creek_length creek,
          <[Z.to_nat i := Memcreek (creek_size creek)
                                   (creek_length creek + size)
                                   (creek_data creek)]> creeks).
Proof.
  intros Hcreek Hlen Hmax Hroom. unfold alloc_at. rewrite Hcreek.
  cbn [mbind option_bind]. rewrite memcreek_alloc_room by done.
  pose proof (index_lt _ _ _ Hcreek) as Hi.
  unfold store. by rewrite decide_True by done.
Qed.

(** X24.  [memriver_init] and [addCreek] do not look at the result of
    [memcreek_init].  When [malloc] grants the arrays and refuses the
    storage of the creeks, [memriver_init] returns the river; a first
    request of [size1] bytes returns [NULL]; and a second request that
    fits beside it returns the number [size1] as an address: the offset
    in a creek that has no storage. *)
Theorem memriver_alloc_without_storage (h h1 h2 h3 h4 : heap)
        (creekSize size1 size2 : Z) (q1 q2 : ptr) :
  request h = (q1, h1) → q1 ≠ NULL → request h1 = (NULL, h2) →
  request h2 = (q2, h3) → q2 ≠ NULL → request h3 = (NULL, h4) →
  0 < size1 → 0 ≤ size2 → size1 + size2 ≤ creekSize → creekSize < SIZE_MOD →
  ∃ riv0 riv1 riv2 h5,
    memriver_init h creekSize = (true, riv0, h2) ∧
    memriver_alloc h2 riv0 size1 = Some (NULL, riv1, h4) ∧
    memriver_alloc h4 riv1 size2 = Some (size1, riv2, h5).
Proof.
  intros Hq1 Hq1n Hd1 Hq2 Hq2n Hd2 Hs1 Hs2 Hfit Hcs.
  assert (1 + 1 < SIZE_MOD) as Hone by done.
  exists (Memriver 1 creekSize [Memcreek creekSize 0 NULL]),
         (Memriver 2 creekSize [Memcreek creekSize size1 NULL;
                                Memcreek creekSize size1 NULL]),
         (Memriver 2 creekSize [Memcreek creekSize size1 NULL;
                                Memcreek creekSize (size1 + size2) NULL]),
         h4.
  split; [|split].
  - unfold memriver_init, malloc. rewrite Hq1.
    rewrite decide_False by done.
    unfold memcreek_init, malloc. rewrite Hd1. reflexivity.
  - unfold memriver_alloc. cbn [riv_creekSize riv_length riv_creeks].
    rewrite decide_False by lia.
    change (Z.to_nat 1) with 1%nat. cbn [scan_creeks].
    rewrite (alloc_at_room _ _ (Memcreek creekSize 0 NULL));
      [|done|simpl; lia..].
    cbn [mbind option_bind]. rewrite decide_False by (by intros []).
    cbn [mbind option_bind]. rewrite decide_True by done.
    rewrite (alloc_added_granted h2 h3 h4 _ _ _ q2 NULL);
      [reflexivity|done|simpl; lia|done|done|done|lia|lia].
  - unfold memriver_alloc. cbn [riv_creekSize riv_length riv_creeks].
    rewrite decide_False by lia.
    change (Z.to_nat 2) with 2%nat. cbn [scan_creeks].
    rewrite (alloc_at_room _ _ (Memcreek creekSize size1 NULL));
      [|done|simpl; lia..].
    cbn [mbind option_bind].
    rewrite decide_True by (simpl; unfold NULL; lia).
    cbn [mbind option_bind].
    rewrite decide_False by (simpl; unfold NULL; lia).
    reflexivity.
Qed.

Lemma memriver_alloc_without_storage_witness :
  ∃ riv0 riv1 riv2 h5,
    memriver_init (zeroed [1000; 0; 1001; 0]) 16
    = (true, riv0, zeroed [1001; 0]) ∧
    memriver_alloc (zeroed [1001; 0]) riv0 4 = Some (NULL, riv1, zeroed []) ∧
    memriver_alloc (zeroed []) riv1 8 = Some (4, riv2, h5).
Proof.
  apply (memriver_alloc_without_storage
           (zeroed [1000; 0; 1001; 0]) (zeroed [0; 1001; 0])
           (zeroed [1001; 0]) (zeroed [0]) (zeroed []) 16 4 8 1000 1001).
  - reflexivity.
  - done.
  - reflexivity.
  - reflexivity.
  - done.
  - reflexivity.
  - lia.
  - lia.
  - lia.
  - unfold SIZE_MOD. lia.
Defined.

(** X25.  When [realloc] refuses to grow the array of a river,
    [memriver_alloc] returns [NULL] and has counted a creek that is not
    there.  Every later request of at most [creekSize] bytes, every
    [memriver_clear] and every [memriver_reset] on the river then reaches
    after the end of the array. *)
Theorem memriver_alloc_refused_then (h h1 : heap) (riv : memriver_s)
        (size : Z) :
  riv_length riv = Z.of_nat (length (riv_creeks riv)) →
  1 ≤ riv_length riv → riv_length riv + 1 < SIZE_MOD →
  riv_creekSize riv < size →
  request h = (NULL, h1) →
  let riv' := Memriver (riv_length riv + 1) (riv_creekSize riv)
                       (riv_creeks riv) in
  memriver_alloc h riv size = Some (NULL, riv', h1) ∧
  (∀ h2 size2, size2 ≤ riv_creekSize riv →
               memriver_alloc h2 riv' size2 = None) ∧
  memriver_clear riv' = None ∧
  (∀ h2, memriver_reset h2 riv' = None).
Proof.
  intros Hlen Hone Hmax Hsize Hreq riv'. subst riv'.
  split; [|split; [|split]].
  - unfold memriver_alloc. rewrite decide_True by done.
    unfold alloc_added, addCreek, realloc. rewrite Hreq.
    rewrite decide_True by done. simpl.
    by rewrite wrap_small by lia.
  - intros h2 size2 Hsize2. unfold memriver_alloc. simpl.
    rewrite decide_False by lia.
    replace (Z.to_nat (riv_length riv + 1))
      with (S (length (riv_creeks riv))) by lia.
    cbn [scan_creeks]. unfold alloc_at.
    destruct (index (riv_creeks riv) (Z.of_nat (length (riv_creeks riv))))
      as [creek|] eqn:Hcreek; [|done].
    apply index_lt in Hcreek. lia.
  - unfold memriver_clear. simpl.
    replace (Z.to_nat (riv_length riv + 1))
      with (S (Z.to_nat (riv_length riv - 1 + 1))) by lia.
    rewrite clear_creeks_undefined by lia. done.
  - intros h2. unfold memriver_reset. simpl.
    replace (Z.to_nat (riv_length riv + 1 - 1))
      with (S (Z.to_nat (riv_length riv - 1))) by lia.
    rewrite clear_creeks_undefined by lia. done.
Qed.

Lemma memriver_alloc_refused_then_witness :
  let riv := Memriver 1 16 [Memcreek 16 0 1100] in
  let riv' := Memriver (1 + 1) 16 [Memcreek 16 0 1100] in
  memriver_alloc (zeroed []) riv 20 = Some (NULL, riv', zeroed []) ∧
  (∀ h2 size2, size2 ≤ 16 → memriver_alloc h2 riv' size2 = None) ∧
  memriver_clear riv' = None ∧
  (∀ h2, memriver_reset h2 riv' = None).
Proof.
  intros riv.
  apply (memriver_alloc_refused_then (zeroed []) (zeroed []) riv 20).
  - reflexivity.
  - simpl. lia.
  - unfold SIZE_MOD. simpl. lia.
  - simpl. lia.
  - reflexivity.
Defined.

(** ** Baths: allocation after [membath_reset] *)

Lemma bitArray_test_set (ar : list Z) (i : Z) :
  bit_set ar i = true → ∃ t, bitArray_test ar i = Some t ∧ t ≠ 0.
Proof.
  intros Hset. unfold bitArray_test.
  destruct (index ar (bitArray_slot i)) as [w|] eqn:Hw;
    [|by unfold bit_set in Hset; rewrite Hw in Hset].
  simpl. eexists. split; [done|]. intros Hzero.
  assert (bitArray_test ar i = Some (Z.land w (bitArray_mask i))) as Htest.
  { unfold bitArray_test. by rewrite Hw. }
  apply bitArray_test_spec in Htest. apply Htest in Hzero. congruence.
Qed.

Lemma scan_free_all_set (fuel : nat) (useMap : list Z) (i : Z) :
  (∀ j, i ≤ j < i + Z.of_nat fuel → bit_set useMap j = true) →
  scan_free fuel useMap i = Some None.
Proof.
  revert i. induction fuel as [|fuel IH]; intros i Hset; [done|].
  cbn [scan_free].
  destruct (bitArray_test_set useMap i) as (t & -> & Ht); [apply Hset; lia|].
  cbn [mbind option_bind]. rewrite decide_False by done.
  apply IH. intros j Hj. apply Hset. lia.
Qed.

Lemma scan_free_next (fuel : nat) (useMap : list Z) (i : Z) :
  bit_set useMap i = true → bit_set useMap (i + 1) = false →
  0 ≤ bitArray_slot (i + 1) < Z.of_nat (length useMap) →
  scan_free (S (S fuel)) useMap i = Some (Some (i + 1)).
Proof.
  intros Hset Hclear Hslot. cbn [scan_free].
  destruct (bitArray_test_set useMap i) as (t & -> & Ht); [done|].
  cbn [mbind option_bind]. rewrite decide_False by done.
  destruct (bitArray_test_is_Some useMap (i + 1) Hslot) as [t' Ht'].
  rewrite Ht'. cbn [mbind option_bind].
  apply bitArray_test_spec in Ht' as Hspec.
  by rewrite decide_True by (by apply Hspec).
Qed.

Lemma membath_alloc_stale (K k : Z) (bath : membath_s) :
  0 ≤ k < K → K < bath_size bath → bath_size bath + 31 < SIZE_MOD →
  bath_stale K k bath →
  ∃ bath',
    membath_alloc bath
    = Some (bath_data bath + wrap (k * bath_itemSize bath), bath') ∧
    bath_stale K (k + 1) bath' ∧
    bath_size bath' = bath_size bath ∧
    bath_itemSize bath' = bath_itemSize bath ∧
    bath_data bath' = bath_data bath.
Proof.
  intros Hk HK Hmax (Hlen & Hff & um & Hum & Hwords & Hbits).
  rewrite decide_True in Hff by lia.
  unfold membath_alloc. rewrite decide_False by lia.
  rewrite Hum, Hff, Hlen. cbn [mbind option_bind].
  destruct (bitArray_set_is_Some um k) as [um' Hset].
  { eapply slot_in_range; [| |done|]; lia. }
  rewrite Hset. cbn [mbind option_bind].
  pose proof (bitArray_set_length _ _ _ Hset) as Hlen'.
  assert (∀ j, 0 ≤ j < bath_size bath →
               bit_set um' j = bool_decide (j < k + 1 ∨ K ≤ j)) as Hbits'.
  { intros j Hj. rewrite (bit_set_set _ _ _ j Hset), Hbits by done.
    repeat case_bool_decide; simpl; try done; lia. }
  assert (scan_free (Z.to_nat (bath_size bath - k)) um' k
          = Some (if decide (k + 1 < K) then Some (k + 1) else None))
    as ->.
  { case_decide as Hnext.
    - replace (Z.to_nat (bath_size bath - k))
        with (S (S (Z.to_nat (bath_size bath - k - 2)))) by lia.
      apply scan_free_next.
      + rewrite Hbits' by lia. apply bool_decide_eq_true. lia.
      + rewrite Hbits' by lia. apply bool_decide_eq_false. lia.
      + rewrite Hlen'. eapply slot_in_range; [| |done|]; lia.
    - apply scan_free_all_set. intros j Hj.
      rewrite Hbits' by lia. apply bool_decide_eq_true. lia. }
  cbn [mbind option_bind]. eexists. split; [done|].
  assert (1 < SIZE_MOD) as Hone by done.
  split; [|done]. unfold bath_stale. simpl.
  split; [apply wrap_small; lia|]. split.
  - repeat case_decide; simpl; lia.
  - exists um'. split; [done|]. split; [lia|done].
Qed.

Lemma membath_alloc_n_stale (n : nat) (K k : Z) (bath : membath_s) :
  0 ≤ k → k + Z.of_nat n ≤ K → K < bath_size bath →
  bath_size bath + 31 < SIZE_MOD →
  bath_stale K k bath →
  ∃ bath',
    membath_alloc_n n bath
    = Some ((λ i, bath_data bath + wrap (i * bath_itemSize bath))
              <$> seqZ k (Z.of_nat n),
            bath') ∧
    bath_stale K (k + Z.of_nat n) bath' ∧
    bath_size bath' = bath_size bath ∧
    bath_itemSize bath' = bath_itemSize bath ∧
    bath_data bath' = bath_data bath.
Proof.
  revert k bath. induction n as [|n IH]; intros k bath Hk Hn HK Hmax Hstale.
  { exists bath. rewrite Z.add_0_r. done. }
  destruct (membath_alloc_stale K k bath)
    as (bath1 & Halloc & Hstale1 & Hsize1 & Hitem1 & Hdata1);
    [lia|done..|].
  destruct (IH (k + 1) bath1)
    as (bath' & Hrun & Hstale' & Hsize' & Hitem' & Hdata');
    [lia|lia|lia|lia|done|].
  exists bath'. cbn [membath_alloc_n]. rewrite Halloc.
  cbn [mbind option_bind]. rewrite Hrun. cbn [mbind option_bind].
  split; [|split; [|split; [|split]]]; try congruence.
  - rewrite Hdata1, Hitem1.
    replace (Z.of_nat (S n)) with (Z.succ (Z.of_nat n)) by lia.
    rewrite (seqZ_cons k) by lia. cbn [fmap list_fmap].
    replace (Z.pred (Z.succ (Z.of_nat n))) with (Z.of_nat n) by lia.
    by replace (Z.succ k) with (k + 1) by lia.
  - by replace (k + Z.of_nat (S n)) with (k + 1 + Z.of_nat n) by lia.
Qed.

(** X26.  On a little-endian machine [membath_reset] leaves the marks of
    the slots from [K = 8 * bitArray_size size] on.  When these slots were
    in use, as in a full bath of more than eight items, the bath hands out
    the slots 0 to [K - 1] after the reset and then, not being full, the
    slot [K - 1] a second time: allocation [K + 1] returns the address
    that allocation [K] returned. *)
Theorem membath_reset_same_slot_twice (bath : membath_s) (useMap : list Z) :
  bath_useMap bath = Some useMap →
  Z.of_nat (length useMap) = bitArray_size (bath_size bath) →
  bath_size bath + 31 < SIZE_MOD →
  let K := 8 * bitArray_size (bath_size bath) in
  K < bath_size bath →
  (∀ j, K ≤ j < bath_size bath → in_use bath j = true) →
  ∃ bath0 ps bath1 bath2,
    membath_reset LittleEndian bath = Some bath0 ∧
    membath_alloc_n (Z.to_nat K) bath0 = Some (ps, bath1) ∧
    ps !! Z.to_nat (K - 1)
    = Some (bath_data bath + wrap ((K - 1) * bath_itemSize bath)) ∧
    bath_length bath1 = K ∧
    membath_alloc bath1
    = Some (bath_data bath + wrap ((K - 1) * bath_itemSize bath), bath2).
Proof.
  intros Hum Hwords Hmax K HK Hused.
  pose proof (bitArray_size_nonneg (bath_size bath)) as Hnn.
  assert (8 ≤ K) as HK8.
  { assert (1 ≤ bitArray_size (bath_size bath)); [|lia].
    assert (64 < SIZE_MOD) as Hbig by done.
    rewrite bitArray_size_small by lia.
    apply Z.div_le_lower_bound; lia. }
  destruct (membath_reset_little_bits bath useMap Hum Hwords)
    as (um0 & Hreset & Hlen0 & Hbits0).
  set (bath0 := Membath _ _ 0 0 (Some um0) _) in Hreset.
  assert (bath_stale K 0 bath0) as Hstale0.
  { unfold bath_stale, bath0. simpl. split; [done|].
    split; [by rewrite decide_True by lia|].
    exists um0. split; [done|]. split; [lia|].
    intros j Hj. rewrite Hbits0. fold K.
    case_bool_decide as HjK.
    - specialize (Hused j ltac:(lia)). unfold in_use in Hused.
      rewrite Hum in Hused. rewrite Hused. simpl.
      symmetry. apply bool_decide_eq_true. lia.
    - rewrite andb_false_r. symmetry. apply bool_decide_eq_false. lia. }
  destruct (membath_alloc_n_stale (Z.to_nat K) K 0 bath0)
    as (bath1 & Hrun & Hstale1 & Hsize1 & Hitem1 & Hdata1);
    [lia|lia|done|done|done|].
  replace (0 + Z.of_nat (Z.to_nat K)) with K in Hstale1 by lia.
  destruct Hstale1 as (Hlen1 & Hff1 & um1 & Hum1 & Hwords1 & Hbits1).
  rewrite decide_False in Hff1 by lia.
  destruct (membath_alloc_defined bath1 um1) as [[p bath2] Halloc];
    [rewrite Hsize1; simpl; lia|by rewrite Hsize1|done|done|
     right; rewrite Hsize1, Hff1; simpl; lia|].
  pose proof (membath_alloc_address _ _ _ Halloc
                ltac:(rewrite Hsize1, Hlen1; simpl; lia)) as Hp.
  rewrite Hdata1, Hitem1, Hff1 in Hp. simpl in Hp.
  eexists bath0, _, bath1, bath2.
  split; [done|]. split; [done|]. split; [|split; [done|by rewrite <- Hp]].
  rewrite list_lookup_fmap.
  assert (seqZ 0 (Z.of_nat (Z.to_nat K)) !! Z.to_nat (K - 1) = Some (K - 1))
    as ->; [|done].
  apply lookup_seqZ. lia.
Qed.

Lemma membath_reset_same_slot_twice_witness :
  let bath := Membath 9 4 9 8 (Some [511]) 1100 in
  ∃ bath0 ps bath1 bath2,
    membath_reset LittleEndian bath = Some bath0 ∧
    membath_alloc_n (Z.to_nat (8 * bitArray_size 9)) bath0
    = Some (ps, bath1) ∧
    ps !! Z.to_nat (8 * bitArray_size 9 - 1)
    = Some (1100 + wrap ((8 * bitArray_size 9 - 1) * 4)) ∧
    bath_length bath1 = 8 * bitArray_size 9 ∧
    membath_alloc bath1
    = Some (1100 + wrap ((8 * bitArray_size 9 - 1) * 4), bath2).
Proof.
  intros bath.
  apply (membath_reset_same_slot_twice bath [511]).
  - reflexivity.
  - reflexivity.
  - unfold SIZE_MOD. simpl. lia.
  - reflexivity.
  - intros j Hj. change (8 * bitArray_size (bath_size bath)) with 8 in Hj.
    change (bath_size bath) with 9 in Hj.
    assert (j = 8) as -> by lia. reflexivity.
Defined.

(** ** Pools: baths without items *)

Lemma membath_init_fields (h h' : heap) (bath0 bath : membath_s)
      (size itemSize : Z) (ok : bool) :
  membath_init h bath0 size itemSize = (ok, bath, h') →
  bath_size bath = size ∧ bath_itemSize bath = itemSize ∧
  bath_length bath = 0 ∧ bath_firstFree bath = 0.
Proof.
  unfold membath_init, calloc, malloc.
  destruct (request h) as [um h1]. case_decide; [by intros [= <- <- <-]|].
  destruct (request h1) as [d h2]. by intros [= <- <- <-].
Qed.

(** X27.  A pool may be made with baths of 0 items.  Its last bath is
    always full: whenever [realloc] grants the larger array,
    [mempool_alloc] appends another bath of 0 items, whatever the
    allocator answers for its storage, and returns [NULL]. *)
Theorem mempool_alloc_no_items (h h1 : heap) (pool : mempool_s)
        (last : membath_s) (q : ptr) :
  pool_bathSize pool = 0 →
  pool_length pool = Z.of_nat (length (pool_baths pool)) →
  pool_length pool + 1 < SIZE_MOD →
  index (pool_baths pool) (pool_length pool - 1) = Some last →
  bath_size last = 0 → bath_length last = 0 →
  request h = (q, h1) → q ≠ NULL →
  ∃ fresh h2,
    mempool_alloc h pool
    = Some (NULL,
            Mempool (pool_length pool + 1) 0 (pool_itemSize pool)
                    (pool_baths pool ++ [fresh]),
            h2) ∧
    bath_size fresh = 0 ∧ bath_length fresh = 0.
Proof.
  intros Hbs Hlen Hmax Hlast Hsize0 Hlen0 Hq Hqn.
  pose proof (index_lt _ _ _ Hlast) as Hlt.
  assert (∀ bath, bath_size bath = 0 → bath_length bath = 0 →
                  membath_alloc bath = Some (NULL, bath)) as Hfull.
  { intros bath Hs Hl. unfold membath_alloc. by rewrite decide_True by lia. }
  unfold mempool_alloc. rewrite Hlast. cbn [mbind option_bind].
  rewrite (Hfull last) by done.
  cbn [mbind option_bind]. rewrite (store_same _ _ _ Hlast).
  cbn [mbind option_bind]. rewrite decide_False by (by intros []).
  unfold realloc. rewrite Hq. rewrite decide_False by done.
  rewrite (wrap_small (pool_length pool + 1)) by lia.
  assert (resize (Z.to_nat (pool_length pool + 1)) (junk_bath h1)
                 (pool_baths pool)
          = pool_baths pool ++ [junk_bath h1]) as ->.
  { rewrite resize_ge by lia.
    by replace (Z.to_nat (pool_length pool + 1) - length (pool_baths pool))%nat
      with 1%nat by lia. }
  assert (Z.to_nat (pool_length pool + 1 - 1)
          = (length (pool_baths pool) + 0)%nat) as Hplace by lia.
  unfold index at 1. rewrite decide_True by lia.
  rewrite Hplace, lookup_app_r by lia.
  replace (length (pool_baths pool) + 0 - length (pool_baths pool))%nat
    with 0%nat by lia.
  cbn [lookup list_lookup mbind option_bind]. rewrite Hbs.
  destruct (membath_init h1 (junk_bath h1) 0 (pool_itemSize pool))
    as [[ok fresh] h2] eqn:Hinit.
  destruct (membath_init_fields _ _ _ _ _ _ _ Hinit)
    as (Hfsize & _ & Hflen & _).
  rewrite (Hfull fresh) by done.
  cbn [mbind option_bind].
  unfold store. rewrite length_app. simpl. rewrite decide_True by lia.
  cbn [mbind option_bind]. rewrite Hplace, insert_app_r. simpl.
  by exists fresh, h2.
Qed.

Lemma mempool_alloc_no_items_witness :
  ∃ fresh h2,
    mempool_alloc (zeroed [1000; 1001; 0])
                  (Mempool 1 0 4 [Membath 0 4 0 0 (Some []) 1100])
    = Some (NULL,
            Mempool (1 + 1) 0 4 ([Membath 0 4 0 0 (Some []) 1100] ++ [fresh]),
            h2) ∧
    bath_size fresh = 0 ∧ bath_length fresh = 0.
Proof.
  apply (mempool_alloc_no_items
           (zeroed [1000; 1001; 0]) (zeroed [1001; 0])
           (Mempool 1 0 4 [Membath 0 4 0 0 (Some []) 1100])
           (Membath 0 4 0 0 (Some []) 1100) 1000).
  - reflexivity.
  - reflexivity.
  - unfold SIZE_MOD. simpl. lia.
  - reflexivity.
  - reflexivity.
  - reflexivity.
  - reflexivity.
  - done.
Defined.
